(** * Actor geolocation and multi-frame tracking: a shallow embedding

    This development embeds the tracking core of the dashboard
    ([src/lib/actor-matching.ts], [src/lib/geo-utils.ts],
    [src/lib/geo-projection.ts], the distance clamp of
    [src/app/api/detect-actors/route.ts] and the [useActorTracking] hook)
    and proves the properties its specification states about it.

    Numbers.  A JavaScript [number] is modelled as an exact rational ([Q]):
    arithmetic is exact, and [NaN], the infinities and rounding error are
    outside the model.  The transcendental functions of [Math] are not part
    of the repository; they are the fields of the class [MathLib].  The
    theorems hold for every implementation of them; the concrete runs use
    the rational implementation [ApproxMath]. *)

From Stdlib Require Import QArith Qround Qminmax Lqa Ascii.
From stdpp Require Import gmap strings list pretty sorting.

Local Open Scope Q_scope.

(* ================================================================= *)
(** ** JavaScript primitives *)

Module JS.

(** [a < b] on numbers, as a boolean. *)
Definition ltb (a b : Q) : bool :=
  match a ?= b with Lt => true | _ => false end.

(** [Math.max(a, b)] and [Math.min(a, b)]. *)
Definition Math_max (a b : Q) : Q := if ltb a b then b else a.
Definition Math_min (a b : Q) : Q := if ltb b a then b else a.

(** [Math.round(x)]: the nearest integer, a tie going up. *)
Definition Math_round (x : Q) : Q := inject_Z (Qfloor (x + (1 # 2))).

(** Truncation toward zero, and the remainder operator [x % m], whose
    result takes the sign of [x]. *)
Definition trunc (x : Q) : Z := Z.quot (Qnum x) (Zpos (Qden x)).
Definition rem (x m : Q) : Q := x - m * inject_Z (trunc (x / m)).

(** [Array.prototype.sort(compareFn)].  The sort of ECMAScript is stable:
    an element moves behind another one only when the comparator returns
    a positive number for the pair.  This is the insertion sort with that
    behaviour; for a comparator that is a consistent order every stable
    sort returns the same array. *)
Section Sort.
Context {A : Type} (compareFn : A → A → Q).

Fixpoint sort_insert (x : A) (l : list A) : list A :=
  match l with
  | [] => [x]
  | y :: l' =>
      if ltb 0 (compareFn x y) then y :: sort_insert x l' else x :: l
  end.

Definition Array_sort (l : list A) : list A := foldr sort_insert [] l.
End Sort.

(** [s.toLowerCase()] on the ASCII letters; other bytes are kept. *)
Definition lower_ascii (c : ascii) : ascii :=
  let n := nat_of_ascii c in
  if (65 <=? n)%nat && (n <=? 90)%nat then ascii_of_nat (n + 32) else c.

Fixpoint toLowerCase (s : string) : string :=
  match s with
  | EmptyString => EmptyString
  | String c s' => String (lower_ascii c) (toLowerCase s')
  end.

(** The ASCII characters matched by the regular expression class [\s]. *)
Definition is_space (c : ascii) : bool :=
  let n := nat_of_ascii c in
  ((9 <=? n)%nat && (n <=? 13)%nat) || (n =? 32)%nat.

(** [s.split(/\s+/)]: the pieces between the maximal runs of white space.
    A run at the start or at the end of [s] leaves an empty piece there,
    and the empty string splits into one empty piece. *)
Fixpoint split_go (s : string) (piece : string) (inRun : bool) : list string :=
  match s with
  | EmptyString => [piece]
  | String c s' =>
      if is_space c then
        if inRun then split_go s' piece true
        else piece :: split_go s' EmptyString true
      else split_go s' (piece +:+ String c EmptyString) false
  end.

Definition split_spaces (s : string) : list string := split_go s EmptyString false.

End JS.

(** The functions of [Math] the code calls and the repository does not
    define. *)
Class MathLib := {
  Math_PI : Q;
  Math_sin : Q → Q;
  Math_cos : Q → Q;
  Math_tan : Q → Q;
  Math_asin : Q → Q;
  Math_atan : Q → Q;
  Math_atan2 : Q → Q → Q;
  Math_sqrt : Q → Q;
}.

(* ================================================================= *)
(** ** Data model ([src/types/actors.ts]) *)

Record LatLon := { lat : Q; lon : Q }.

Record BBox := { x_min : Q; y_min : Q; x_max : Q; y_max : Q }.

Inductive Confidence := high | medium | low.

(** [ActorType] is a union of string literals; the tracker stores and
    compares it as a string. *)
Record DetectedActor := {
  actor_type : string;
  actor_label : string;
  actor_confidence : Confidence;
  actor_bbox : BBox;
  actor_estimatedDistanceMeters : Q;
  actor_moving : option bool;
  actor_description : string;
  actor_worldPosition : LatLon;
  actor_bearingFromCamera : Q;
}.

Record ActorDetectionResult := {
  actors : list DetectedActor;
  timestamp : Q;
  cameraPosition : LatLon;
  cameraBearing : Q;
  fovDegrees : Q;
  detectedAt : string;
}.

Record ActorObservation := {
  obs_timestamp : Q;
  obs_worldPosition : LatLon;
  obs_bbox : BBox;
  obs_confidence : Confidence;
  obs_description : string;
}.

Record ActorTrack := {
  trackId : string;
  track_type : string;
  track_label : string;
  color : string;
  observations : list ActorObservation;
  firstSeen : Q;
  lastSeen : Q;
}.

Record ActorTrackingResult := {
  tracks : list ActorTrack;
  keyframeTimestamps : list Q;
  frameResults : list ActorDetectionResult;
  eventId : string;
}.

Inductive TrackingStatus := st_detecting | st_matching | st_done | st_error.

Record TrackingProgress := {
  currentFrame : nat;
  totalFrames : nat;
  status : TrackingStatus;
  message : string;
}.

(* ================================================================= *)
(** ** Geometry utilities ([src/lib/geo-utils.ts]) *)

Definition EARTH_RADIUS : Q := 6371000.

Definition haversineDistance `{MathLib} (lat1 lon1 lat2 lon2 : Q) : Q :=
  let dLat := ((lat2 - lat1) * Math_PI) / 180 in
  let dLon := ((lon2 - lon1) * Math_PI) / 180 in
  let a :=
    Math_sin (dLat / 2) ^ 2 +
    Math_cos ((lat1 * Math_PI) / 180) *
      Math_cos ((lat2 * Math_PI) / 180) *
      Math_sin (dLon / 2) ^ 2 in
  EARTH_RADIUS * 2 * Math_atan2 (Math_sqrt a) (Math_sqrt (1 - a)).

(* ================================================================= *)
(** ** Track builder ([src/lib/actor-matching.ts]) *)

Definition TRACK_COLORS : list string :=
  [ "#3b82f6"; "#ef4444"; "#10b981"; "#f59e0b"; "#8b5cf6";
    "#ec4899"; "#06b6d4"; "#f97316"; "#14b8a6"; "#6366f1" ]%string.

Definition MAX_MATCH_DISTANCE_M : Q := 30.
Definition LABEL_SIMILARITY_WEIGHT : Q := 3 # 10.

(** Word-overlap similarity between two labels.  A [Set] of strings is a
    [gset string]; the loop over [wordsA] counts its members that [wordsB]
    has. *)
Definition labelSimilarity (a b : string) : Q :=
  let wordsA : gset string := list_to_set (JS.split_spaces (JS.toLowerCase a)) in
  let wordsB : gset string := list_to_set (JS.split_spaces (JS.toLowerCase b)) in
  if (size wordsA =? 0)%nat && (size wordsB =? 0)%nat then 1
  else
    let overlap := length (filter (λ w, w ∈ wordsB) (elements wordsA)) in
    let union := size (wordsA ∪ wordsB) in
    if (union =? 0)%nat then 0
    else inject_Z (Z.of_nat overlap) / inject_Z (Z.of_nat union).

Record OpenTrack := {
  ot_trackId : string;
  ot_type : string;
  ot_label : string;
  ot_lastObservation : ActorObservation;
  ot_observations : list ActorObservation;
}.

Record Candidate := { trackIdx : nat; obsIdx : nat; cost : Q }.

(** The observation a frame records for one of its actors (lines 64-73). *)
Definition observationOf (frame : ActorDetectionResult) (actor : DetectedActor)
  : ActorObservation :=
  {| obs_timestamp := timestamp frame;
     obs_worldPosition := actor_worldPosition actor;
     obs_bbox := actor_bbox actor;
     obs_confidence := actor_confidence actor;
     obs_description := actor_description actor |}.

Definition frameObservations (frame : ActorDetectionResult)
  : list (DetectedActor * ActorObservation) :=
  map (λ actor, (actor, observationOf frame actor)) (actors frame).

(** The distance from the last observation of a track to an observation. *)
Definition trackDistance `{MathLib} (track : OpenTrack) (obs : ActorObservation) : Q :=
  haversineDistance
    (lat (obs_worldPosition (ot_lastObservation track)))
    (lon (obs_worldPosition (ot_lastObservation track)))
    (lat (obs_worldPosition obs))
    (lon (obs_worldPosition obs)).

(** The body of the two nested loops of lines 81-101: the candidate of one
    (track, observation) pair, if it passes both gates. *)
Definition candidateOf `{MathLib} (ti : nat) (track : OpenTrack)
    (oi : nat) (ao : DetectedActor * ActorObservation) : list Candidate :=
  let '(actor, obs) := ao in
  if negb (String.eqb (actor_type actor) (ot_type track)) then []
  else
    let dist := trackDistance track obs in
    if JS.ltb MAX_MATCH_DISTANCE_M dist then []
    else
      let sim := labelSimilarity (ot_label track) (actor_label actor) in
      let cost := dist - sim * LABEL_SIMILARITY_WEIGHT * MAX_MATCH_DISTANCE_M in
      [ {| trackIdx := ti; obsIdx := oi; cost := cost |} ].

Definition buildCandidates `{MathLib} (openTracks : list OpenTrack)
    (obsList : list (DetectedActor * ActorObservation)) : list Candidate :=
  mjoin (imap (λ ti track,
            mjoin (imap (λ oi ao, candidateOf ti track oi ao) obsList))
          openTracks).

Definition sortCandidates (candidates : list Candidate) : list Candidate :=
  JS.Array_sort (λ a b, cost a - cost b) candidates.

(** The state of the greedy loop of lines 105-114. *)
Record Matching := {
  matched : gset nat;
  usedObs : gset nat;
  m_openTracks : list OpenTrack;
}.

Definition appendObservation (obs : ActorObservation) (track : OpenTrack) : OpenTrack :=
  {| ot_trackId := ot_trackId track;
     ot_type := ot_type track;
     ot_label := ot_label track;
     ot_lastObservation := obs;
     ot_observations := ot_observations track ++ [obs] |}.

(** One iteration of the greedy loop.  The indices of a candidate are always
    in range (see [buildCandidates_in_range]); out of range the source would
    read [undefined] and throw, here the tracks are left as they are. *)
Definition assignCandidate (obsList : list (DetectedActor * ActorObservation))
    (m : Matching) (c : Candidate) : Matching :=
  if bool_decide (trackIdx c ∈ matched m) || bool_decide (obsIdx c ∈ usedObs m)
  then m
  else
    {| matched := {[ trackIdx c ]} ∪ matched m;
       usedObs := {[ obsIdx c ]} ∪ usedObs m;
       m_openTracks :=
         match obsList !! obsIdx c with
         | Some (_, obs) => alter (appendObservation obs) (trackIdx c) (m_openTracks m)
         | None => m_openTracks m
         end |}.

Definition greedyAssign (obsList : list (DetectedActor * ActorObservation))
    (openTracks : list OpenTrack) (candidates : list Candidate) : Matching :=
  fold_left (assignCandidate obsList) candidates
    {| matched := ∅; usedObs := ∅; m_openTracks := openTracks |}.

(** The loop of lines 117-122, [ti] running from [n - 1] down to [0]:
    an unmatched track is pushed on [closedTracks] and spliced out of
    [openTracks]. *)
Fixpoint closeUnmatched (matched : gset nat) (n : nat)
    (openTracks closedTracks : list OpenTrack) : list OpenTrack * list OpenTrack :=
  match n with
  | O => (openTracks, closedTracks)
  | S ti =>
      if bool_decide (ti ∈ matched) then closeUnmatched matched ti openTracks closedTracks
      else
        match openTracks !! ti with
        | Some track =>
            closeUnmatched matched ti (delete ti openTracks) (closedTracks ++ [track])
        | None => closeUnmatched matched ti openTracks closedTracks
        end
  end.

Definition newTrack (nextId : nat) (actor : DetectedActor) (obs : ActorObservation)
  : OpenTrack :=
  {| ot_trackId := "track-" +:+ pretty nextId;
     ot_type := actor_type actor;
     ot_label := actor_label actor;
     ot_lastObservation := obs;
     ot_observations := [obs] |}.

(** The loop of lines 125-135 from index [oi] on, over the rest of the
    observations. *)
Fixpoint startTracks (usedObs : gset nat) (oi : nat)
    (rest : list (DetectedActor * ActorObservation))
    (openTracks : list OpenTrack) (nextId : nat) : list OpenTrack * nat :=
  match rest with
  | [] => (openTracks, nextId)
  | (actor, obs) :: rest' =>
      if bool_decide (oi ∈ usedObs) then startTracks usedObs (S oi) rest' openTracks nextId
      else
        startTracks usedObs (S oi) rest'
          (openTracks ++ [newTrack nextId actor obs]) (S nextId)
  end.

(** The variables of the main loop. *)
Record Builder := {
  openTracks : list OpenTrack;
  closedTracks : list OpenTrack;
  nextId : nat;
}.

Definition initialBuilder : Builder :=
  {| openTracks := []; closedTracks := []; nextId := 1 |}.

Definition frameMatching `{MathLib} (b : Builder) (frame : ActorDetectionResult) : Matching :=
  let obsList := frameObservations frame in
  greedyAssign obsList (openTracks b)
    (sortCandidates (buildCandidates (openTracks b) obsList)).

(** One iteration of the loop over the sorted frames (lines 62-136). *)
Definition processFrame `{MathLib} (b : Builder) (frame : ActorDetectionResult) : Builder :=
  let obsList := frameObservations frame in
  let m := frameMatching b frame in
  let '(open1, closed1) :=
    closeUnmatched (matched m) (length (m_openTracks m)) (m_openTracks m) (closedTracks b) in
  let '(open2, nextId2) := startTracks (usedObs m) 0 obsList open1 (nextId b) in
  {| openTracks := open2; closedTracks := closed1; nextId := nextId2 |}.

Definition sortFrames (frameResults : list ActorDetectionResult) : list ActorDetectionResult :=
  JS.Array_sort (λ a b, timestamp a - timestamp b) frameResults.

(** [closedTracks.map((t, i) => ...)] (lines 142-150).  A track always has an
    observation (see [tracks_nonempty]); the source would throw on an empty
    list, here the time of [lastObservation] stands in. *)
Definition toActorTrack (i : nat) (t : OpenTrack) : ActorTrack :=
  {| trackId := ot_trackId t;
     track_type := ot_type t;
     track_label := ot_label t;
     color := default ""%string (TRACK_COLORS !! (i mod length TRACK_COLORS)%nat);
     observations := ot_observations t;
     firstSeen :=
       from_option obs_timestamp (obs_timestamp (ot_lastObservation t))
         (head (ot_observations t));
     lastSeen :=
       from_option obs_timestamp (obs_timestamp (ot_lastObservation t))
         (last (ot_observations t)) |}.

(** All tracks in the order in which they were closed, those still open
    after the last frame at the end (line 139). *)
Definition allClosed `{MathLib} (frameResults : list ActorDetectionResult) : list OpenTrack :=
  let b := fold_left processFrame (sortFrames frameResults) initialBuilder in
  closedTracks b ++ openTracks b.

Definition buildTracks `{MathLib} (frameResults : list ActorDetectionResult)
    (eventId : string) : ActorTrackingResult :=
  let sorted := sortFrames frameResults in
  let tracks := imap toActorTrack (allClosed frameResults) in
  let tracks := JS.Array_sort (λ a b, firstSeen a - firstSeen b) tracks in
  {| tracks := tracks;
     keyframeTimestamps := map timestamp sorted;
     frameResults := sorted;
     eventId := eventId |}.

(* ================================================================= *)
(** ** Camera projection model ([src/lib/geo-projection.ts]) *)

Record CameraIntrinsics := { focal : Q; k1 : Q; k2 : Q }.

Record Projected := { proj_lat : Q; proj_lon : Q; proj_bearing : Q }.

Definition toRad `{MathLib} (deg : Q) : Q := (deg * Math_PI) / 180.
Definition toDeg `{MathLib} (rad : Q) : Q := (rad * 180) / Math_PI.

(** Five rounds of the fixed-point iteration that inverts the radial
    distortion. *)
Definition undistortPoint (xd yd k1 k2 : Q) : Q * Q :=
  Nat.iter 5
    (λ '(xu, yu),
       let r2 := xu * xu + yu * yu in
       let r4 := r2 * r2 in
       let scale := 1 + k1 * r2 + k2 * r4 in
       (xd / scale, yd / scale))
    (xd, yd).

Definition pixelToBearingOffset `{MathLib} (pixelX imageWidth fovDegrees : Q)
    (intrinsics : option CameraIntrinsics) : Q :=
  let normalizedX := (pixelX / imageWidth) - (1 # 2) in
  match intrinsics with
  | Some i =>
      let undistorted := undistortPoint normalizedX 0 (k1 i) (k2 i) in
      toDeg (Math_atan (fst undistorted / focal i))
  | None =>
      let halfFovRad := toRad (fovDegrees / 2) in
      let focalFromFov := (1 # 2) / Math_tan halfFovRad in
      toDeg (Math_atan (normalizedX / focalFromFov))
  end.

Definition projectPoint `{MathLib} (lat lon bearingDeg distanceMeters : Q) : LatLon :=
  let d := distanceMeters / EARTH_RADIUS in
  let brng := toRad bearingDeg in
  let lat1 := toRad lat in
  let lon1 := toRad lon in
  let lat2 :=
    Math_asin (Math_sin lat1 * Math_cos d + Math_cos lat1 * Math_sin d * Math_cos brng) in
  let lon2 :=
    lon1 +
    Math_atan2 (Math_sin brng * Math_sin d * Math_cos lat1)
               (Math_cos d - Math_sin lat1 * Math_sin lat2) in
  {| lat := toDeg lat2; lon := toDeg lon2 |}.

(** The bearing of the centre of a bounding box, from north. *)
Definition absoluteBearing `{MathLib} (bbox : BBox)
    (cameraBearing imageWidth fovDegrees : Q) (intrinsics : option CameraIntrinsics) : Q :=
  let bboxCenterX := (x_min bbox + x_max bbox) / 2 in
  let bearingOffset := pixelToBearingOffset bboxCenterX imageWidth fovDegrees intrinsics in
  JS.rem (cameraBearing + bearingOffset + 360) 360.

Definition projectActorToWorld `{MathLib} (bbox : BBox)
    (distanceMeters cameraLat cameraLon cameraBearing imageWidth fovDegrees : Q)
    (intrinsics : option CameraIntrinsics) : Projected :=
  let absoluteBearing :=
    absoluteBearing bbox cameraBearing imageWidth fovDegrees intrinsics in
  let pos := projectPoint cameraLat cameraLon absoluteBearing distanceMeters in
  {| proj_lat := lat pos; proj_lon := lon pos; proj_bearing := absoluteBearing |}.

(* ================================================================= *)
(** ** Projection of the detections of a frame
       ([src/app/api/detect-actors/route.ts], lines 235-260) *)

(** An actor as the vision model reports it. *)
Record RawActor := {
  raw_type : string;
  raw_label : string;
  raw_confidence : Confidence;
  raw_bbox : BBox;
  raw_estimatedDistanceMeters : Q;
  raw_moving : option bool;
  raw_description : string;
}.

(** [rawResult.frameWidth || 1280]: zero is falsy. *)
Definition imageWidthOf (frameWidth : Q) : Q :=
  if Qeq_bool frameWidth 0 then 1280 else frameWidth.

(** The callback of [rawResult.actors.map] (lines 241-260). *)
Definition projectRawActor `{MathLib}
    (cameraLat cameraLon cameraBearing imageWidth fovDegrees : Q)
    (intrinsics : option CameraIntrinsics) (raw : RawActor) : DetectedActor :=
  let clampedDistance := JS.Math_max 2 (JS.Math_min 200 (raw_estimatedDistanceMeters raw)) in
  let projected :=
    projectActorToWorld (raw_bbox raw) clampedDistance
      cameraLat cameraLon cameraBearing imageWidth fovDegrees intrinsics in
  {| actor_type := raw_type raw;
     actor_label := raw_label raw;
     actor_confidence := raw_confidence raw;
     actor_bbox := raw_bbox raw;
     actor_estimatedDistanceMeters := clampedDistance;
     actor_moving := raw_moving raw;
     actor_description := raw_description raw;
     actor_worldPosition := {| lat := proj_lat projected; lon := proj_lon projected |};
     actor_bearingFromCamera := proj_bearing projected |}.

(** Step 3 of [POST] (lines 235-260): the actors the vision model reports,
    projected. *)
Definition projectActors `{MathLib}
    (cameraLat cameraLon cameraBearing fovDegrees : Q)
    (cameraIntrinsics : option CameraIntrinsics) (frameWidth : Q)
    (rawActors : list RawActor) : list DetectedActor :=
  let imageWidth := imageWidthOf frameWidth in
  let intrinsics :=
    (λ c, {| focal := focal c; k1 := k1 c; k2 := k2 c |}) <$> cameraIntrinsics in
  map (projectRawActor cameraLat cameraLon cameraBearing imageWidth fovDegrees intrinsics)
    rawActors.

(* ================================================================= *)
(** ** Keyframe schedule ([computeKeyframes] of the tracking hook) *)

Definition KEYFRAME_INTERVAL : Q := 1.
Definition KEYFRAME_START : Q := 1 # 2.

(** [Math.round(t * 10) / 10]. *)
Definition roundTenth (t : Q) : Q := JS.Math_round (t * 10) / 10.

(** The [for] loop of line 37 from the value [t] of its variable on.  Each
    unit of fuel pays for one test of the loop condition. *)
Fixpoint keyframeLoop (fuel : nat) (duration t : Q) (timestamps : list Q)
  : option (list Q) :=
  match fuel with
  | O => None
  | S fuel' =>
      if JS.ltb t (duration - (1 # 2)) then
        keyframeLoop fuel' duration (t + KEYFRAME_INTERVAL) (timestamps ++ [roundTenth t])
      else Some timestamps
  end.

(** Lines 40-45: the frame near the end. *)
Definition addEndFrame (duration : Q) (timestamps : list Q) : list Q :=
  let endFrame := JS.Math_max (duration - 1) KEYFRAME_START in
  if (length timestamps =? 0)%nat
     || from_option (λ l, JS.ltb l (endFrame - 1)) false (last timestamps)
  then timestamps ++ [roundTenth endFrame]
  else timestamps.

Definition computeKeyframes_fuel (fuel : nat) (duration : Q) : option (list Q) :=
  addEndFrame duration <$> keyframeLoop fuel duration KEYFRAME_START [].

(** Enough fuel for every duration (see [computeKeyframes_fuel_enough]). *)
Definition keyframeFuel (duration : Q) : nat := S (Z.to_nat (Qceiling duration)).

Definition computeKeyframes (duration : Q) : list Q :=
  default [] (computeKeyframes_fuel (keyframeFuel duration) duration).

(* ================================================================= *)
(** ** Tracking session orchestrator (the [useActorTracking] hook) *)

Definition TRACKING_CACHE_PREFIX : string := "actor-tracking-".
Definition DETECTION_CACHE_PREFIX : string := "actor-detection-".
Definition ANTHROPIC_KEY_STORAGE_KEY : string := "anthropic-api-key".

Record CameraState := { cam_lat : Q; cam_lon : Q; cam_bearing : Q }.

Record TrackParams := {
  p_eventId : string;
  p_videoUrl : string;
  p_videoDuration : Q;
  p_fovDegrees : Q;
  p_cameraIntrinsics : option CameraIntrinsics;
  p_getCameraState : Q → CameraState;
}.

(** The body of the POST request to [/api/detect-actors]. *)
Record DetectRequest := {
  req_eventId : string;
  req_videoUrl : string;
  req_timestamp : Q;
  req_cameraLat : Q;
  req_cameraLon : Q;
  req_cameraBearing : Q;
  req_fovDegrees : Q;
  req_cameraIntrinsics : option CameraIntrinsics;
  req_anthropicApiKey : option string;
}.

(** What [await fetch(...)] and [await response.json()] come to.  A rejected
    promise carries the message of its error. *)
Inductive FetchOutcome :=
| FetchRejected (message : string)
    (** [fetch] rejects: a transport error *)
| ResponseNotOk (status : nat) (data : string + option string)
    (** [response.ok] is false; [data] is the message of the error
        [response.json()] rejects with, or the field [data.error] when it
        is a non-empty string *)
| ResponseOk (body : string + option ActorDetectionResult).
    (** [response.ok] is true; [body] is the message of the error
        [response.json()] rejects with, or the body, [None] when it is
        falsy *)

(** The browser and the network around the hook: what the repository does
    not define.
    - [JSON_parse_session s] is the cached session [JSON.parse(s)] returns,
      [None] when it throws or the value has no [keyframeTimestamps];
    - [JSON_parse_frame s] is the frame result [JSON.parse(s)] returns,
      [None] when it throws or returns a falsy value;
    - [storageFull] tells when [localStorage.setItem] throws;
    - [abortRequested i] is [abortRef.current] as the [i]-th check of the run
      reads it ([clear] may set it while the run awaits a response). *)
Class Browser := {
  JSON_parse_session : string → option ActorTrackingResult;
  JSON_parse_frame : string → option ActorDetectionResult;
  JSON_stringify_session : ActorTrackingResult → string;
  JSON_stringify_frame : ActorDetectionResult → string;
  Number_toFixed1 : Q → string;
  Number_toString : Q → string;
  fetchDetectActors : DetectRequest → FetchOutcome;
  storageFull : gmap string string → string → string → bool;
  abortRequested : nat → bool;
}.

(** The state the hook reads and writes: its React state, its refs, the
    local storage, and the requests sent so far. *)
Record Hook := {
  trackingResult : option ActorTrackingResult;
  isTracking : bool;
  progress : option TrackingProgress;
  error : option string;
  lastEventIdRef : option string;
  localStorage : gmap string string;
  requests : list DetectRequest;
}.

Definition setTrackingResult (r : option ActorTrackingResult) (h : Hook) : Hook :=
  {| trackingResult := r; isTracking := isTracking h; progress := progress h;
     error := error h; lastEventIdRef := lastEventIdRef h;
     localStorage := localStorage h; requests := requests h |}.

Definition setIsTracking (b : bool) (h : Hook) : Hook :=
  {| trackingResult := trackingResult h; isTracking := b; progress := progress h;
     error := error h; lastEventIdRef := lastEventIdRef h;
     localStorage := localStorage h; requests := requests h |}.

Definition setProgress (p : option TrackingProgress) (h : Hook) : Hook :=
  {| trackingResult := trackingResult h; isTracking := isTracking h; progress := p;
     error := error h; lastEventIdRef := lastEventIdRef h;
     localStorage := localStorage h; requests := requests h |}.

Definition setError (e : option string) (h : Hook) : Hook :=
  {| trackingResult := trackingResult h; isTracking := isTracking h; progress := progress h;
     error := e; lastEventIdRef := lastEventIdRef h;
     localStorage := localStorage h; requests := requests h |}.

Definition setLastEventId (e : option string) (h : Hook) : Hook :=
  {| trackingResult := trackingResult h; isTracking := isTracking h; progress := progress h;
     error := error h; lastEventIdRef := e;
     localStorage := localStorage h; requests := requests h |}.

Definition setLocalStorage (s : gmap string string) (h : Hook) : Hook :=
  {| trackingResult := trackingResult h; isTracking := isTracking h; progress := progress h;
     error := error h; lastEventIdRef := lastEventIdRef h;
     localStorage := s; requests := requests h |}.

Definition sendRequest (r : DetectRequest) (h : Hook) : Hook :=
  {| trackingResult := trackingResult h; isTracking := isTracking h; progress := progress h;
     error := error h; lastEventIdRef := lastEventIdRef h;
     localStorage := localStorage h; requests := requests h ++ [r] |}.

(** [try { localStorage.setItem(key, value) } catch {}]: a write that fails
    leaves the storage as it is. *)
Definition trySetItem `{Browser} (key value : string) (h : Hook) : Hook :=
  if storageFull (localStorage h) key value then h
  else setLocalStorage (<[key := value]> (localStorage h)) h.

(** [localStorage.getItem(key)] when the stored string is truthy. *)
Definition getTruthyItem (key : string) (h : Hook) : option string :=
  match localStorage h !! key with
  | Some stored => if String.eqb stored "" then None else Some stored
  | None => None
  end.

Definition trackingCacheKey (eventId : string) : string :=
  TRACKING_CACHE_PREFIX +:+ eventId.

Definition frameCacheKey `{Browser} (eventId : string) (t : Q) : string :=
  DETECTION_CACHE_PREFIX +:+ eventId +:+ "-" +:+ Number_toFixed1 t.

(** The session cache check of lines 67-89 as a decision: the cached
    session to return, if there is one to return. *)
Definition cachedSession `{Browser} (eventId : string) (keyframes : list Q) (h : Hook)
  : option ActorTrackingResult :=
  match getTruthyItem (trackingCacheKey eventId) h with
  | Some stored =>
      match JSON_parse_session stored with
      | Some cached =>
          if (length (keyframeTimestamps cached) =? length keyframes)%nat
          then Some cached else None
      | None => None
      end
  | None => None
  end.

(** The storage after the session cache check did not return: an entry that
    parses and has another keyframe count is removed, one that does not
    parse stays. *)
Definition dropStaleSession `{Browser} (eventId : string) (h : Hook) : Hook :=
  match getTruthyItem (trackingCacheKey eventId) h with
  | Some stored =>
      match JSON_parse_session stored with
      | Some _ => setLocalStorage (delete (trackingCacheKey eventId) (localStorage h)) h
      | None => h
      end
  | None => h
  end.

Definition detectRequest (params : TrackParams) (t : Q) (h : Hook) : DetectRequest :=
  let camera := p_getCameraState params t in
  {| req_eventId := p_eventId params;
     req_videoUrl := p_videoUrl params;
     req_timestamp := t;
     req_cameraLat := cam_lat camera;
     req_cameraLon := cam_lon camera;
     req_cameraBearing := cam_bearing camera;
     req_fovDegrees := p_fovDegrees params;
     req_cameraIntrinsics := p_cameraIntrinsics params;
     req_anthropicApiKey := localStorage h !! ANTHROPIC_KEY_STORAGE_KEY |}.

(** Lines 125-146: the request for one keyframe, awaited.  [inl message]
    when it throws (a transport error, a response that is not ok, a body
    that is not JSON), [inr body] when it returns the body of a response
    that is ok; [None] is a falsy body ([null]). *)
Definition awaitDetection `{Browser} (t : Q) (request : DetectRequest)
  : string + option ActorDetectionResult :=
  match fetchDetectActors request with
  | FetchRejected message => inl message
  | ResponseNotOk status (inl message) => inl message
  | ResponseNotOk status (inr (Some e)) => inl e
  | ResponseNotOk status (inr None) =>
      inl ("Detection failed at " +:+ Number_toString t +:+ "s: " +:+ pretty status)
  | ResponseOk (inl message) => inl message
  | ResponseOk (inr body) => inr body
  end.

(** How the loop over the keyframes ends. *)
Inductive LoopExit :=
| LoopAborted
| LoopThrew (message : string)
| LoopFinished.

(** The loop of lines 95-159 from index [i] on, over the rest of the
    keyframes, with the frame results gathered so far. *)
Fixpoint keyframesLoop `{Browser} (params : TrackParams) (totalFrames : nat)
    (i : nat) (rest : list Q) (frameResults : list ActorDetectionResult) (h : Hook)
  : LoopExit * list ActorDetectionResult * Hook :=
  match rest with
  | [] => (LoopFinished, frameResults, h)
  | t :: rest' =>
      if abortRequested i then
        (LoopAborted, frameResults, setProgress None (setIsTracking false h))
      else
        let h := setProgress (Some
          {| currentFrame := i + 1; totalFrames := totalFrames; status := st_detecting;
             message := "Analyzing frame " +:+ pretty (i + 1)%nat +:+ "/"
                        +:+ pretty totalFrames +:+ "..." |}) h in
        let key := frameCacheKey (p_eventId params) t in
        match getTruthyItem key h ≫= JSON_parse_frame with
        | Some frameResult =>
            keyframesLoop params totalFrames (S i) rest' (frameResults ++ [frameResult]) h
        | None =>
            let request := detectRequest params t h in
            let h := sendRequest request h in
            match awaitDetection t request with
            | inl message => (LoopThrew message, frameResults, h)
            | inr body =>
                let h := trySetItem key
                  (from_option JSON_stringify_frame "null"%string body) h in
                keyframesLoop params totalFrames (S i) rest'
                  (frameResults ++ option_list body) h
            end
        end
  end.

(** Which [return] of [track] the run took; a failed run had the frame
    results [gathered] in scope when it was caught. *)
Inductive TrackExit :=
| LoadedFromCache (cached : ActorTrackingResult)
| Aborted
| Completed (result : ActorTrackingResult)
| Failed (message : string) (gathered : list ActorDetectionResult).

(** Lines 91-201: the run after the session cache check. *)
Definition runTracking `{MathLib} `{Browser} (params : TrackParams)
    (keyframes : list Q) (h : Hook) : TrackExit * Hook :=
  let totalFrames := length keyframes in
  match keyframesLoop params totalFrames 0 keyframes [] h with
  | (LoopAborted, _, h) => (Aborted, setIsTracking false h)
  | (LoopThrew message, frameResults, h) =>
      let h := setError (Some message) h in
      let h := setProgress (Some
        {| currentFrame := length frameResults; totalFrames := totalFrames;
           status := st_error; message := message |}) h in
      (Failed message frameResults, setIsTracking false h)
  | (LoopFinished, frameResults, h) =>
      if abortRequested totalFrames then
        (Aborted, setIsTracking false (setProgress None (setIsTracking false h)))
      else
        let h := setProgress (Some
          {| currentFrame := totalFrames; totalFrames := totalFrames;
             status := st_matching; message := "Matching actors across frames..." |}) h in
        let result := buildTracks frameResults (p_eventId params) in
        let h := setTrackingResult (Some result) h in
        let h := trySetItem (trackingCacheKey (p_eventId params))
                   (JSON_stringify_session result) h in
        let n := length (tracks result) in
        let h := setProgress (Some
          {| currentFrame := totalFrames; totalFrames := totalFrames; status := st_done;
             message := "Tracked " +:+ pretty n +:+ " actor"
                        +:+ (if (n =? 1)%nat then "" else "s")
                        +:+ " across " +:+ pretty totalFrames +:+ " frames" |}) h in
        (Completed result, setIsTracking false h)
  end.

(** [track(params)] (lines 56-202). *)
Definition track `{MathLib} `{Browser} (params : TrackParams) (h : Hook)
  : TrackExit * Hook :=
  let h := setIsTracking true h in
  let h := setError None h in
  let h := setProgress None h in
  let h := setLastEventId (Some (p_eventId params)) h in
  let keyframes := computeKeyframes (p_videoDuration params) in
  match cachedSession (p_eventId params) keyframes h with
  | Some cached =>
      let h := setTrackingResult (Some cached) h in
      let h := setProgress (Some
        {| currentFrame := length (keyframeTimestamps cached);
           totalFrames := length (keyframeTimestamps cached);
           status := st_done; message := "Loaded from cache" |}) h in
      (LoadedFromCache cached, setIsTracking false h)
  | None => runTracking params keyframes (dropStaleSession (p_eventId params) h)
  end.

(* ================================================================= *)
(** ** Auxiliary definitions for the proofs *)

(** The elements of a list whose index satisfies [P], in order; [selectFrom]
    counts the indices from [i]. *)
Fixpoint selectFrom {A} (P : nat → bool) (i : nat) (l : list A) : list A :=
  match l with
  | [] => []
  | x :: l' => if P i then x :: selectFrom P (S i) l' else selectFrom P (S i) l'
  end.

Definition selectIdx {A} (P : nat → bool) (l : list A) : list A := selectFrom P 0 l.

(** All tracks a builder holds. *)
Definition builderTracks (b : Builder) : list OpenTrack :=
  closedTracks b ++ openTracks b.

(** The observations of a list of tracks, end to end. *)
Definition allObservations (l : list OpenTrack) : list ActorObservation :=
  mjoin (ot_observations <$> l).

(** The observations of the detections of a list of frames, end to end. *)
Definition frameObservationList (frames : list ActorDetectionResult)
  : list ActorObservation :=
  mjoin ((λ f, observationOf f <$> actors f) <$> frames).

(** The builder before the frame at position [k] of the sorted frames. *)
Definition builderBefore `{MathLib} (frameResults : list ActorDetectionResult) (k : nat)
  : Builder :=
  fold_left processFrame (take k (sortFrames frameResults)) initialBuilder.

(** The candidates of a frame in the order the greedy loop walks them. *)
Definition frameCandidates `{MathLib} (b : Builder) (frame : ActorDetectionResult)
  : list Candidate :=
  sortCandidates (buildCandidates (openTracks b) (frameObservations frame)).

(** The greedy loop of a frame after its first [j] candidates. *)
Definition matchingAfter `{MathLib} (b : Builder) (frame : ActorDetectionResult) (j : nat)
  : Matching :=
  greedyAssign (frameObservations frame) (openTracks b) (take j (frameCandidates b frame)).

(** The tracks the loop of lines 125-135 starts. *)
Fixpoint freshTracks (usedObs : gset nat) (oi : nat)
    (rest : list (DetectedActor * ActorObservation)) (nextId : nat) : list OpenTrack :=
  match rest with
  | [] => []
  | (actor, obs) :: rest' =>
      if bool_decide (oi ∈ usedObs) then freshTracks usedObs (S oi) rest' nextId
      else newTrack nextId actor obs :: freshTracks usedObs (S oi) rest' (S nextId)
  end.

(** A candidate pairs a track and a detection that pass both gates. *)
Definition validCandidate `{MathLib} (open0 : list OpenTrack)
    (obsList : list (DetectedActor * ActorObservation)) (c : Candidate) : Prop :=
  ∃ track actor obs,
    open0 !! trackIdx c = Some track ∧
    obsList !! obsIdx c = Some (actor, obs) ∧
    actor_type actor = ot_type track ∧
    JS.ltb MAX_MATCH_DISTANCE_M (trackDistance track obs) = false.

(** What the greedy loop keeps true of its state, from the open tracks
    [open0] and the observations [obsList] of the frame. *)
Record GreedyInv `{MathLib} (open0 : list OpenTrack)
    (obsList : list (DetectedActor * ActorObservation)) (m : Matching) : Prop := {
  gi_length : length (m_openTracks m) = length open0;
  gi_unmatched : ∀ i, i ∉ matched m → m_openTracks m !! i = open0 !! i;
  gi_matched : ∀ i, i ∈ matched m →
    ∃ oi track actor obs,
      open0 !! i = Some track ∧
      obsList !! oi = Some (actor, obs) ∧
      oi ∈ usedObs m ∧
      actor_type actor = ot_type track ∧
      JS.ltb MAX_MATCH_DISTANCE_M (trackDistance track obs) = false ∧
      m_openTracks m !! i = Some (appendObservation obs track);
  gi_used : ∀ oi, oi ∈ usedObs m → (oi < length obsList)%nat;
  gi_obs :
    allObservations (m_openTracks m) ≡ₚ
    allObservations open0 ++ (selectIdx (λ i, bool_decide (i ∈ usedObs m)) obsList).*2;
}.

(** The distance between two observations. *)
Definition obsDistance `{MathLib} (o1 o2 : ActorObservation) : Q :=
  haversineDistance
    (lat (obs_worldPosition o1)) (lon (obs_worldPosition o1))
    (lat (obs_worldPosition o2)) (lon (obs_worldPosition o2)).

(** What the main loop keeps true of every track it holds, after the frames
    [fs]: the last observation is the last of the list; every observation is
    the one of a detection of the type of the track, in a frame of [fs];
    two observations in a row passed the distance gate. *)
Record TrackOK `{MathLib} (fs : list ActorDetectionResult) (tr : OpenTrack) : Prop := {
  tk_last : last (ot_observations tr) = Some (ot_lastObservation tr);
  tk_source : ∀ o, o ∈ ot_observations tr →
    ∃ f a, f ∈ fs ∧ a ∈ actors f ∧ o = observationOf f a ∧ actor_type a = ot_type tr;
  tk_near : ∀ k o1 o2,
    ot_observations tr !! k = Some o1 → ot_observations tr !! S k = Some o2 →
    JS.ltb MAX_MATCH_DISTANCE_M (obsDistance o1 o2) = false;
}.

(** The identifiers of the tracks of a builder are those handed out so far,
    each once. *)
Record IdsOK (b : Builder) : Prop := {
  ids_nodup : NoDup (ot_trackId <$> builderTracks b);
  ids_range : ∀ tr, tr ∈ builderTracks b →
    ∃ k, (1 ≤ k < nextId b)%nat ∧ ot_trackId tr = "track-" +:+ pretty k;
  ids_next : (1 ≤ nextId b)%nat;
}.

(** The timestamps of a list of frames are pairwise distinct numbers. *)
Definition distinctTimestamps (frames : list ActorDetectionResult) : Prop :=
  ∀ i j f g, (i < j)%nat → frames !! i = Some f → frames !! j = Some g →
    ¬ timestamp f == timestamp g.

(** A list of numbers is strictly increasing. *)
Definition strictlyIncreasing (l : list Q) : Prop := StronglySorted Qlt l.

(* ================================================================= *)
(** ** Concrete inputs *)

(** A rational implementation of the [Math] functions, to run the model on
    concrete inputs: truncated Taylor series, exact at [0], and the integer
    square root of a scaled argument, exact at [0] and [1]. *)
Definition approx_sqrt (q : Q) : Q :=
  Qred (Z.sqrt (Qnum q * Zpos (Qden q) * 10 ^ 24) # (Qden q * 10 ^ 12)).

Definition approx_atan (x : Q) : Q := x - x ^ 3 / 3 + x ^ 5 / 5.

Definition approx_PI : Q := 3141592653589793 # 1000000000000000.

Definition approx_atan2 (y x : Q) : Q :=
  if JS.ltb 0 x then approx_atan (y / x)
  else if JS.ltb x 0 then
    (if JS.ltb y 0 then approx_atan (y / x) - approx_PI else approx_atan (y / x) + approx_PI)
  else if JS.ltb 0 y then approx_PI / 2
  else if JS.ltb y 0 then - (approx_PI / 2)
  else 0.

Definition ApproxMath : MathLib := {|
  Math_PI := approx_PI;
  Math_sin x := x - x ^ 3 / 6 + x ^ 5 / 120;
  Math_cos x := 1 - x ^ 2 / 2 + x ^ 4 / 24;
  Math_tan x := x + x ^ 3 / 3 + 2 * x ^ 5 / 15;
  Math_asin x := x + x ^ 3 / 6 + 3 * x ^ 5 / 40;
  Math_atan := approx_atan;
  Math_atan2 := approx_atan2;
  Math_sqrt := approx_sqrt;
|}.

Definition sampleBBox : BBox :=
  {| x_min := 600; y_min := 300; x_max := 680; y_max := 360 |}.

(** A detection of type [ty], labelled [lbl], at latitude and longitude 0. *)
Definition sampleActor (ty lbl : string) : DetectedActor :=
  {| actor_type := ty;
     actor_label := lbl;
     actor_confidence := high;
     actor_bbox := sampleBBox;
     actor_estimatedDistanceMeters := 10;
     actor_moving := None;
     actor_description := "";
     actor_worldPosition := {| lat := 0; lon := 0 |};
     actor_bearingFromCamera := 0 |}.

Definition sampleFrame (t : Q) (l : list DetectedActor) : ActorDetectionResult :=
  {| actors := l;
     timestamp := t;
     cameraPosition := {| lat := 0; lon := 0 |};
     cameraBearing := 0;
     fovDegrees := 142;
     detectedAt := "" |}.

(** A car seen in three frames in a row and a pedestrian seen in the second
    one only. *)
Definition overtakenFrames : list ActorDetectionResult :=
  [ sampleFrame (1 # 2) [sampleActor "car" "red sedan"];
    sampleFrame (3 # 2) [sampleActor "car" "red sedan";
                          sampleActor "pedestrian" "person crossing"];
    sampleFrame (5 # 2) [sampleActor "car" "red sedan"] ].

(** Two frames with the same timestamp, a car at the same place in both. *)
Definition repeatedFrames : list ActorDetectionResult :=
  [ sampleFrame (1 # 2) [sampleActor "car" "red sedan"];
    sampleFrame (1 # 2) [sampleActor "car" "red sedan"] ].

(** A detection in the first and in the third of three frames, none in the
    second. *)
Definition gapFrames (first third : DetectedActor) : list ActorDetectionResult :=
  [ sampleFrame (1 # 2) [first];
    sampleFrame (3 # 2) [];
    sampleFrame (5 # 2) [third] ].

(** The hook once [track] has reset its state (lines 59-63). *)
Definition startedHook (params : TrackParams) (h : Hook) : Hook :=
  setLastEventId (Some (p_eventId params))
    (setProgress None (setError None (setIsTracking true h))).

(** A detection request fails when [fetch] rejects or the response is not
    ok. *)
Definition requestFails (o : FetchOutcome) : Prop :=
  (∃ message, o = FetchRejected message) ∨ (∃ status data, o = ResponseNotOk status data).

(** [t.toFixed(1)] for a number that is not negative. *)
Definition toFixed1 (t : Q) : string :=
  let z := Qfloor (t * 10 + (1 # 2)) in
  pretty (z / 10)%Z +:+ "." +:+ pretty (z mod 10)%Z.

(** A session with [n] keyframe timestamps, all zero, and nothing else. *)
Definition sampleSession (n : nat) : ActorTrackingResult :=
  {| tracks := []; keyframeTimestamps := replicate n 0; frameResults := [];
     eventId := "event" |}.

(** A browser for concrete runs: the storage never fills up, nobody aborts,
    the strings ["session-5"] and ["session-6"] parse as sessions of five
    and of six keyframes, no string parses as a frame result, and the
    detection service answers for the timestamps below one second and fails
    with status 500 from there on. *)
Definition ToyBrowser : Browser := {|
  JSON_parse_session s :=
    if String.eqb s "session-5" then Some (sampleSession 5)
    else if String.eqb s "session-6" then Some (sampleSession 6)
    else None;
  JSON_parse_frame _ := None;
  JSON_stringify_session _ := "session";
  JSON_stringify_frame _ := "frame";
  Number_toFixed1 := toFixed1;
  Number_toString := toFixed1;
  fetchDetectActors req :=
    if JS.ltb (req_timestamp req) 1
    then ResponseOk (inr (Some (sampleFrame (req_timestamp req)
                                  [sampleActor "car" "red sedan"])))
    else ResponseNotOk 500 (inr (Some "Claude API error: overloaded"%string));
  storageFull _ _ _ := false;
  abortRequested _ := false;
|}.

Definition sampleParams (duration : Q) : TrackParams :=
  {| p_eventId := "event";
     p_videoUrl := "https://example.test/video.mp4";
     p_videoDuration := duration;
     p_fovDegrees := 142;
     p_cameraIntrinsics := None;
     p_getCameraState _ := {| cam_lat := 0; cam_lon := 0; cam_bearing := 0 |} |}.

(** A hook at rest whose storage holds [stored] as the session of the
    event ["event"]. *)
Definition hookWithSession (stored : string) : Hook :=
  {| trackingResult := None; isTracking := false; progress := None; error := None;
     lastEventIdRef := None;
     localStorage := {[ trackingCacheKey "event" := stored ]};
     requests := [] |}.

Definition emptyHook : Hook :=
  {| trackingResult := None; isTracking := false; progress := None; error := None;
     lastEventIdRef := None; localStorage := ∅; requests := [] |}.

(* ================================================================= *)
(** ** Further definitions *)

(** The set of words of a label, as [labelSimilarity] builds it. *)
Definition labelWords (s : string) : gset string :=
  list_to_set (JS.split_spaces (JS.toLowerCase s)).

(* ================================================================= *)
(** ** Bearings and the camera state
       ([src/lib/geo-projection.ts], [src/app/event/[id]/page.tsx]) *)

(** The constant [bearing] of [calculateBearing] (lines 18-23 of
    [geo-projection.ts]): the angle of [Math.atan2], in degrees. *)
Definition rawBearing `{MathLib} (lat1 lon1 lat2 lon2 : Q) : Q :=
  let dLon := toRad (lon2 - lon1) in
  let y := Math_sin dLon * Math_cos (toRad lat2) in
  let x :=
    Math_cos (toRad lat1) * Math_sin (toRad lat2) -
    Math_sin (toRad lat1) * Math_cos (toRad lat2) * Math_cos dLon in
  toDeg (Math_atan2 y x).

(** [calculateBearing] (lines 12-25). *)
Definition calculateBearing `{MathLib} (lat1 lon1 lat2 lon2 : Q) : Q :=
  let bearing := rawBearing lat1 lon1 lat2 lon2 in
  JS.rem (bearing + 360) 360.

(** The fields of a GNSS point that the code reads. *)
Record GnssDataPoint := { gnss_lat : Q; gnss_lon : Q; gnss_timestamp : Q }.

(** What [getCameraState] reads of the event. *)
Record EventView := {
  ev_location : LatLon;
  ev_gnssData : option (list GnssDataPoint);
}.

(** The search loop of lines 231-238 from index [i] on; [rest] holds the
    points from index [i + 1] on, so the loop runs while [rest] is not
    empty. *)
Fixpoint findLowerIndex (rest : list GnssDataPoint) (gnssTime : Q) (i lowerIndex : nat)
  : nat :=
  match rest with
  | [] => lowerIndex
  | next :: rest' =>
      if negb (JS.ltb (gnss_timestamp next) gnssTime) then i
      else findLowerIndex rest' gnssTime (S i) i
  end.

(** [event?.location.lat ?? 0] and the like (line 219). *)
Definition fallbackCameraState (event : option EventView) : CameraState :=
  {| cam_lat := from_option (λ e, lat (ev_location e)) 0 event;
     cam_lon := from_option (λ e, lon (ev_location e)) 0 event;
     cam_bearing := 0 |}.

(** [gnssStart + progress * (gnssEnd - gnssStart)] (lines 224-227). *)
Definition gnssTimeOf (gnssStart gnssEnd videoDuration timestamp : Q) : Q :=
  let progress := JS.Math_max 0 (JS.Math_min 1 (timestamp / videoDuration)) in
  gnssStart + progress * (gnssEnd - gnssStart).

(** [getCameraState] (lines 217-256 of the event page).  Reading a field of
    an array element that does not exist throws; [None] stands for that. *)
Definition getCameraState `{MathLib} (event : option EventView) (videoDuration : Q)
    (timestamp : Q) : option CameraState :=
  match event ≫= ev_gnssData with
  | None => Some (fallbackCameraState event)
  | Some gnss =>
      if (length gnss <? 2)%nat || Qeq_bool videoDuration 0 || Qle_bool videoDuration 0
      then Some (fallbackCameraState event)
      else
        first ← gnss !! 0%nat;
        final ← gnss !! (length gnss - 1)%nat;
        let gnssTime :=
          gnssTimeOf (gnss_timestamp first) (gnss_timestamp final) videoDuration timestamp in
        let lowerIndex := findLowerIndex (tail gnss) gnssTime 0 0 in
        let upperIndex := Nat.min (lowerIndex + 1) (length gnss - 1) in
        p1 ← gnss !! lowerIndex;
        p2 ← gnss !! upperIndex;
        let segmentDuration := gnss_timestamp p2 - gnss_timestamp p1 in
        let t :=
          if JS.ltb 0 segmentDuration
          then (gnssTime - gnss_timestamp p1) / segmentDuration else 0 in
        let lookAhead := 3%nat in
        let endIndex := Nat.min (lowerIndex + lookAhead) (length gnss - 1) in
        bearing ←
          (if (lowerIndex <? endIndex)%nat then
             pEnd ← gnss !! endIndex;
             Some (calculateBearing (gnss_lat p1) (gnss_lon p1) (gnss_lat pEnd) (gnss_lon pEnd))
           else
             pPrev ← gnss !! Nat.max 0 (lowerIndex - 1);
             Some (calculateBearing (gnss_lat pPrev) (gnss_lon pPrev)
                     (gnss_lat p1) (gnss_lon p1)));
        Some {| cam_lat := gnss_lat p1 + (gnss_lat p2 - gnss_lat p1) * t;
                cam_lon := gnss_lon p1 + (gnss_lon p2 - gnss_lon p1) * t;
                cam_bearing := bearing |}
  end.

(* ================================================================= *)
(** ** Speed from the GNSS path ([deriveSpeedFromGnss]) *)




(** A GNSS path to run the model on: three points, one second apart. *)
Definition samplePath : list GnssDataPoint :=
  [ {| gnss_lat := 10; gnss_lon := 20; gnss_timestamp := 1000 |};
    {| gnss_lat := 12; gnss_lon := 20; gnss_timestamp := 2000 |};
    {| gnss_lat := 12; gnss_lon := 24; gnss_timestamp := 3000 |} ].

Definition sampleEvent : EventView :=
  {| ev_location := {| lat := 10; lon := 20 |}; ev_gnssData := Some samplePath |}.

(* ================================================================= *)
(** ** Clearing the tracker ([clear] of the tracking hook) *)

(** [clear()] (lines 204-217).  Its write to [abortRef] reaches a run in
    flight through [abortRequested]; the other writes are these.  An empty
    event identifier is falsy, so nothing is removed for it. *)
Definition clear (h : Hook) : Hook :=
  let h :=
    match lastEventIdRef h with
    | Some e =>
        if String.eqb e "" then h
        else setLocalStorage (delete (trackingCacheKey e) (localStorage h)) h
    | None => h
    end in
  setError None (setProgress None (setTrackingResult None h)).

(** The result of tracking the one frame that [EchoBrowser] answers with
    for a video of one second. *)
Definition echoResult : ActorTrackingResult :=
  @buildTracks ApproxMath [sampleFrame (5 # 10) [sampleActor "car" "red sedan"]] "event".

(** A browser whose detection service always answers, with one car, and
    whose session string parses back to [echoResult]; [abortAt] is the first
    check at which [abortRef] is set, if any. *)
Definition EchoBrowser (abortAt : option nat) : Browser := {|
  JSON_parse_session s := if String.eqb s "session" then Some echoResult else None;
  JSON_parse_frame _ := None;
  JSON_stringify_session _ := "session";
  JSON_stringify_frame _ := "frame";
  Number_toFixed1 := toFixed1;
  Number_toString := toFixed1;
  fetchDetectActors req :=
    ResponseOk (inr (Some (sampleFrame (req_timestamp req) [sampleActor "car" "red sedan"])));
  storageFull _ _ _ := false;
  abortRequested i := from_option (λ k, (k <=? i)%nat) false abortAt;
|}.

(* ================================================================= *)
(** ** Numbers and sorting *)

Lemma ltb_lt (a b : Q) : JS.ltb a b = true ↔ a < b.
Proof.
  unfold JS.ltb. rewrite Qlt_alt. destruct (a ?= b); intuition congruence.
Qed.

Lemma ltb_ge (a b : Q) : JS.ltb a b = false ↔ b <= a.
Proof.
  rewrite <- not_true_iff_false, ltb_lt. split.
  - apply Qnot_lt_le.
  - intros Hle Hlt. exact (Qle_not_lt _ _ Hle Hlt).
Qed.

Section SortFacts.
Context {A : Type}.

Lemma sort_insert_perm (cmp : A → A → Q) x l : JS.sort_insert cmp x l ≡ₚ x :: l.
Proof.
  induction l as [|y l IH]; simpl; [done|].
  destruct (JS.ltb 0 (cmp x y)); [|done].
  rewrite IH. apply Permutation_swap.
Qed.

Lemma Array_sort_perm (cmp : A → A → Q) l : JS.Array_sort cmp l ≡ₚ l.
Proof.
  induction l as [|x l IH]; simpl; [done|].
  rewrite sort_insert_perm. by rewrite IH.
Qed.

Lemma Array_sort_elem_of (cmp : A → A → Q) l x : x ∈ JS.Array_sort cmp l ↔ x ∈ l.
Proof. by rewrite Array_sort_perm. Qed.

Lemma Array_sort_length (cmp : A → A → Q) l : length (JS.Array_sort cmp l) = length l.
Proof. by rewrite Array_sort_perm. Qed.

Context (key : A → Q).

Lemma sort_insert_sorted x l :
  StronglySorted (λ a b, key a <= key b) l →
  StronglySorted (λ a b, key a <= key b) (JS.sort_insert (λ a b, key a - key b) x l).
Proof.
  induction l as [|y l IH]; simpl; intros Hs.
  - repeat constructor.
  - apply StronglySorted_cons in Hs as [Hy Hs].
    destruct (JS.ltb 0 (key x - key y)) eqn:Hc.
    + apply ltb_lt in Hc.
      apply StronglySorted_cons. split; [|by apply IH].
      rewrite sort_insert_perm. constructor; [lra|done].
    + apply ltb_ge in Hc.
      apply StronglySorted_cons. split; [|by apply StronglySorted_cons].
      constructor; [lra|].
      eapply Forall_impl; [exact Hy|]. intros z Hz. simpl in Hz. lra.
Qed.

Lemma Array_sort_sorted l :
  StronglySorted (λ a b, key a <= key b) (JS.Array_sort (λ a b, key a - key b) l).
Proof.
  induction l as [|x l IH]; simpl; [constructor|]. by apply sort_insert_sorted.
Qed.

End SortFacts.

(* ================================================================= *)
(** ** Selecting the elements of a list by index *)

Section SelectIdx.
Context {A : Type}.
Implicit Types (P : nat → bool) (l : list A).

Lemma selectFrom_shift P i l : selectFrom P (S i) l = selectFrom (λ j, P (S j)) i l.
Proof.
  revert i. induction l as [|x l IH]; intros i; simpl; [done|]. by rewrite IH.
Qed.

Lemma selectFrom_snoc P i l x :
  selectFrom P i (l ++ [x]) =
  selectFrom P i l ++ (if P (i + length l)%nat then [x] else []).
Proof.
  revert i. induction l as [|y l IH]; intros i; simpl.
  - rewrite Nat.add_0_r. by destruct (P i).
  - rewrite IH, Nat.add_succ_r. by destruct (P i).
Qed.

Lemma selectIdx_snoc P l x :
  selectIdx P (l ++ [x]) = selectIdx P l ++ (if P (length l) then [x] else []).
Proof. apply selectFrom_snoc. Qed.

Lemma selectIdx_cons P x l :
  selectIdx P (x :: l) = (if P 0%nat then [x] else []) ++ selectIdx (λ i, P (S i)) l.
Proof.
  unfold selectIdx. simpl. rewrite selectFrom_shift. by destruct (P 0%nat).
Qed.

Lemma elem_of_selectIdx P l x :
  x ∈ selectIdx P l ↔ ∃ i, l !! i = Some x ∧ P i = true.
Proof.
  revert P. induction l as [|y l IH]; intros P.
  - split; [by intros ?%elem_of_nil|]. by intros (i & Hi & _).
  - rewrite selectIdx_cons, elem_of_app, IH. split.
    + intros [Hx|(i & Hi & HP)].
      * destruct (P 0%nat) eqn:HP; [|by apply elem_of_nil in Hx].
        apply list_elem_of_singleton in Hx as ->. by exists 0%nat.
      * by exists (S i).
    + intros ([|i] & Hi & HP); simpl in Hi.
      * inversion Hi; subst. left. rewrite HP. by apply list_elem_of_singleton.
      * right. eauto.
Qed.

Lemma selectIdx_partition P l :
  selectIdx P l ++ selectIdx (λ i, negb (P i)) l ≡ₚ l.
Proof.
  induction l as [|x l IH] using rev_ind; [done|].
  rewrite !selectIdx_snoc. destruct (P (length l)); simpl.
  - rewrite app_nil_r. rewrite <- IH at 3.
    rewrite <- !(assoc_L (++)). f_equiv. apply Permutation_app_comm.
  - rewrite app_nil_r. rewrite <- IH at 3. by rewrite (assoc_L (++)).
Qed.

Lemma selectIdx_ext P Q l :
  (∀ i, (i < length l)%nat → P i = Q i) → selectIdx P l = selectIdx Q l.
Proof.
  revert P Q. induction l as [|x l IH]; intros P Q HPQ; [done|].
  rewrite !selectIdx_cons. rewrite (HPQ 0%nat) by (simpl; lia). f_equal.
  apply IH. intros i Hi. apply HPQ. simpl. lia.
Qed.

Lemma selectIdx_add P l k x :
  l !! k = Some x → P k = false →
  selectIdx (λ i, bool_decide (i = k) || P i) l ≡ₚ x :: selectIdx P l.
Proof.
  revert P k. induction l as [|y l IH]; intros P k Hk HP; [done|].
  rewrite !selectIdx_cons. destruct k as [|k]; simpl in *.
  - inversion Hk; subst. rewrite HP. done.
  - rewrite (selectIdx_ext _ (λ i, bool_decide (i = k) || P (S i))).
    + rewrite (IH (λ i, P (S i)) k) by done.
      destruct (P 0%nat); simpl; [apply Permutation_swap|done].
    + intros i _. f_equal. apply bool_decide_ext. lia.
Qed.

End SelectIdx.

Lemma selectIdx_fmap {A B} (f : A → B) (P : nat → bool) (l : list A) :
  f <$> selectIdx P l = selectIdx P (f <$> l).
Proof.
  induction l as [|x l IH] using rev_ind; [done|].
  rewrite fmap_app. simpl. rewrite !selectIdx_snoc, fmap_app, IH, length_fmap.
  by destruct (P (length l)).
Qed.

(* ================================================================= *)
(** ** The loops that close and that start tracks *)

Lemma closeUnmatched_spec (M : gset nat) n (open closed : list OpenTrack) :
  (n ≤ length open)%nat →
  closeUnmatched M n open closed =
    (selectIdx (λ i, bool_decide (i ∈ M)) (take n open) ++ drop n open,
     closed ++ reverse (selectIdx (λ i, negb (bool_decide (i ∈ M))) (take n open))).
Proof.
  revert open closed. induction n as [|ti IH]; intros open closed Hn; simpl.
  - rewrite take_0, drop_0. unfold selectIdx. simpl. by rewrite app_nil_r.
  - destruct (lookup_lt_is_Some_2 open ti) as [x Hx]; [lia|].
    rewrite (take_S_r _ _ _ Hx), !selectIdx_snoc.
    rewrite length_take_le by lia.
    destruct (bool_decide (ti ∈ M)) eqn:HM; simpl.
    + rewrite IH by lia. rewrite app_nil_r.
      rewrite <- (assoc_L (++)). simpl. by rewrite <- (drop_S _ _ _ Hx).
    + rewrite Hx. rewrite IH by (rewrite length_delete by eauto; lia).
      assert (Ht : take ti (delete ti open) = take ti open).
      { apply list_eq. intros i. destruct (decide (i < ti)%nat).
        - rewrite !lookup_take_lt by done. by rewrite list_lookup_delete_lt.
        - by rewrite !lookup_take_ge by lia. }
      assert (Hd : drop ti (delete ti open) = drop (S ti) open).
      { apply list_eq. intros i. rewrite !lookup_drop.
        rewrite list_lookup_delete_ge by lia. f_equal. }
      rewrite Ht, Hd, app_nil_r, reverse_app. simpl.
      by rewrite <- (assoc_L (++)).
Qed.

Lemma startTracks_spec (U : gset nat) oi rest open nid :
  startTracks U oi rest open nid =
    (open ++ freshTracks U oi rest nid, (nid + length (freshTracks U oi rest nid))%nat).
Proof.
  revert oi open nid. induction rest as [|[actor obs] rest IH]; intros oi open nid; simpl.
  - by rewrite app_nil_r, Nat.add_0_r.
  - destruct (bool_decide (oi ∈ U)); [apply IH|].
    rewrite IH. simpl. rewrite <- (assoc_L (++)). simpl. f_equal. lia.
Qed.

Lemma freshTracks_observations (U : gset nat) oi rest nid :
  allObservations (freshTracks U oi rest nid) =
  (selectIdx (λ i, negb (bool_decide ((oi + i)%nat ∈ U))) rest).*2.
Proof.
  revert oi nid. induction rest as [|[actor obs] rest IH]; intros oi nid; [done|].
  simpl. rewrite selectIdx_cons, Nat.add_0_r.
  assert (He : selectIdx (λ i, negb (bool_decide ((oi + S i)%nat ∈ U))) rest
             = selectIdx (λ i, negb (bool_decide ((S oi + i)%nat ∈ U))) rest).
  { apply selectIdx_ext. intros i _. by rewrite Nat.add_succ_r. }
  destruct (bool_decide (oi ∈ U)); simpl.
  - by rewrite IH, He.
  - unfold allObservations in *. simpl. by rewrite IH, He.
Qed.

(* ================================================================= *)
(** ** The candidates and the greedy loop *)

Section Greedy.
Context `{MathLib}.

Lemma candidateOf_valid (open0 : list OpenTrack)
    (obsList : list (DetectedActor * ActorObservation)) ti track oi ao c :
  open0 !! ti = Some track → obsList !! oi = Some ao →
  c ∈ candidateOf ti track oi ao → validCandidate open0 obsList c.
Proof.
  intros Ht Ho. unfold candidateOf. destruct ao as [actor obs].
  destruct (String.eqb (actor_type actor) (ot_type track)) eqn:Hty; simpl;
    [|by intros ?%elem_of_nil].
  destruct (JS.ltb MAX_MATCH_DISTANCE_M (trackDistance track obs)) eqn:Hd;
    [by intros ?%elem_of_nil|].
  intros ->%list_elem_of_singleton. exists track, actor, obs. simpl.
  apply String.eqb_eq in Hty. done.
Qed.

Lemma buildCandidates_valid (open0 : list OpenTrack)
    (obsList : list (DetectedActor * ActorObservation)) :
  Forall (validCandidate open0 obsList) (buildCandidates open0 obsList).
Proof.
  apply Forall_forall. intros c Hc. unfold buildCandidates in Hc.
  apply list_elem_of_join in Hc as (l1 & Hc & Hl1).
  apply elem_of_lookup_imap in Hl1 as (ti & track & -> & Ht).
  apply list_elem_of_join in Hc as (l2 & Hc & Hl2).
  apply elem_of_lookup_imap in Hl2 as (oi & ao & -> & Ho).
  eauto using candidateOf_valid.
Qed.

Lemma frameCandidates_valid b frame :
  Forall (validCandidate (openTracks b) (frameObservations frame)) (frameCandidates b frame).
Proof.
  unfold frameCandidates, sortCandidates. rewrite Array_sort_perm.
  apply buildCandidates_valid.
Qed.

Lemma allObservations_alter obs i (l : list OpenTrack) :
  (i < length l)%nat →
  allObservations (alter (appendObservation obs) i l) ≡ₚ obs :: allObservations l.
Proof.
  revert i. induction l as [|t l IH]; intros i Hi; simpl in *; [lia|].
  unfold allObservations in *. destruct i as [|i]; simpl.
  - rewrite <- (assoc_L (++)). simpl. symmetry. apply Permutation_middle.
  - etrans; [apply Permutation_app_head, (IH i); lia|].
    symmetry. apply Permutation_middle.
Qed.

Lemma greedy_init (open0 : list OpenTrack)
    (obsList : list (DetectedActor * ActorObservation)) :
  GreedyInv open0 obsList {| matched := ∅; usedObs := ∅; m_openTracks := open0 |}.
Proof.
  split; simpl; try done.
  rewrite (selectIdx_ext _ (λ _, false)).
    + assert (Hnil : ∀ l : list (DetectedActor * ActorObservation),
                selectIdx (λ _, false) l = []).
      { induction l as [|x l IH] using rev_ind; [done|].
        by rewrite selectIdx_snoc, IH. }
      by rewrite Hnil, app_nil_r.
    + intros i _. done.
Qed.

Lemma assignCandidate_inv (open0 : list OpenTrack)
    (obsList : list (DetectedActor * ActorObservation)) m c :
  GreedyInv open0 obsList m → validCandidate open0 obsList c →
  GreedyInv open0 obsList (assignCandidate obsList m c).
Proof.
  intros Hinv (track & actor & obs & Ht & Ho & Hty & Hd).
  unfold assignCandidate.
  destruct (bool_decide (trackIdx c ∈ matched m)) eqn:Hm; [done|].
  destruct (bool_decide (obsIdx c ∈ usedObs m)) eqn:Hu; [done|]. simpl.
  apply bool_decide_eq_false in Hm, Hu. rewrite Ho.
  destruct Hinv as [Hlen Hun Hma Hus Hobs].
  assert (Hti : (trackIdx c < length (m_openTracks m))%nat).
  { rewrite Hlen. by eapply lookup_lt_Some. }
  split; simpl.
  - by rewrite length_alter.
  - intros i Hi. apply not_elem_of_union in Hi as [Hi1%not_elem_of_singleton Hi2].
    rewrite list_lookup_alter_ne by done. by apply Hun.
  - intros i Hi. destruct (decide (i = trackIdx c)) as [->|Hne].
    + exists (obsIdx c), track, actor, obs.
      repeat split; try done; [apply elem_of_union_l; by apply elem_of_singleton|].
      rewrite list_lookup_alter_eq, Hun, Ht by done. done.
    + apply elem_of_union in Hi as [Hi%elem_of_singleton|Hi]; [done|].
      destruct (Hma i Hi) as (oi & tr & a & o & ? & ? & ? & ? & ? & ?).
      exists oi, tr, a, o. repeat split; try done; [by apply elem_of_union_r|].
      by rewrite list_lookup_alter_ne.
  - intros oi Hoi. apply elem_of_union in Hoi as [->%elem_of_singleton|?]; [|by apply Hus].
    by eapply lookup_lt_Some.
  - rewrite allObservations_alter by done. rewrite Hobs.
    rewrite (selectIdx_ext (λ i, bool_decide (i ∈ {[obsIdx c]} ∪ usedObs m))
      (λ i, bool_decide (i = obsIdx c) || bool_decide (i ∈ usedObs m))).
    + rewrite (selectIdx_add _ _ _ _ Ho) by (by apply bool_decide_eq_false).
      rewrite fmap_cons. simpl. apply Permutation_middle.
    + intros i _. destruct (decide (i = obsIdx c)) as [->|Hne].
      * rewrite (bool_decide_true (obsIdx c = _)) by done.
        by rewrite bool_decide_true by (apply elem_of_union_l; by apply elem_of_singleton).
      * rewrite (bool_decide_false (i = _)) by done. simpl.
        apply bool_decide_ext. rewrite elem_of_union, elem_of_singleton. tauto.
Qed.

Lemma fold_assign_inv (open0 : list OpenTrack)
    (obsList : list (DetectedActor * ActorObservation)) cs m :
  GreedyInv open0 obsList m → Forall (validCandidate open0 obsList) cs →
  GreedyInv open0 obsList (fold_left (assignCandidate obsList) cs m).
Proof.
  revert m. induction cs as [|c cs IH]; intros m Hinv Hcs; simpl; [done|].
  apply Forall_cons in Hcs as [Hc Hcs]. apply IH; [|done].
  by apply assignCandidate_inv.
Qed.

Lemma greedyAssign_inv (open0 : list OpenTrack)
    (obsList : list (DetectedActor * ActorObservation)) cs :
  Forall (validCandidate open0 obsList) cs →
  GreedyInv open0 obsList (greedyAssign obsList open0 cs).
Proof. intros. apply fold_assign_inv; [apply greedy_init|done]. Qed.

Lemma frameMatching_inv b frame :
  GreedyInv (openTracks b) (frameObservations frame) (frameMatching b frame).
Proof. apply greedyAssign_inv, frameCandidates_valid. Qed.

Lemma matchingAfter_inv b frame j :
  GreedyInv (openTracks b) (frameObservations frame) (matchingAfter b frame j).
Proof.
  apply greedyAssign_inv. apply Forall_take, frameCandidates_valid.
Qed.

End Greedy.

(* ================================================================= *)
(** ** One frame of the main loop *)

Section Frame.
Context `{MathLib}.

Lemma processFrame_spec b frame :
  let m := frameMatching b frame in
  let fresh := freshTracks (usedObs m) 0 (frameObservations frame) (nextId b) in
  processFrame b frame =
    {| openTracks :=
         selectIdx (λ i, bool_decide (i ∈ matched m)) (m_openTracks m) ++ fresh;
       closedTracks :=
         closedTracks b ++
         reverse (selectIdx (λ i, negb (bool_decide (i ∈ matched m))) (m_openTracks m));
       nextId := (nextId b + length fresh)%nat |}.
Proof.
  intros m fresh. unfold processFrame. fold m.
  rewrite closeUnmatched_spec by done.
  rewrite firstn_all, drop_all, app_nil_r.
  by rewrite startTracks_spec.
Qed.

Lemma frameObservations_lookup frame oi actor obs :
  frameObservations frame !! oi = Some (actor, obs) →
  actors frame !! oi = Some actor ∧ obs = observationOf frame actor.
Proof.
  unfold frameObservations. rewrite list_lookup_fmap.
  destruct (actors frame !! oi) as [a|]; simpl; [|done].
  intros [= <- <-]. done.
Qed.

Lemma freshTracks_elem_of (U : gset nat) oi rest nid tr :
  tr ∈ freshTracks U oi rest nid →
  ∃ j actor obs k,
    rest !! j = Some (actor, obs) ∧ ((oi + j)%nat ∉ U) ∧
    (nid ≤ k < nid + length (freshTracks U oi rest nid))%nat ∧
    tr = newTrack k actor obs.
Proof.
  revert oi nid. induction rest as [|[actor obs] rest IH]; intros oi nid; simpl.
  - by intros ?%elem_of_nil.
  - destruct (bool_decide (oi ∈ U)) eqn:HU.
    + intros Hin. apply IH in Hin as (j & a & o & k & ? & ? & ? & ?).
      exists (S j), a, o, k. rewrite Nat.add_succ_r. done.
    + apply bool_decide_eq_false in HU.
      intros [->|Hin]%elem_of_cons;
        [|apply IH in Hin as (j & a & o & k & ? & ? & ? & ?)].
      * exists 0%nat, actor, obs, nid. rewrite Nat.add_0_r. simpl.
        repeat split; try done; lia.
      * exists (S j), a, o, k. rewrite Nat.add_succ_r. simpl.
        repeat split; try done; lia.
Qed.

Lemma freshTracks_ids (U : gset nat) oi rest nid :
  ot_trackId <$> freshTracks U oi rest nid =
  (λ k, "track-" +:+ pretty k) <$> seq nid (length (freshTracks U oi rest nid)).
Proof.
  revert oi nid. induction rest as [|[actor obs] rest IH]; intros oi nid; simpl; [done|].
  destruct (bool_decide (oi ∈ U)); [apply IH|].
  simpl. by rewrite IH.
Qed.

(** The tracks that are open after a frame: a track that was open and
    received an observation of the frame through both gates, or a new
    track of one detection of the frame. *)
Lemma processFrame_open b frame tr :
  tr ∈ openTracks (processFrame b frame) →
  (∃ track actor,
      track ∈ openTracks b ∧ actor ∈ actors frame ∧
      actor_type actor = ot_type track ∧
      JS.ltb MAX_MATCH_DISTANCE_M (trackDistance track (observationOf frame actor)) = false ∧
      tr = appendObservation (observationOf frame actor) track)
  ∨ (∃ k actor,
      actor ∈ actors frame ∧
      (nextId b ≤ k < nextId (processFrame b frame))%nat ∧
      tr = newTrack k actor (observationOf frame actor)).
Proof.
  rewrite processFrame_spec. simpl.
  pose proof (frameMatching_inv b frame) as Hinv.
  intros [Hin|Hin]%elem_of_app.
  - left. apply elem_of_selectIdx in Hin as (i & Hi & HM).
    apply bool_decide_eq_true in HM.
    destruct (gi_matched _ _ _ Hinv i HM)
      as (oi & track & actor & obs & Ht & Ho & _ & Hty & Hd & Hm).
    apply frameObservations_lookup in Ho as [Ha ->].
    exists track, actor. rewrite Hi in Hm. inversion Hm; subst.
    repeat split; try done; by eapply list_elem_of_lookup_2.
  - right. apply freshTracks_elem_of in Hin as (j & actor & obs & k & Ho & _ & Hk & ->).
    apply frameObservations_lookup in Ho as [Ha ->].
    exists k, actor. repeat split; try done; try lia.
    by eapply list_elem_of_lookup_2.
Qed.

(** The tracks that are closed after a frame: those that were, and the open
    tracks the frame did not match, as they were. *)
Lemma processFrame_closed b frame tr :
  tr ∈ closedTracks (processFrame b frame) ↔
  tr ∈ closedTracks b ∨
  ∃ i, openTracks b !! i = Some tr ∧ i ∉ matched (frameMatching b frame).
Proof.
  rewrite processFrame_spec. simpl.
  pose proof (frameMatching_inv b frame) as Hinv.
  rewrite elem_of_app, elem_of_reverse, elem_of_selectIdx.
  split; (intros [?|(i & Hi & HM)]; [by left|right]); exists i.
  - apply negb_true_iff, bool_decide_eq_false in HM.
    by rewrite <- (gi_unmatched _ _ _ Hinv i HM).
  - rewrite (gi_unmatched _ _ _ Hinv i HM).
    split; [done|]. by apply negb_true_iff, bool_decide_eq_false.
Qed.

Lemma processFrame_closed_prefix b frame :
  closedTracks b `prefix_of` closedTracks (processFrame b frame).
Proof. rewrite processFrame_spec. simpl. by apply prefix_app_r. Qed.

Lemma frameMatching_ids b frame :
  ot_trackId <$> m_openTracks (frameMatching b frame) = ot_trackId <$> openTracks b.
Proof.
  pose proof (frameMatching_inv b frame) as Hinv.
  apply list_eq. intros i. rewrite !list_lookup_fmap.
  destruct (decide (i ∈ matched (frameMatching b frame))) as [HM|HM].
  - destruct (gi_matched _ _ _ Hinv i HM) as (? & ? & ? & ? & -> & _ & _ & _ & _ & ->).
    done.
  - by rewrite (gi_unmatched _ _ _ Hinv i HM).
Qed.

Lemma processFrame_ids b frame :
  ot_trackId <$> builderTracks (processFrame b frame) ≡ₚ
  (ot_trackId <$> builderTracks b) ++
  ((λ k, "track-" +:+ pretty k) <$>
     seq (nextId b) (nextId (processFrame b frame) - nextId b)).
Proof.
  unfold builderTracks. rewrite processFrame_spec. simpl.
  rewrite !fmap_app, fmap_reverse, reverse_Permutation, freshTracks_ids.
  rewrite !selectIdx_fmap, frameMatching_ids.
  replace (nextId b + _ - nextId b)%nat with
    (length (freshTracks (usedObs (frameMatching b frame)) 0
               (frameObservations frame) (nextId b))) by lia.
  rewrite <- !(assoc_L (++)). f_equiv. rewrite (assoc_L (++)). f_equiv.
  rewrite (Permutation_app_comm). apply selectIdx_partition.
Qed.

Lemma processFrame_nextId b frame : (nextId b ≤ nextId (processFrame b frame))%nat.
Proof. rewrite processFrame_spec. simpl. lia. Qed.

Lemma processFrame_observations b frame :
  allObservations (builderTracks (processFrame b frame)) ≡ₚ
  allObservations (builderTracks b) ++ (observationOf frame <$> actors frame).
Proof.
  unfold builderTracks. rewrite processFrame_spec. simpl.
  pose proof (frameMatching_inv b frame) as Hinv.
  set (m := frameMatching b frame) in *.
  unfold allObservations at 1 2.
  rewrite !fmap_app, !join_app, fmap_reverse, reverse_Permutation.
  fold (allObservations (freshTracks (usedObs m) 0 (frameObservations frame) (nextId b))).
  rewrite freshTracks_observations. simpl.
  rewrite !selectIdx_fmap.
  rewrite <- !(assoc_L (++)). f_equiv.
  rewrite (assoc_L (++)).
  rewrite (Permutation_app_comm (mjoin (selectIdx _ _))).
  rewrite <- join_app.
  rewrite (selectIdx_partition (λ i, bool_decide (i ∈ matched m))).
  fold (allObservations (m_openTracks m)).
  rewrite (gi_obs _ _ _ Hinv).
  rewrite <- (assoc_L (++)). f_equiv; [done|].
  rewrite selectIdx_fmap.
  rewrite (selectIdx_partition (λ i, bool_decide (i ∈ usedObs m))).
  unfold frameObservations. rewrite <- list_fmap_compose. done.
Qed.

End Frame.

(* ================================================================= *)
(** ** Invariants of the main loop *)

Section Invariants.
Context `{MathLib}.

Lemma builder_ind (Inv : list ActorDetectionResult → Builder → Prop) :
  Inv [] initialBuilder →
  (∀ fs f b, Inv fs b → Inv (fs ++ [f]) (processFrame b f)) →
  ∀ fs, Inv fs (fold_left processFrame fs initialBuilder).
Proof.
  intros H0 Hstep fs. induction fs as [|f fs IH] using rev_ind; [done|].
  rewrite fold_left_app. simpl. by apply Hstep.
Qed.

Lemma TrackOK_mono fs f tr : TrackOK fs tr → TrackOK (fs ++ [f]) tr.
Proof.
  intros [Hl Hs Hn]. split; [done| |done].
  intros o Ho. destruct (Hs o Ho) as (g & a & ? & ? & ? & ?).
  exists g, a. repeat split; try done. apply elem_of_app. by left.
Qed.

Lemma TrackOK_new fs f k actor :
  actor ∈ actors f → TrackOK (fs ++ [f]) (newTrack k actor (observationOf f actor)).
Proof.
  intros Ha. split; simpl; [done| |].
  - intros o ->%list_elem_of_singleton. exists f, actor.
    repeat split; try done. apply elem_of_app. right. by apply list_elem_of_singleton.
  - intros [|j] o1 o2; simpl; [|done]. done.
Qed.

Lemma TrackOK_append fs f track actor :
  TrackOK fs track → actor ∈ actors f →
  actor_type actor = ot_type track →
  JS.ltb MAX_MATCH_DISTANCE_M (trackDistance track (observationOf f actor)) = false →
  TrackOK (fs ++ [f]) (appendObservation (observationOf f actor) track).
Proof.
  intros [Hl Hs Hn] Ha Hty Hd. split; simpl.
  - by rewrite last_snoc.
  - intros o [Ho| ->%list_elem_of_singleton]%elem_of_app.
    + destruct (Hs o Ho) as (g & a & ? & ? & ? & ?).
      exists g, a. repeat split; try done. apply elem_of_app. by left.
    + exists f, actor. repeat split; try done.
      apply elem_of_app. right. by apply list_elem_of_singleton.
  - intros k o1 o2 H1 H2.
    destruct (decide (S k < length (ot_observations track))%nat) as [Hlt|Hge].
    + rewrite lookup_app_l in H1 by lia. rewrite lookup_app_l in H2 by lia. eauto.
    + assert (Hk : S k = length (ot_observations track)).
      { apply lookup_lt_Some in H2. rewrite length_app in H2. simpl in H2. lia. }
      rewrite lookup_app_l in H1 by lia.
      rewrite Hk, lookup_app_r, Nat.sub_diag in H2 by lia. simpl in H2.
      inversion H2; subst o2.
      assert (Ho1 : o1 = ot_lastObservation track).
      { rewrite last_lookup in Hl. rewrite <- Hk in Hl. simpl in Hl. congruence. }
      subst o1. exact Hd.
Qed.

Lemma tracks_ok fs :
  Forall (TrackOK fs) (builderTracks (fold_left processFrame fs initialBuilder)).
Proof.
  apply (builder_ind (λ fs b, Forall (TrackOK fs) (builderTracks b))).
  - constructor.
  - clear fs. intros fs f b Hb. rewrite Forall_forall in Hb.
    apply Forall_forall. intros tr [Hc|Ho]%elem_of_app.
    + apply processFrame_closed in Hc as [Hc|(i & Hi & _)].
      * apply TrackOK_mono, Hb, elem_of_app. by left.
      * apply TrackOK_mono, Hb, elem_of_app. right. by eapply list_elem_of_lookup_2.
    + apply processFrame_open in Ho
        as [(track & actor & Ht & Ha & Hty & Hd & ->)|(k & actor & Ha & _ & ->)].
      * apply TrackOK_append; try done. apply Hb, elem_of_app. by right.
      * by apply TrackOK_new.
Qed.

Lemma ids_ok fs : IdsOK (fold_left processFrame fs initialBuilder).
Proof.
  apply (builder_ind (λ _ b, IdsOK b)).
  - split; simpl; [constructor| |lia]. by intros tr ?%elem_of_nil.
  - clear fs. intros _ f b [Hnd Hr Hn].
    pose proof (processFrame_nextId b f) as Hle.
    assert (Hids : ∀ tr, tr ∈ builderTracks (processFrame b f) →
              ∃ k, (1 ≤ k < nextId (processFrame b f))%nat ∧
                   ot_trackId tr = "track-" +:+ pretty k).
    { intros tr [Hc|Ho]%elem_of_app.
      - assert (Hin : tr ∈ builderTracks b).
        { apply processFrame_closed in Hc as [Hc|(i & Hi & _)]; apply elem_of_app;
            [by left|right; by eapply list_elem_of_lookup_2]. }
        destruct (Hr tr Hin) as (k & ? & ?). exists k. split; [lia|done].
      - apply processFrame_open in Ho
          as [(track & actor & Ht & _ & _ & _ & ->)|(k & actor & _ & Hk & ->)].
        + destruct (Hr track) as (k & ? & ?); [apply elem_of_app; by right|].
          exists k. split; [lia|done].
        + exists k. split; [lia|done]. }
    split; [|done|lia].
    rewrite processFrame_ids. apply NoDup_app. split; [done|]. split.
    + intros id Hid Hnew. apply list_elem_of_fmap in Hid as (tr & -> & Htr).
      destruct (Hr tr Htr) as (k & Hk & Heq).
      apply list_elem_of_fmap in Hnew as (k' & Heq' & Hk').
      apply elem_of_seq in Hk'. rewrite Heq in Heq'.
      apply (inj (String.append "track-")) in Heq'. apply (inj pretty) in Heq'. lia.
    + apply NoDup_fmap_2; [|apply NoDup_seq].
      intros k1 k2 Heq. apply (inj (String.append "track-")) in Heq.
      by apply (inj pretty) in Heq.
Qed.

End Invariants.

(* ================================================================= *)
(** ** From the loop to the result of [buildTracks] *)

Section Result.
Context `{MathLib}.

Lemma allClosed_builder frames :
  allClosed frames = builderTracks (builderBefore frames (length (sortFrames frames))).
Proof. unfold allClosed, builderBefore, builderTracks. by rewrite firstn_all. Qed.

Lemma builderBefore_S frames k frame :
  sortFrames frames !! k = Some frame →
  builderBefore frames (S k) = processFrame (builderBefore frames k) frame.
Proof.
  intros Hk. unfold builderBefore. rewrite (take_S_r _ _ _ Hk), fold_left_app. done.
Qed.

Lemma builderBefore_ge frames k :
  (length (sortFrames frames) ≤ k)%nat →
  builderBefore frames k = builderBefore frames (length (sortFrames frames)).
Proof. intros Hk. unfold builderBefore. by rewrite firstn_all, take_ge. Qed.

Lemma elem_of_tracks frames eventId t :
  t ∈ tracks (buildTracks frames eventId) ↔
  ∃ i tr, allClosed frames !! i = Some tr ∧ t = toActorTrack i tr.
Proof.
  unfold buildTracks. simpl. rewrite Array_sort_elem_of, elem_of_lookup_imap.
  split; intros (i & tr & ? & ?); eauto.
Qed.

Lemma prefix_frames frames k f :
  f ∈ take k (sortFrames frames) → f ∈ frames.
Proof.
  intros [i Hi]%list_elem_of_lookup.
  apply (Array_sort_elem_of (λ a b, timestamp a - timestamp b)).
  apply lookup_take_Some in Hi as [Hi _]. by eapply list_elem_of_lookup_2.
Qed.

Lemma builderBefore_ok frames k :
  Forall (TrackOK (take k (sortFrames frames))) (builderTracks (builderBefore frames k)).
Proof. apply tracks_ok. Qed.

Lemma builderBefore_ids frames k : IdsOK (builderBefore frames k).
Proof. apply ids_ok. Qed.

Lemma allClosed_ok frames tr :
  tr ∈ allClosed frames → TrackOK (sortFrames frames) tr.
Proof.
  rewrite allClosed_builder. intros Htr.
  pose proof (builderBefore_ok frames (length (sortFrames frames))) as Hok.
  rewrite firstn_all in Hok. rewrite Forall_forall in Hok. by apply Hok.
Qed.

(** A candidate the greedy loop accepts pairs a detection with a track that
    is, at that moment, as it was when the frame began, and passes both
    gates. *)
Lemma accepted_candidate b frame j c :
  frameCandidates b frame !! j = Some c →
  trackIdx c ∉ matched (matchingAfter b frame j) →
  ∃ track actor,
    m_openTracks (matchingAfter b frame j) !! trackIdx c = Some track ∧
    openTracks b !! trackIdx c = Some track ∧
    actors frame !! obsIdx c = Some actor ∧
    actor_type actor = ot_type track ∧
    JS.ltb MAX_MATCH_DISTANCE_M (trackDistance track (observationOf frame actor)) = false.
Proof.
  intros Hc Hm.
  pose proof (frameCandidates_valid b frame) as Hv.
  rewrite Forall_lookup in Hv.
  destruct (Hv j c Hc) as (track & actor & obs & Ht & Ho & Hty & Hd).
  apply frameObservations_lookup in Ho as [Ha ->].
  exists track, actor.
  rewrite (gi_unmatched _ _ _ (matchingAfter_inv b frame j) _ Hm). done.
Qed.

(** Every track a builder holds is still held after the next frame, as it
    was or with one more observation. *)
Lemma processFrame_successor b frame tr :
  tr ∈ builderTracks b →
  tr ∈ closedTracks (processFrame b frame) ∨
  ∃ obs, appendObservation obs tr ∈ openTracks (processFrame b frame).
Proof.
  intros [Hc|Ho]%elem_of_app.
  - left. apply processFrame_closed. by left.
  - apply list_elem_of_lookup in Ho as [i Hi].
    destruct (decide (i ∈ matched (frameMatching b frame))) as [HM|HM].
    + right. destruct (gi_matched _ _ _ (frameMatching_inv b frame) i HM)
        as (oi & track & actor & obs & Ht & _ & _ & _ & _ & Hm).
      rewrite Hi in Ht. inversion Ht; subst track. exists obs.
      rewrite processFrame_spec. simpl. apply elem_of_app. left.
      apply elem_of_selectIdx. exists i. split; [done|]. by apply bool_decide_eq_true.
    + left. apply processFrame_closed. right. eauto.
Qed.

Lemma builderBefore_successor frames k1 k2 tr :
  (k1 ≤ k2)%nat → tr ∈ builderTracks (builderBefore frames k1) →
  ∃ tr', tr' ∈ builderTracks (builderBefore frames k2) ∧
         ot_trackId tr' = ot_trackId tr ∧ ot_type tr' = ot_type tr.
Proof.
  intros Hle Htr. induction Hle as [|k2 Hle IH]; [by exists tr|].
  destruct IH as (tr' & Htr' & Hid & Hty).
  destruct (sortFrames frames !! k2) as [frame|] eqn:Hk.
  - rewrite (builderBefore_S _ _ _ Hk).
    destruct (processFrame_successor _ frame _ Htr') as [Hc|[obs Ho]].
    + exists tr'. split; [|done]. apply elem_of_app. by left.
    + exists (appendObservation obs tr'). split; [|done]. apply elem_of_app. by right.
  - apply lookup_ge_None in Hk. exists tr'. split; [|done].
    rewrite builderBefore_ge by lia. by rewrite builderBefore_ge in Htr' by lia.
Qed.

Lemma same_id_same_track b tr1 tr2 :
  IdsOK b → tr1 ∈ builderTracks b → tr2 ∈ builderTracks b →
  ot_trackId tr1 = ot_trackId tr2 → tr1 = tr2.
Proof.
  intros [Hnd _ _] [i Hi]%list_elem_of_lookup [j Hj]%list_elem_of_lookup Heq.
  assert (i = j) as ->; [|congruence].
  eapply NoDup_lookup; [exact Hnd| |]; rewrite list_lookup_fmap.
  - by rewrite Hi.
  - rewrite Hj. simpl. by rewrite Heq.
Qed.

End Result.

(* ================================================================= *)
(** ** Counting observations, and the order of timestamps *)

Lemma length_join_with {A B} (g : A → list B) (l : list A) :
  length (mjoin (g <$> l)) = sum_list_with (λ x, length (g x)) l.
Proof.
  induction l as [|x l IH]; [done|].
  rewrite fmap_cons. simpl. by rewrite length_app, IH.
Qed.

Lemma toActorTrack_observations (l : list OpenTrack) :
  observations <$> imap toActorTrack l = ot_observations <$> l.
Proof.
  apply list_eq. intros i. rewrite !list_lookup_fmap, list_lookup_imap.
  by destruct (l !! i).
Qed.

Lemma distinctTimestamps_cons f frames :
  distinctTimestamps (f :: frames) →
  Forall (λ g, ¬ timestamp f == timestamp g) frames ∧ distinctTimestamps frames.
Proof.
  intros Hd. split.
  - apply Forall_lookup. intros j g Hg. apply (Hd 0%nat (S j)); [lia|done|done].
  - intros i j g1 g2 Hij H1 H2. apply (Hd (S i) (S j)); [lia|done|done].
Qed.

Lemma sort_insert_strict {A} (key : A → Q) x l :
  Forall (λ y, ¬ key x == key y) l →
  StronglySorted (λ a b, key a < key b) l →
  StronglySorted (λ a b, key a < key b) (JS.sort_insert (λ a b, key a - key b) x l).
Proof.
  induction l as [|y l IH]; simpl; intros Hne Hs.
  - repeat constructor.
  - apply Forall_cons in Hne as [Hxy Hne].
    apply StronglySorted_cons in Hs as [Hy Hs].
    destruct (JS.ltb 0 (key x - key y)) eqn:Hc.
    + apply ltb_lt in Hc.
      apply StronglySorted_cons. split; [|by apply IH].
      rewrite sort_insert_perm. constructor; [lra|done].
    + apply ltb_ge in Hc.
      assert (Hlt : key x < key y).
      { destruct (Qlt_le_dec (key x) (key y)) as [|Hge]; [done|].
        exfalso. apply Hxy. lra. }
      apply StronglySorted_cons. split; [|by apply StronglySorted_cons].
      constructor; [done|].
      eapply Forall_impl; [exact Hy|]. intros z Hz. simpl in Hz. lra.
Qed.

Lemma sortFrames_strict frames :
  distinctTimestamps frames →
  StronglySorted (λ f g, timestamp f < timestamp g) (sortFrames frames).
Proof.
  unfold sortFrames. induction frames as [|f frames IH]; intros Hd; simpl.
  - constructor.
  - apply distinctTimestamps_cons in Hd as [Hf Hd].
    apply sort_insert_strict; [|by apply IH].
    by rewrite Array_sort_perm.
Qed.

Section Sorted.
Context `{MathLib}.

(** When the frames the loop has processed are in the order [R] of their
    timestamps, so are the observations of every track. *)
Lemma tracks_sorted (R : relation Q) fs :
  StronglySorted (λ f g, R (timestamp f) (timestamp g)) fs →
  Forall (λ tr, StronglySorted R (obs_timestamp <$> ot_observations tr))
    (builderTracks (fold_left processFrame fs initialBuilder)).
Proof.
  induction fs as [|f fs IH] using rev_ind; intros Hs; [constructor|].
  apply StronglySorted_app in Hs as (Hlast & Hs & _).
  specialize (IH Hs). rewrite Forall_forall in IH.
  pose proof (tracks_ok fs) as Hok. rewrite Forall_forall in Hok.
  rewrite fold_left_app. simpl.
  set (b := fold_left processFrame fs initialBuilder) in *.
  apply Forall_forall. intros tr [Hc|Ho]%elem_of_app.
  - apply processFrame_closed in Hc as [Hc|(i & Hi & _)]; apply IH, elem_of_app;
      [by left|right; by eapply list_elem_of_lookup_2].
  - apply processFrame_open in Ho
      as [(track & actor & Ht & Ha & _ & _ & ->)|(k & actor & Ha & _ & ->)]; simpl.
    + assert (Htr : track ∈ builderTracks b) by (apply elem_of_app; by right).
      rewrite fmap_app. apply StronglySorted_app_2.
      * intros t1 t2 (o & -> & Ho)%list_elem_of_fmap ->%list_elem_of_singleton.
        destruct (tk_source _ _ (Hok _ Htr) o Ho) as (g & a & Hg & _ & -> & _).
        simpl. apply Hlast; [done|]. by apply list_elem_of_singleton.
      * by apply IH.
      * repeat constructor.
    + repeat constructor.
Qed.

End Sorted.

Section Closure.
Context `{MathLib}.

Lemma closed_mono frames k1 k2 :
  (k1 ≤ k2)%nat →
  closedTracks (builderBefore frames k1) `prefix_of` closedTracks (builderBefore frames k2).
Proof.
  intros Hle. induction Hle as [|k2 Hle IH]; [done|].
  etrans; [exact IH|].
  destruct (sortFrames frames !! k2) as [frame|] eqn:Hk.
  - rewrite (builderBefore_S _ _ _ Hk). apply processFrame_closed_prefix.
  - apply lookup_ge_None in Hk.
    by rewrite (builderBefore_ge _ k2), (builderBefore_ge _ (S k2)) by lia.
Qed.

Lemma closed_in_allClosed frames k tr :
  tr ∈ closedTracks (builderBefore frames k) → tr ∈ allClosed frames.
Proof.
  intros Htr. rewrite allClosed_builder. apply elem_of_app. left.
  destruct (Nat.le_ge_cases k (length (sortFrames frames))) as [Hle|Hge].
  - by eapply elem_of_prefix; [|by apply closed_mono].
  - by rewrite <- (builderBefore_ge _ k).
Qed.

Lemma closed_not_open b tr tr' :
  IdsOK b → tr ∈ closedTracks b → tr' ∈ openTracks b → ot_trackId tr' ≠ ot_trackId tr.
Proof.
  intros [Hnd _ _] Hc Ho Heq. unfold builderTracks in Hnd.
  rewrite fmap_app in Hnd. apply NoDup_app in Hnd as (_ & Hdisj & _).
  apply (Hdisj (ot_trackId tr)).
  - apply list_elem_of_fmap. eauto.
  - apply list_elem_of_fmap. eauto.
Qed.

End Closure.

Lemma distinctTimestamps_intro frames :
  StronglySorted (λ f g, ¬ timestamp f == timestamp g) frames →
  distinctTimestamps frames.
Proof.
  induction 1 as [|f frames Hs IH Hf]; intros i j g1 g2 Hij H1 H2.
  - by rewrite lookup_nil in H1.
  - destruct j as [|j]; [lia|]. destruct i as [|i]; simpl in *.
    + inversion H1; subst g1. rewrite Forall_lookup in Hf. by eapply Hf.
    + apply (IH i j); [lia|done|done].
Qed.

(** For any input the observations of a track are in the order of their
    timestamps, not always strictly. *)
Lemma observations_nondecreasing `{MathLib} (frames : list ActorDetectionResult)
    (eventId : string) t :
  t ∈ tracks (buildTracks frames eventId) →
  StronglySorted Qle (obs_timestamp <$> observations t).
Proof.
  intros (i & tr & Htr & ->)%elem_of_tracks. simpl.
  pose proof (tracks_sorted Qle (sortFrames frames)
                (Array_sort_sorted timestamp frames)) as Hs.
  rewrite Forall_forall in Hs. apply Hs. by eapply list_elem_of_lookup_2.
Qed.

(* ================================================================= *)
(** ** Clamping and rounding *)

Lemma Math_max_Qmax (a b : Q) : JS.Math_max a b = Qmax a b.
Proof.
  unfold JS.Math_max, JS.ltb, Qmax, GenericMinMax.gmax. by destruct (a ?= b).
Qed.

Lemma clamp_range (d : Q) :
  let c := JS.Math_max 2 (JS.Math_min 200 d) in
  2 <= c <= 200 ∧ (d < 2 → c = 2) ∧ (200 < d → c = 200) ∧ (2 <= d <= 200 → c == d).
Proof.
  unfold JS.Math_max, JS.Math_min. simpl.
  destruct (JS.ltb d 200) eqn:H200.
  - apply ltb_lt in H200. destruct (JS.ltb 2 d) eqn:H2.
    + apply ltb_lt in H2. repeat split; try lra; done.
    + apply ltb_ge in H2. repeat split; try lra; done.
  - apply ltb_ge in H200.
    assert (H2 : JS.ltb 2 200 = true) by done. rewrite H2.
    repeat split; try lra; try done.
Qed.

Lemma Qfloor_unique (x : Q) (z : Z) :
  inject_Z z <= x → x < inject_Z (z + 1) → Qfloor x = z.
Proof.
  intros Hle Hlt.
  pose proof (Qfloor_le x) as H1. pose proof (Qlt_floor x) as H2.
  assert (Ha : inject_Z z < inject_Z (Qfloor x + 1)) by lra.
  assert (Hb : inject_Z (Qfloor x) < inject_Z (z + 1)) by lra.
  rewrite <- Zlt_Qlt in Ha, Hb. lia.
Qed.

Lemma roundTenth_comp (x y : Q) : x == y → roundTenth x = roundTenth y.
Proof.
  intros Hxy. unfold roundTenth, JS.Math_round. do 2 f_equal.
  apply Qfloor_unique.
  - pose proof (Qfloor_le (y * 10 + (1 # 2))). lra.
  - pose proof (Qlt_floor (y * 10 + (1 # 2))). lra.
Qed.

(** [roundTenth t] is the multiple of one tenth nearest to [t], the upper
    one when two are as near. *)
Lemma roundTenth_nearest (t : Q) :
  ∃ z : Z, roundTenth t = inject_Z z / 10 ∧
           roundTenth t - (1 # 20) <= t ∧ t < roundTenth t + (1 # 20).
Proof.
  exists (Qfloor (t * 10 + (1 # 2))). split; [done|].
  unfold roundTenth, JS.Math_round.
  pose proof (Qfloor_le (t * 10 + (1 # 2))) as H1.
  pose proof (Qlt_floor (t * 10 + (1 # 2))) as H2.
  rewrite inject_Z_plus in H2. change (inject_Z 1) with 1 in H2.
  set (f := inject_Z (Qfloor (t * 10 + (1 # 2)))) in *. clearbody f.
  change (f / 10) with (f * (1 # 10)). split; lra.
Qed.

(** The timestamps of the loop are half-integers, which rounding keeps. *)
Lemma roundTenth_half (k : nat) :
  roundTenth ((1 # 2) + inject_Z (Z.of_nat k)) == (1 # 2) + inject_Z (Z.of_nat k).
Proof.
  unfold roundTenth, JS.Math_round.
  set (q := inject_Z (Z.of_nat k)).
  assert (Hq : inject_Z (5 + 10 * Z.of_nat k) == 5 + 10 * q).
  { by rewrite inject_Z_plus, inject_Z_mult. }
  rewrite (Qfloor_unique _ (5 + 10 * Z.of_nat k)).
  - rewrite Hq. change ((5 + 10 * q) / 10) with ((5 + 10 * q) * (1 # 10)). lra.
  - rewrite Hq. lra.
  - rewrite inject_Z_plus, Hq. change (inject_Z 1) with 1. lra.
Qed.

(* ================================================================= *)
(** ** The keyframe loop *)

(** The loop from [t] on makes [m] rounds when the condition holds for [t],
    [t + 1], ..., [t + (m - 1)] and fails for [t + m], given fuel for the
    [m + 1] tests. *)
Lemma keyframeLoop_spec (duration : Q) (m fuel : nat) (t : Q) (acc : list Q) :
  (∀ k, (k < m)%nat → t + inject_Z (Z.of_nat k) < duration - (1 # 2)) →
  ¬ (t + inject_Z (Z.of_nat m) < duration - (1 # 2)) →
  (m < fuel)%nat →
  keyframeLoop fuel duration t acc =
    Some (acc ++ ((λ k : nat, roundTenth (t + inject_Z (Z.of_nat k))) <$> seq 0 m)).
Proof.
  revert fuel t acc. induction m as [|m IH]; intros fuel t acc Hlt Hge Hfuel.
  - destruct fuel as [|fuel]; [lia|]. simpl.
    assert (Hc : JS.ltb t (duration - (1 # 2)) = false).
    { apply ltb_ge. apply Qnot_lt_le. intros Hc. apply Hge.
      change (inject_Z (Z.of_nat 0)) with 0. lra. }
    by rewrite Hc, app_nil_r.
  - destruct fuel as [|fuel]; [lia|]. simpl keyframeLoop.
    assert (Hc : JS.ltb t (duration - (1 # 2)) = true).
    { apply ltb_lt. specialize (Hlt 0%nat ltac:(lia)).
      change (inject_Z (Z.of_nat 0)) with 0 in Hlt. lra. }
    rewrite Hc.
    assert (Hstep : ∀ k : nat,
              t + KEYFRAME_INTERVAL + inject_Z (Z.of_nat k) == t + inject_Z (Z.of_nat (S k))).
    { intros k. rewrite Nat2Z.inj_succ, <- Z.add_1_r, inject_Z_plus.
      unfold KEYFRAME_INTERVAL. change (inject_Z 1) with 1. lra. }
    rewrite (IH fuel (t + KEYFRAME_INTERVAL)).
    + f_equal. rewrite <- (assoc_L (++)). f_equal. simpl. f_equal.
      * apply roundTenth_comp. change (inject_Z (Z.of_nat 0)) with 0. lra.
      * rewrite <- fmap_S_seq, <- list_fmap_compose.
        apply list_fmap_ext. intros _ k _. simpl. apply roundTenth_comp, Hstep.
    + intros k Hk. rewrite Hstep. apply Hlt. lia.
    + by rewrite Hstep.
    + lia.
Qed.

(** The number of rounds of the loop for a duration. *)
Lemma keyframe_rounds (duration : Q) :
  let n := Z.to_nat (Qceiling (duration - 1)) in
  (∀ k, (k < n)%nat → KEYFRAME_START + inject_Z (Z.of_nat k) < duration - (1 # 2)) ∧
  ¬ (KEYFRAME_START + inject_Z (Z.of_nat n) < duration - (1 # 2)) ∧
  (n < keyframeFuel duration)%nat.
Proof.
  intros n. unfold KEYFRAME_START.
  pose proof (Qle_ceiling (duration - 1)) as Hup.
  pose proof (Qceiling_lt (duration - 1)) as Hlow.
  split; [|split].
  - intros k Hk.
    assert (Hz : (Z.of_nat k <= Qceiling (duration - 1) - 1)%Z) by (unfold n in Hk; lia).
    rewrite Zle_Qle in Hz. lra.
  - intros Hlt.
    destruct (Z.le_gt_cases 0 (Qceiling (duration - 1))) as [Hpos|Hneg].
    + unfold n in Hlt. rewrite Z2Nat.id in Hlt by done. lra.
    + assert (Hn : n = 0%nat) by (unfold n; lia). rewrite Hn in Hlt.
      change (inject_Z (Z.of_nat 0)) with 0 in Hlt.
      rewrite Zlt_Qlt in Hneg. change (inject_Z 0) with 0 in Hneg. lra.
  - unfold keyframeFuel, n.
    assert (Hm : (Qceiling (duration - 1) <= Qceiling duration)%Z).
    { apply Qceiling_resp_le. lra. }
    lia.
Qed.

Lemma keyframeLoop_enough (duration : Q) (fuel : nat) :
  (keyframeFuel duration ≤ fuel)%nat →
  keyframeLoop fuel duration KEYFRAME_START [] =
    Some ((λ k : nat, roundTenth (KEYFRAME_START + inject_Z (Z.of_nat k)))
            <$> seq 0 (Z.to_nat (Qceiling (duration - 1)))).
Proof.
  intros Hfuel. destruct (keyframe_rounds duration) as (Hlt & Hge & Hn).
  rewrite (keyframeLoop_spec duration (Z.to_nat (Qceiling (duration - 1)))); try done.
  lia.
Qed.

Lemma computeKeyframes_fuel_enough (duration : Q) (fuel : nat) :
  (keyframeFuel duration ≤ fuel)%nat →
  computeKeyframes_fuel fuel duration = Some (computeKeyframes duration).
Proof.
  intros Hfuel. unfold computeKeyframes, computeKeyframes_fuel.
  by rewrite !keyframeLoop_enough by (done || lia).
Qed.

(* ================================================================= *)
(** ** The tracking hook *)

Section Hook.
Context `{MathLib} `{Browser}.

Lemma frame_key_not_tracking_key (eventId eventId' : string) (t : Q) :
  frameCacheKey eventId t ≠ trackingCacheKey eventId'.
Proof. unfold frameCacheKey, trackingCacheKey. simpl. discriminate. Qed.

Lemma trySetItem_frame_key eventId eventId' t value h :
  let h' := trySetItem (frameCacheKey eventId t) value h in
  localStorage h' !! trackingCacheKey eventId' = localStorage h !! trackingCacheKey eventId' ∧
  trackingResult h' = trackingResult h ∧ requests h' = requests h ∧
  progress h' = progress h ∧ error h' = error h.
Proof.
  unfold trySetItem. destruct (storageFull _ _ _); simpl; [done|].
  split; [|done]. apply lookup_insert_ne, frame_key_not_tracking_key.
Qed.

(** The loop over the keyframes leaves the session cache entry and the
    tracking result alone, and gathers at most one frame result for each
    keyframe. *)
Lemma keyframesLoop_preserves params total eventId' i rest frs h e frs' h' :
  keyframesLoop params total i rest frs h = (e, frs', h') →
  localStorage h' !! trackingCacheKey eventId' = localStorage h !! trackingCacheKey eventId' ∧
  trackingResult h' = trackingResult h ∧
  (length frs' ≤ length frs + length rest)%nat.
Proof.
  revert i frs h. induction rest as [|t rest IH]; intros i frs h Hrun; simpl in Hrun.
  - inversion Hrun; subst. repeat split; try done. lia.
  - destruct (abortRequested i).
    { inversion Hrun; subst. repeat split; try done. simpl. lia. }
    destruct (getTruthyItem _ _ ≫= JSON_parse_frame) as [frameResult|].
    { apply IH in Hrun as (Hls & Htr & Hlen). simpl in *.
      repeat split; try done. rewrite length_app in Hlen. simpl in *. lia. }
    destruct (awaitDetection _ _) as [message|body].
    { inversion Hrun; subst. repeat split; try done. simpl. lia. }
    apply IH in Hrun as (Hls & Htr & Hlen).
    match type of Hls with
    | context [trySetItem (frameCacheKey ?e ?t') ?v ?h0] =>
        destruct (trySetItem_frame_key e eventId' t' v h0) as (Hls' & Htr' & _)
    end.
    rewrite Hls' in Hls. rewrite Htr' in Htr. simpl in *.
    repeat split; try done.
    rewrite length_app in Hlen. destruct body; simpl in *; lia.
Qed.

(** When no response carries a falsy body, a loop that finishes has gathered
    one frame result for each keyframe. *)
Lemma keyframesLoop_count params total i rest frs h frs' h' :
  (∀ request, fetchDetectActors request ≠ ResponseOk (inr None)) →
  keyframesLoop params total i rest frs h = (LoopFinished, frs', h') →
  length frs' = (length frs + length rest)%nat.
Proof.
  intros Hbody. revert i frs h.
  induction rest as [|t rest IH]; intros i frs h Hrun; simpl in Hrun.
  - inversion Hrun; subst. simpl. lia.
  - destruct (abortRequested i); [done|].
    destruct (getTruthyItem _ _ ≫= JSON_parse_frame) as [frameResult|].
    { apply IH in Hrun. rewrite length_app in Hrun. simpl in *. lia. }
    destruct (awaitDetection _ _) as [message|body] eqn:Hd; [done|].
    apply IH in Hrun. rewrite length_app in Hrun.
    destruct body as [frame|]; simpl in *; [lia|].
    exfalso. unfold awaitDetection in Hd.
    match type of Hd with
    | context [fetchDetectActors ?r] =>
        specialize (Hbody r); destruct (fetchDetectActors r) as [|? [|[|]]|[|[|]]]
    end; congruence.
Qed.

Lemma keyframesLoop_app params total i l1 l2 frs h :
  keyframesLoop params total i (l1 ++ l2) frs h =
  match keyframesLoop params total i l1 frs h with
  | (LoopFinished, frs1, h1) => keyframesLoop params total (i + length l1) l2 frs1 h1
  | other => other
  end.
Proof.
  revert i frs h. induction l1 as [|t l1 IH]; intros i frs h; simpl.
  - by rewrite Nat.add_0_r.
  - destruct (abortRequested i); [done|].
    replace (i + S (length l1))%nat with (S i + length l1)%nat by lia.
    destruct (getTruthyItem _ _ ≫= JSON_parse_frame); [apply IH|].
    destruct (awaitDetection _ _); [done|]. apply IH.
Qed.

(** A keyframe whose request fails ends the loop with the results gathered
    so far. *)
Lemma keyframesLoop_fails params total i t rest frs h message :
  abortRequested i = false →
  getTruthyItem (frameCacheKey (p_eventId params) t) h ≫= JSON_parse_frame = None →
  awaitDetection t (detectRequest params t h) = inl message →
  ∃ h', keyframesLoop params total i (t :: rest) frs h = (LoopThrew message, frs, h') ∧
        localStorage h' = localStorage h ∧ trackingResult h' = trackingResult h.
Proof.
  intros Ha Hmiss Hfail. simpl. rewrite Ha.
  unfold getTruthyItem in *. simpl. rewrite Hmiss.
  unfold detectRequest in *. simpl. rewrite Hfail. eauto.
Qed.

Lemma requestFails_awaitDetection t request :
  requestFails (fetchDetectActors request) → ∃ message, awaitDetection t request = inl message.
Proof.
  unfold awaitDetection. intros [[m ->]|(status & data & ->)]; [eauto|].
  destruct data as [m|[e|]]; eauto.
Qed.

Lemma runTracking_not_cached params keyframes h cached :
  (runTracking params keyframes h).1 ≠ LoadedFromCache cached.
Proof.
  unfold runTracking.
  destruct (keyframesLoop _ _ _ _ _ _) as [[[] frs] h']; simpl; try done.
  by destruct (abortRequested _).
Qed.

Lemma track_cached params h cached :
  cachedSession (p_eventId params) (computeKeyframes (p_videoDuration params))
    (startedHook params h) = Some cached →
  track params h =
    (LoadedFromCache cached,
     setIsTracking false
       (setProgress (Some
          {| currentFrame := length (keyframeTimestamps cached);
             totalFrames := length (keyframeTimestamps cached);
             status := st_done; message := "Loaded from cache" |})
          (setTrackingResult (Some cached) (startedHook params h)))).
Proof. intros Hc. unfold track. fold (startedHook params h). by rewrite Hc. Qed.

Lemma track_not_cached params h :
  cachedSession (p_eventId params) (computeKeyframes (p_videoDuration params))
    (startedHook params h) = None →
  track params h =
    runTracking params (computeKeyframes (p_videoDuration params))
      (dropStaleSession (p_eventId params) (startedHook params h)).
Proof. intros Hc. unfold track. fold (startedHook params h). by rewrite Hc. Qed.

(** The decision of the session cache check, spelled out. *)
Lemma cachedSession_Some eventId keyframes h cached :
  JSON_parse_session "" = None →
  cachedSession eventId keyframes h = Some cached ↔
  ∃ stored, localStorage h !! trackingCacheKey eventId = Some stored ∧
            JSON_parse_session stored = Some cached ∧
            length (keyframeTimestamps cached) = length keyframes.
Proof.
  intros Hempty. unfold cachedSession, getTruthyItem. split.
  - destruct (localStorage h !! trackingCacheKey eventId) as [stored|]; [|done].
    destruct (String.eqb stored "") eqn:He; [done|].
    destruct (JSON_parse_session stored) as [c|] eqn:Hp; [|done].
    destruct (length (keyframeTimestamps c) =? length keyframes)%nat eqn:Hl; [|done].
    intros [= <-]. apply Nat.eqb_eq in Hl. eauto.
  - intros (stored & -> & Hp & Hl).
    destruct (String.eqb stored "") eqn:He.
    { apply String.eqb_eq in He. subst stored. congruence. }
    rewrite Hp. apply Nat.eqb_eq in Hl. by rewrite Hl.
Qed.

End Hook.

(* ================================================================= *)
(** * The claims *)

(** C1 (type gate).  [buildTracks] never puts detections of different actor
    types in one track.  For every list of frame results:
    - every observation of a returned track is the observation of a
      detection of an input frame whose type is the type of the track;
    - whenever the greedy loop of a frame accepts a candidate, so that the
      observation of a detection is appended to an open track, the type of
      the detection is the type of that track;
    - the type of a track never changes: any two tracks with the same
      [trackId], at any two moments of the main loop, have the same type. *)
Theorem type_gate `{MathLib} (frames : list ActorDetectionResult) (eventId : string) :
  (∀ t o, t ∈ tracks (buildTracks frames eventId) → o ∈ observations t →
     ∃ frame actor,
       frame ∈ frames ∧ actor ∈ actors frame ∧
       o = observationOf frame actor ∧ actor_type actor = track_type t)
  ∧ (∀ k frame j c,
       sortFrames frames !! k = Some frame →
       frameCandidates (builderBefore frames k) frame !! j = Some c →
       trackIdx c ∉ matched (matchingAfter (builderBefore frames k) frame j) →
       obsIdx c ∉ usedObs (matchingAfter (builderBefore frames k) frame j) →
       ∃ track actor,
         m_openTracks (matchingAfter (builderBefore frames k) frame j) !! trackIdx c
           = Some track ∧
         actors frame !! obsIdx c = Some actor ∧
         actor_type actor = ot_type track)
  ∧ (∀ k1 k2 tr1 tr2,
       tr1 ∈ builderTracks (builderBefore frames k1) →
       tr2 ∈ builderTracks (builderBefore frames k2) →
       ot_trackId tr1 = ot_trackId tr2 → ot_type tr1 = ot_type tr2).
Proof.
  split; [|split].
  - intros t o (i & tr & Htr & ->)%elem_of_tracks Ho. simpl in *.
    apply list_elem_of_lookup_2, allClosed_ok in Htr.
    destruct (tk_source _ _ Htr o Ho) as (f & a & Hf & Ha & -> & Hty).
    exists f, a. repeat split; try done.
    by apply (Array_sort_elem_of (λ a b, timestamp a - timestamp b)).
  - intros k frame j c _ Hc Hm _.
    destruct (accepted_candidate _ _ _ _ Hc Hm) as (track & actor & ? & _ & ? & ? & _).
    by exists track, actor.
  - assert (Hle : ∀ k1 k2 tr1 tr2, (k1 ≤ k2)%nat →
              tr1 ∈ builderTracks (builderBefore frames k1) →
              tr2 ∈ builderTracks (builderBefore frames k2) →
              ot_trackId tr1 = ot_trackId tr2 → ot_type tr1 = ot_type tr2).
    { intros k1 k2 tr1 tr2 Hk H1 H2 Hid.
      destruct (builderBefore_successor frames k1 k2 tr1 Hk H1) as (tr' & Htr' & Hid' & Hty').
      rewrite <- Hty'. f_equal.
      apply (same_id_same_track (builderBefore frames k2)); try done.
      - apply builderBefore_ids.
      - congruence. }
    intros k1 k2 tr1 tr2 H1 H2 Hid.
    destruct (Nat.le_ge_cases k1 k2); [by eapply Hle|].
    symmetry. by eapply Hle.
Qed.

(** C2 (distance gate).  [buildTracks] never extends a track over more than
    30 metres.  For every list of frame results:
    - whenever the greedy loop of a frame accepts a candidate, the haversine
      distance from the last observation of the track, as the track is at
      that moment, to the detection is at most [MAX_MATCH_DISTANCE_M],
      whatever the labels are;
    - in every returned track, two observations in a row are at most
      [MAX_MATCH_DISTANCE_M] apart. *)
Theorem distance_gate `{MathLib} (frames : list ActorDetectionResult) (eventId : string) :
  (∀ k frame j c,
     sortFrames frames !! k = Some frame →
     frameCandidates (builderBefore frames k) frame !! j = Some c →
     trackIdx c ∉ matched (matchingAfter (builderBefore frames k) frame j) →
     obsIdx c ∉ usedObs (matchingAfter (builderBefore frames k) frame j) →
     ∃ track actor,
       m_openTracks (matchingAfter (builderBefore frames k) frame j) !! trackIdx c
         = Some track ∧
       actors frame !! obsIdx c = Some actor ∧
       haversineDistance
         (lat (obs_worldPosition (ot_lastObservation track)))
         (lon (obs_worldPosition (ot_lastObservation track)))
         (lat (actor_worldPosition actor))
         (lon (actor_worldPosition actor)) <= MAX_MATCH_DISTANCE_M)
  ∧ (∀ t i o1 o2,
       t ∈ tracks (buildTracks frames eventId) →
       observations t !! i = Some o1 → observations t !! S i = Some o2 →
       obsDistance o1 o2 <= MAX_MATCH_DISTANCE_M).
Proof.
  split.
  - intros k frame j c _ Hc Hm _.
    destruct (accepted_candidate _ _ _ _ Hc Hm) as (track & actor & ? & _ & ? & _ & Hd).
    exists track, actor. repeat split; try done. by apply ltb_ge in Hd.
  - intros t i o1 o2 (n & tr & Htr & ->)%elem_of_tracks H1 H2. simpl in *.
    apply list_elem_of_lookup_2, allClosed_ok in Htr.
    apply ltb_ge. by eapply (tk_near _ _ Htr).
Qed.

(** C3 (track closure on a missed frame).  For every list of frame results:
    - an open track that the greedy loop of a frame leaves unmatched is in
      the closed list once that frame is processed;
    - a track in the closed list stays there, as it is, for the rest of the
      loop; no open track ever has its [trackId] again; and it is one of
      the tracks the result is made from;
    - a detection in the first of three frames, none in the second and a
      detection in the third give two tracks of one observation each,
      whatever the two detections are (so also for a car at the same world
      position). *)
Theorem track_closure `{MathLib} (frames : list ActorDetectionResult) (eventId : string) :
  (∀ k frame i tr,
     sortFrames frames !! k = Some frame →
     openTracks (builderBefore frames k) !! i = Some tr →
     i ∉ matched (frameMatching (builderBefore frames k) frame) →
     tr ∈ closedTracks (builderBefore frames (S k)))
  ∧ (∀ k1 k2 tr,
       (k1 ≤ k2)%nat → tr ∈ closedTracks (builderBefore frames k1) →
       tr ∈ closedTracks (builderBefore frames k2) ∧
       (∀ tr', tr' ∈ openTracks (builderBefore frames k2) →
               ot_trackId tr' ≠ ot_trackId tr) ∧
       ∃ i, allClosed frames !! i = Some tr ∧
            toActorTrack i tr ∈ tracks (buildTracks frames eventId))
  ∧ (∀ first third,
       observations <$> tracks (buildTracks (gapFrames first third) eventId) =
       [ [observationOf (sampleFrame (1 # 2) [first]) first];
         [observationOf (sampleFrame (5 # 2) [third]) third] ]).
Proof.
  split; [|split].
  - intros k frame i tr Hk Hi Hm. rewrite (builderBefore_S _ _ _ Hk).
    apply processFrame_closed. right. eauto.
  - intros k1 k2 tr Hle Htr.
    assert (Htr2 : tr ∈ closedTracks (builderBefore frames k2)).
    { by eapply elem_of_prefix; [|by apply closed_mono]. }
    split; [done|]. split.
    + intros tr' Ho. eapply closed_not_open; [apply builderBefore_ids|done|done].
    + apply closed_in_allClosed, list_elem_of_lookup in Htr as [i Hi].
      exists i. split; [done|]. apply elem_of_tracks. eauto.
  - intros first third. vm_compute. done.
Qed.

(** C10 (detection partition).  For every list of frame results the
    observations of the returned tracks, taken together, are the
    observations of the detections of the frames, each exactly once: no
    detection is dropped and none is used twice.  So the numbers of
    observations of the tracks add up to the number of detections. *)
Theorem detection_partition `{MathLib} (frames : list ActorDetectionResult)
    (eventId : string) :
  mjoin (observations <$> tracks (buildTracks frames eventId)) ≡ₚ
    frameObservationList frames
  ∧ sum_list_with (λ t, length (observations t)) (tracks (buildTracks frames eventId))
    = sum_list_with (λ f, length (actors f)) frames.
Proof.
  assert (Hperm : mjoin (observations <$> tracks (buildTracks frames eventId)) ≡ₚ
                  frameObservationList frames).
  { unfold buildTracks. simpl. rewrite Array_sort_perm.
    rewrite toActorTrack_observations. fold (allObservations (allClosed frames)).
    unfold allClosed. fold (builderTracks (fold_left processFrame (sortFrames frames) initialBuilder)).
    transitivity (frameObservationList (sortFrames frames)).
    - apply (builder_ind (λ fs b, allObservations (builderTracks b) ≡ₚ frameObservationList fs)).
      + done.
      + intros fs f b Hb. rewrite processFrame_observations, Hb.
        unfold frameObservationList. rewrite fmap_app, join_app. simpl.
        by rewrite app_nil_r.
    - unfold frameObservationList, sortFrames. by rewrite Array_sort_perm. }
  split; [done|].
  apply Permutation_length in Hperm.
  unfold frameObservationList in Hperm. rewrite !length_join_with in Hperm.
  rewrite Hperm. clear. induction frames as [|f frames IH]; simpl; [done|].
  by rewrite IH, length_fmap.
Qed.

(** C4, as stated, fails: two frames with the same timestamp and a car at the
    same place in both give one track whose two observations have the same
    timestamp. *)
Lemma strict_timestamps_counterexample :
  ∃ t, t ∈ tracks (@buildTracks ApproxMath repeatedFrames "event") ∧
       obs_timestamp <$> observations t = [1 # 2; 1 # 2] ∧
       ¬ strictlyIncreasing (obs_timestamp <$> observations t).
Proof.
  destruct (head (tracks (@buildTracks ApproxMath repeatedFrames "event")))
    as [t|] eqn:Hh; [|by vm_compute in Hh].
  exists t. split; [by apply head_Some_elem_of|].
  assert (Hts : obs_timestamp <$> observations t = [1 # 2; 1 # 2]).
  { apply (f_equal (fmap (λ t, obs_timestamp <$> observations t))) in Hh.
    vm_compute in Hh. by inversion Hh. }
  split; [done|]. rewrite Hts. intros Hs.
  apply StronglySorted_cons in Hs as [Hs _].
  apply Forall_cons in Hs as [Hs _]. by apply Qlt_irrefl in Hs.
Qed.

(** C4, amended (timestamps of a track).  For every list of frame results
    whose timestamps are pairwise distinct, given in any order, every track
    [buildTracks] returns has observations strictly increasing in
    timestamp. *)
Theorem observations_strictly_increasing `{MathLib}
    (frames : list ActorDetectionResult) (eventId : string) :
  distinctTimestamps frames →
  ∀ t, t ∈ tracks (buildTracks frames eventId) →
       strictlyIncreasing (obs_timestamp <$> observations t).
Proof.
  intros Hd t (i & tr & Htr & ->)%elem_of_tracks. simpl.
  pose proof (tracks_sorted Qlt (sortFrames frames) (sortFrames_strict frames Hd)) as Hs.
  rewrite Forall_forall in Hs. apply Hs. by eapply list_elem_of_lookup_2.
Qed.

Lemma observations_strictly_increasing_witness :
  distinctTimestamps overtakenFrames ∧
  Forall (λ t, strictlyIncreasing (obs_timestamp <$> observations t))
    (tracks (@buildTracks ApproxMath overtakenFrames "event")).
Proof.
  assert (Hd : distinctTimestamps overtakenFrames).
  { apply distinctTimestamps_intro. repeat constructor; by vm_compute. }
  split; [exact Hd|].
  apply Forall_forall.
  exact (@observations_strictly_increasing ApproxMath overtakenFrames "event" Hd).
Defined.

(** C5, as stated, fails: when a car is seen in three frames and a
    pedestrian in the second one only, the pedestrian's track is closed
    first and takes the first colour, the car's track the second one; the
    car was seen first, so the first track returned has the second colour. *)
Lemma color_order_counterexample :
  ∃ t, tracks (@buildTracks ApproxMath overtakenFrames "event") !! 0%nat = Some t ∧
       color t = "#ef4444"%string ∧
       TRACK_COLORS !! (0 mod 10)%nat = Some "#3b82f6"%string ∧
       TRACK_COLORS !! (0 mod 10)%nat ≠ Some (color t).
Proof.
  destruct (tracks (@buildTracks ApproxMath overtakenFrames "event") !! 0%nat)
    as [t|] eqn:Ht; [|by vm_compute in Ht].
  exists t. split; [done|].
  assert (Hc : color t = "#ef4444"%string).
  { apply (f_equal (fmap color)) in Ht. vm_compute in Ht. by inversion Ht. }
  rewrite Hc. repeat split; try done.
Qed.

(** C5, amended (colour assignment).  The tracks [buildTracks] returns are
    in the order of ascending [firstSeen].  They are the tracks of the
    closing order (the order in which the loop closed them, those still open
    after the last frame at the end), and the colour of each is the entry of
    the palette of ten colours at its index in the closing order, modulo
    ten. *)
Theorem color_by_closing_order `{MathLib} (frames : list ActorDetectionResult)
    (eventId : string) :
  StronglySorted (λ a b, firstSeen a <= firstSeen b) (tracks (buildTracks frames eventId))
  ∧ tracks (buildTracks frames eventId) ≡ₚ imap toActorTrack (allClosed frames)
  ∧ length TRACK_COLORS = 10%nat
  ∧ ∀ i tr, allClosed frames !! i = Some tr →
      TRACK_COLORS !! (i mod 10)%nat = Some (color (toActorTrack i tr)).
Proof.
  split; [|split; [|split]].
  - apply (Array_sort_sorted firstSeen).
  - apply Array_sort_perm.
  - done.
  - intros i tr _.
    change (color (toActorTrack i tr))
      with (default ""%string (TRACK_COLORS !! (i mod 10)%nat)).
    destruct (lookup_lt_is_Some_2 TRACK_COLORS (i mod 10)%nat) as [c Hc].
    { change (length TRACK_COLORS) with 10%nat. apply Nat.mod_upper_bound. lia. }
    by rewrite Hc.
Qed.

(** C6 (distance clamping).  Whenever the bounding box of a detected actor
    is projected to a world position, the estimated distance is first
    clamped to the range from 2 to 200 metres.  For every response of the
    vision model, each projected actor records the clamped distance of its
    raw actor and has for world position the destination point at the
    clamped distance; the clamped distance is exactly 2 for an estimate
    below 2, exactly 200 for an estimate above 200, and the estimate
    otherwise. *)
Theorem distance_clamping `{MathLib}
    (cameraLat cameraLon cameraBearing fovDegrees : Q)
    (cameraIntrinsics : option CameraIntrinsics) (frameWidth : Q)
    (rawActors : list RawActor) :
  Forall2
    (λ raw actor,
       ∃ clamped,
         2 <= clamped <= 200 ∧
         (raw_estimatedDistanceMeters raw < 2 → clamped = 2) ∧
         (200 < raw_estimatedDistanceMeters raw → clamped = 200) ∧
         (2 <= raw_estimatedDistanceMeters raw <= 200 →
          clamped == raw_estimatedDistanceMeters raw) ∧
         actor_estimatedDistanceMeters actor = clamped ∧
         actor_worldPosition actor =
           projectPoint cameraLat cameraLon
             (absoluteBearing (raw_bbox raw) cameraBearing (imageWidthOf frameWidth)
                fovDegrees
                ((λ c, {| focal := focal c; k1 := k1 c; k2 := k2 c |}) <$> cameraIntrinsics))
             clamped)
    rawActors
    (projectActors cameraLat cameraLon cameraBearing fovDegrees cameraIntrinsics
       frameWidth rawActors).
Proof.
  unfold projectActors. induction rawActors as [|raw rawActors IH]; simpl; constructor;
    [|exact IH].
  exists (JS.Math_max 2 (JS.Math_min 200 (raw_estimatedDistanceMeters raw))).
  destruct (clamp_range (raw_estimatedDistanceMeters raw)) as (? & ? & ? & ?).
  repeat split; try done; tauto.
Qed.

(** C7 (keyframe schedule).  For every video duration [computeKeyframes]
    returns (the loop ends, given enough fuel) the timestamps 0.5, 1.5, ...
    for as long as they are below [duration - 0.5], each rounded to a tenth
    of a second, and one more keyframe at [max(duration - 1, 0.5)], rounded
    to a tenth, exactly when that list is empty or its last timestamp is
    more than one second below [duration - 1].  Rounding to a tenth gives the
    nearest multiple of 0.1. *)
Theorem keyframe_schedule (duration : Q) :
  (∀ fuel, (keyframeFuel duration ≤ fuel)%nat →
           computeKeyframes_fuel fuel duration = Some (computeKeyframes duration))
  ∧ (∀ t, ∃ z : Z, roundTenth t = inject_Z z / 10 ∧
                   roundTenth t - (1 # 20) <= t ∧ t < roundTenth t + (1 # 20))
  ∧ ∃ n : nat,
      let regular :=
        (λ k : nat, roundTenth ((1 # 2) + inject_Z (Z.of_nat k) * 1)) <$> seq 0 n in
      let extra :=
        regular = [] ∨ ∃ l, last regular = Some l ∧ l < (duration - 1) - 1 in
      (∀ k, (k < n)%nat → (1 # 2) + inject_Z (Z.of_nat k) * 1 < duration - (1 # 2)) ∧
      ¬ ((1 # 2) + inject_Z (Z.of_nat n) * 1 < duration - (1 # 2)) ∧
      ((extra ∧
        computeKeyframes duration =
          regular ++ [roundTenth (Qmax (duration - 1) (1 # 2))])
       ∨ (¬ extra ∧ computeKeyframes duration = regular)).
Proof.
  split; [apply computeKeyframes_fuel_enough|]. split; [apply roundTenth_nearest|].
  destruct (keyframe_rounds duration) as (Hlt & Hge & Hfuel).
  set (n := Z.to_nat (Qceiling (duration - 1))) in *. exists n.
  unfold KEYFRAME_START in Hlt, Hge.
  assert (Hreg : (λ k : nat, roundTenth (KEYFRAME_START + inject_Z (Z.of_nat k))) <$> seq 0 n
               = (λ k : nat, roundTenth ((1 # 2) + inject_Z (Z.of_nat k) * 1)) <$> seq 0 n).
  { apply list_fmap_ext. intros _ k _. apply roundTenth_comp.
    unfold KEYFRAME_START. lra. }
  assert (Hck : computeKeyframes duration =
                addEndFrame duration
                  ((λ k : nat, roundTenth ((1 # 2) + inject_Z (Z.of_nat k) * 1)) <$> seq 0 n)).
  { unfold computeKeyframes, computeKeyframes_fuel.
    rewrite keyframeLoop_enough by done. fold n. by rewrite Hreg. }
  intros regular extra. fold regular in Hck.
  split; [intros k Hk; specialize (Hlt k Hk); lra|]. split; [lra|].
  destruct n as [|n'].
  - left. split; [by left|]. rewrite Hck. unfold addEndFrame. simpl.
    by rewrite Math_max_Qmax.
  - right.
    assert (Hlast : last regular = Some (roundTenth ((1 # 2) + inject_Z (Z.of_nat n') * 1))).
    { unfold regular. rewrite seq_S, fmap_app.
      change (?f <$> [(0 + n')%nat]) with [f n']. by rewrite last_snoc. }
    assert (Hl : roundTenth ((1 # 2) + inject_Z (Z.of_nat n') * 1)
                 == (1 # 2) + inject_Z (Z.of_nat n')).
    { rewrite (roundTenth_comp _ ((1 # 2) + inject_Z (Z.of_nat n'))) by lra.
      apply roundTenth_half. }
    assert (Hd : duration - 2 <= inject_Z (Z.of_nat n')).
    { rewrite Nat2Z.inj_succ, <- Z.add_1_r, inject_Z_plus in Hge.
      change (inject_Z 1) with 1 in Hge. lra. }
    split.
    + intros [Hnil|(l & Hl' & Hlt')].
      * apply (f_equal length) in Hnil. unfold regular in Hnil.
        rewrite length_fmap, length_seq in Hnil. simpl in Hnil. lia.
      * rewrite Hlast in Hl'. inversion Hl'; subst l. lra.
    + rewrite Hck. unfold addEndFrame. rewrite Hlast.
      assert (Hlen : (length regular =? 0)%nat = false).
      { unfold regular. by rewrite length_fmap, length_seq. }
      rewrite Hlen. simpl.
      assert (Hc : JS.ltb (roundTenth ((1 # 2) + inject_Z (Z.of_nat n') * 1))
                     (JS.Math_max (duration - 1) KEYFRAME_START - 1) = false).
      { apply ltb_ge. unfold JS.Math_max, KEYFRAME_START.
        assert (Hn0 : 0 <= inject_Z (Z.of_nat n')).
        { change 0 with (inject_Z 0). rewrite <- Zle_Qle. lia. }
        destruct (JS.ltb (duration - 1) (1 # 2)); lra. }
      by rewrite Hc.
Qed.

(** C8 (session cache validity).  [JSON.parse] rejects the empty string.
    Then for every run of [track]:
    - the run returns a cached session, without running the loop over the
      keyframes, if and only if the session cache entry of the event parses
      and the number of keyframe timestamps it stores is the number of
      keyframes computed for this request -- the timestamps themselves are
      not compared;
    - in that case the cached session becomes the tracking result, no
      request is sent and the storage is not written;
    - an entry that parses and stores another number of keyframe timestamps
      is removed, and the run goes on from the storage without it to
      compute the session anew. *)
Theorem session_cache_validity `{MathLib} `{Browser} (params : TrackParams) (h : Hook) :
  JSON_parse_session "" = None →
  let keyframes := computeKeyframes (p_videoDuration params) in
  let key := trackingCacheKey (p_eventId params) in
  (∀ cached,
     (track params h).1 = LoadedFromCache cached ↔
     ∃ stored, localStorage h !! key = Some stored ∧
               JSON_parse_session stored = Some cached ∧
               length (keyframeTimestamps cached) = length keyframes)
  ∧ (∀ cached,
       (track params h).1 = LoadedFromCache cached →
       trackingResult (track params h).2 = Some cached ∧
       progress (track params h).2 = Some
         {| currentFrame := length (keyframeTimestamps cached);
            totalFrames := length (keyframeTimestamps cached);
            status := st_done; message := "Loaded from cache" |} ∧
       isTracking (track params h).2 = false ∧
       requests (track params h).2 = requests h ∧
       localStorage (track params h).2 = localStorage h)
  ∧ (∀ stored cached,
       localStorage h !! key = Some stored →
       JSON_parse_session stored = Some cached →
       length (keyframeTimestamps cached) ≠ length keyframes →
       track params h =
         runTracking params keyframes
           (setLocalStorage (delete key (localStorage h)) (startedHook params h))).
Proof.
  intros Hempty keyframes key.
  assert (Hiff : ∀ cached,
            (track params h).1 = LoadedFromCache cached ↔
            cachedSession (p_eventId params) keyframes (startedHook params h) = Some cached).
  { intros cached.
    destruct (cachedSession (p_eventId params) keyframes (startedHook params h))
      as [c|] eqn:Hc.
    - rewrite (track_cached _ _ _ Hc). simpl. split; intros [= ->]; done.
    - rewrite (track_not_cached _ _ Hc). split; [|done].
      intros Hr. by apply runTracking_not_cached in Hr. }
  split; [|split].
  - intros cached. rewrite Hiff.
    exact (cachedSession_Some _ keyframes (startedHook params h) cached Hempty).
  - intros cached Hc. apply Hiff in Hc. by rewrite (track_cached _ _ _ Hc).
  - intros stored cached Hs Hp Hl.
    assert (Hne : stored ≠ ""%string) by (intros ->; congruence).
    apply String.eqb_neq in Hne.
    rewrite track_not_cached.
    + unfold dropStaleSession, getTruthyItem. simpl. fold key. by rewrite Hs, Hne, Hp.
    + unfold cachedSession, getTruthyItem. simpl. fold key. rewrite Hs, Hne, Hp.
      apply Nat.eqb_neq in Hl. fold keyframes. by rewrite Hl.
Qed.

Lemma session_cache_validity_witness :
  @JSON_parse_session ToyBrowser "" = None ∧
  (@track ApproxMath ToyBrowser (sampleParams 6) (hookWithSession "session-5")).1
    = LoadedFromCache (sampleSession 5) ∧
  @track ApproxMath ToyBrowser (sampleParams 7) (hookWithSession "session-5")
    = @runTracking ApproxMath ToyBrowser (sampleParams 7) (computeKeyframes 7)
        (setLocalStorage (delete (trackingCacheKey "event")
                            (localStorage (hookWithSession "session-5")))
           (startedHook (sampleParams 7) (hookWithSession "session-5"))).
Proof.
  assert (Hempty : @JSON_parse_session ToyBrowser "" = None) by reflexivity.
  split; [exact Hempty|]. split.
  - apply (proj1 (@session_cache_validity ApproxMath ToyBrowser (sampleParams 6)
                    (hookWithSession "session-5") Hempty)).
    exists "session-5"%string. repeat split; by vm_compute.
  - apply (proj2 (proj2 (@session_cache_validity ApproxMath ToyBrowser (sampleParams 7)
                           (hookWithSession "session-5") Hempty))
             "session-5"%string (sampleSession 5)); by vm_compute.
Defined.

(** C9 (a failing keyframe aborts the run).  Take a run of [track] that the
    session cache does not answer and in which the loop gets through the
    first [i] keyframes, gathering the frame results [gathered].  If the
    run is not aborted at keyframe [i], the frame cache has nothing for
    it, and its detection request is rejected or answered with a response
    that is not ok, then the run ends in the error state: the error and an
    error progress whose [currentFrame] is the number of frame results
    gathered (at most [i], and [i] itself when no response has a falsy
    body) are set, no tracking result is set, and the
    session cache entry is as the session cache check left it (as it was,
    or removed): no session is built or cached from the gathered frame
    results. *)
Theorem frame_failure_aborts `{MathLib} `{Browser} (params : TrackParams) (h : Hook)
    (i : nat) (t : Q) (gathered : list ActorDetectionResult) (h1 : Hook) :
  let keyframes := computeKeyframes (p_videoDuration params) in
  let key := trackingCacheKey (p_eventId params) in
  let h0 := dropStaleSession (p_eventId params) (startedHook params h) in
  cachedSession (p_eventId params) keyframes (startedHook params h) = None →
  keyframes !! i = Some t →
  keyframesLoop params (length keyframes) 0 (take i keyframes) [] h0
    = (LoopFinished, gathered, h1) →
  abortRequested i = false →
  getTruthyItem (frameCacheKey (p_eventId params) t) h1 ≫= JSON_parse_frame = None →
  requestFails (fetchDetectActors (detectRequest params t h1)) →
  ∃ message,
    awaitDetection t (detectRequest params t h1) = inl message ∧
    (track params h).1 = Failed message gathered ∧
    error (track params h).2 = Some message ∧
    progress (track params h).2 = Some
      {| currentFrame := length gathered; totalFrames := length keyframes;
         status := st_error; message := message |} ∧
    (length gathered ≤ i)%nat ∧
    ((∀ request, fetchDetectActors request ≠ ResponseOk (inr None)) →
     length gathered = i) ∧
    isTracking (track params h).2 = false ∧
    trackingResult (track params h).2 = trackingResult h ∧
    localStorage (track params h).2 !! key = localStorage h0 !! key ∧
    (localStorage h0 !! key = localStorage h !! key ∨ localStorage h0 !! key = None).
Proof.
  intros keyframes key h0 Hcache Hi Hprefix Habort Hmiss Hfail.
  destruct (requestFails_awaitDetection t _ Hfail) as [message Hmsg].
  exists message. split; [done|].
  destruct (keyframesLoop_preserves _ _ (p_eventId params) _ _ _ _ _ _ _ Hprefix)
    as (Hls1 & Htr1 & Hlen1).
  destruct (keyframesLoop_fails params (length keyframes) i t (drop (S i) keyframes)
              gathered h1 message Habort Hmiss Hmsg) as (h2 & Hrun2 & Hls2 & Htr2).
  assert (Hrun : keyframesLoop params (length keyframes) 0 keyframes [] h0
                 = (LoopThrew message, gathered, h2)).
  { rewrite <- (take_drop_middle keyframes i t Hi) at 2.
    rewrite keyframesLoop_app, Hprefix. simpl.
    rewrite length_take_le by (apply lookup_lt_Some in Hi; lia). exact Hrun2. }
  rewrite (track_not_cached _ _ Hcache). fold keyframes h0.
  unfold runTracking. rewrite Hrun. simpl.
  assert (Htr0 : trackingResult h0 = trackingResult h).
  { unfold h0, dropStaleSession. by repeat case_match. }
  repeat split; try done.
  - rewrite length_take in Hlen1. simpl in Hlen1. lia.
  - intros Hbody. rewrite (keyframesLoop_count _ _ _ _ _ _ _ _ Hbody Hprefix).
    rewrite length_take. apply lookup_lt_Some in Hi. simpl. lia.
  - by rewrite Htr2, Htr1.
  - rewrite Hls2. exact Hls1.
  - unfold h0, dropStaleSession.
    destruct (getTruthyItem (trackingCacheKey (p_eventId params)) (startedHook params h))
      as [stored|]; [|left; reflexivity].
    destruct (JSON_parse_session stored); [|left; reflexivity].
    right. simpl. apply lookup_delete_eq.
Qed.

Lemma frame_failure_aborts_witness :
  (@track ApproxMath ToyBrowser (sampleParams 3) emptyHook).1
    = Failed "Claude API error: overloaded"
        [sampleFrame (5 # 10) [sampleActor "car" "red sedan"]] ∧
  progress (@track ApproxMath ToyBrowser (sampleParams 3) emptyHook).2 = Some
    {| currentFrame := 1; totalFrames := 2; status := st_error;
       message := "Claude API error: overloaded" |}.
Proof.
  pose (h0 := @dropStaleSession ToyBrowser "event" (startedHook (sampleParams 3) emptyHook)).
  pose (run := @keyframesLoop ToyBrowser (sampleParams 3) 2 0 [5 # 10] [] h0).
  destruct (@frame_failure_aborts ApproxMath ToyBrowser (sampleParams 3) emptyHook
              1%nat (15 # 10) run.1.2 run.2)
    as (message & Hmsg & Hexit & _ & Hprogress & _).
  - by vm_compute.
  - by vm_compute.
  - by vm_compute.
  - reflexivity.
  - by vm_compute.
  - right. by exists 500%nat, (inr (Some "Claude API error: overloaded"%string)).
  - assert (Hm : message = "Claude API error: overloaded"%string).
    { vm_compute in Hmsg. by inversion Hmsg. }
    subst message. split; [exact Hexit|exact Hprogress].
Defined.

(* ================================================================= *)
(** * Further properties of the code *)

(* ================================================================= *)
(** ** Label similarity *)

Lemma split_go_nonempty s piece inRun : JS.split_go s piece inRun ≠ [].
Proof.
  revert piece inRun. induction s as [|c s IH]; intros piece inRun; simpl; [done|].
  destruct (JS.is_space c); [|apply IH]. destruct inRun; [apply IH|done].
Qed.

Lemma labelWords_nonempty s : (0 < size (labelWords s))%nat.
Proof.
  unfold labelWords, JS.split_spaces.
  destruct (JS.split_go (JS.toLowerCase s) EmptyString false) as [|w l] eqn:Hs.
  { by apply split_go_nonempty in Hs. }
  assert (Hne : size (list_to_set (C:=gset string) (w :: l)) ≠ 0%nat); [|lia].
  apply size_non_empty_iff. intros He.
  apply (not_elem_of_empty (C:=gset string) w). rewrite <- He.
  apply elem_of_list_to_set. left.
Qed.

Lemma overlap_size (A B : gset string) :
  length (filter (λ w, w ∈ B) (elements A)) = size (A ∩ B).
Proof.
  unfold size, set_size. simpl. apply Permutation_length.
  apply NoDup_Permutation.
  - apply NoDup_filter, NoDup_elements.
  - apply NoDup_elements.
  - intros w. rewrite list_elem_of_filter, !elem_of_elements, elem_of_intersection. tauto.
Qed.

(** The similarity of two labels, as a formula over their sets of words. *)
Lemma labelSimilarity_formula a b :
  labelSimilarity a b =
  inject_Z (Z.of_nat (size (labelWords a ∩ labelWords b))) /
  inject_Z (Z.of_nat (size (labelWords a ∪ labelWords b))).
Proof.
  unfold labelSimilarity. fold (labelWords a) (labelWords b).
  pose proof (labelWords_nonempty a) as Ha.
  assert (Hu : (0 < size (labelWords a ∪ labelWords b))%nat).
  { eapply Nat.lt_le_trans; [exact Ha|]. apply subseteq_size, union_subseteq_l. }
  destruct (size (labelWords a)) as [|n] eqn:Hn; [lia|]. simpl.
  destruct (size (labelWords a ∪ labelWords b)) as [|m] eqn:Hm; [lia|]. simpl.
  by rewrite overlap_size.
Qed.

Lemma ratio_bounds (n m : nat) :
  (n ≤ m)%nat → (0 < m)%nat →
  0 <= inject_Z (Z.of_nat n) / inject_Z (Z.of_nat m) <= 1.
Proof.
  intros Hnm Hm.
  assert (Hm' : 0 < inject_Z (Z.of_nat m)).
  { change 0 with (inject_Z 0). rewrite <- Zlt_Qlt. lia. }
  assert (Hn' : 0 <= inject_Z (Z.of_nat n)).
  { change 0 with (inject_Z 0). rewrite <- Zle_Qle. lia. }
  assert (Hle : inject_Z (Z.of_nat n) <= inject_Z (Z.of_nat m)).
  { rewrite <- Zle_Qle. lia. }
  split.
  - apply Qle_shift_div_l; [done|]. lra.
  - apply Qle_shift_div_r; [done|]. lra.
Qed.


(** X1 (range).  The similarity of two labels is a number from 0 to 1. *)
Theorem labelSimilarity_range (a b : string) : 0 <= labelSimilarity a b <= 1.
Proof.
  rewrite labelSimilarity_formula.
  pose proof (labelWords_nonempty a) as Ha.
  apply ratio_bounds.
  - apply subseteq_size. intros w Hw. apply elem_of_intersection in Hw as [Hw _].
    by apply elem_of_union_l.
  - eapply Nat.lt_le_trans; [exact Ha|]. apply subseteq_size, union_subseteq_l.
Qed.

(** X2 (symmetry).  The similarity does not depend on the order of the two
    labels. *)
Theorem labelSimilarity_sym (a b : string) : labelSimilarity a b = labelSimilarity b a.
Proof.
  rewrite !labelSimilarity_formula.
  by rewrite (comm_L (∩) (labelWords a)), (comm_L (∪) (labelWords a)).
Qed.


(* ================================================================= *)
(** ** The greedy matching of a frame *)

Section GreedyFacts.
Context `{MathLib}.

Lemma buildCandidates_complete (open0 : list OpenTrack)
    (obsList : list (DetectedActor * ActorObservation)) ti oi track actor obs :
  open0 !! ti = Some track → obsList !! oi = Some (actor, obs) →
  actor_type actor = ot_type track →
  JS.ltb MAX_MATCH_DISTANCE_M (trackDistance track obs) = false →
  ∃ c, c ∈ buildCandidates open0 obsList ∧ trackIdx c = ti ∧ obsIdx c = oi.
Proof.
  intros Ht Ho Hty Hd.
  exists {| trackIdx := ti; obsIdx := oi;
            cost := trackDistance track obs
                    - labelSimilarity (ot_label track) (actor_label actor)
                      * LABEL_SIMILARITY_WEIGHT * MAX_MATCH_DISTANCE_M |}.
  split; [|done].
  unfold buildCandidates. apply list_elem_of_join.
  exists (mjoin (imap (λ oi ao, candidateOf ti track oi ao) obsList)). split.
  - apply list_elem_of_join. exists (candidateOf ti track oi (actor, obs)). split.
    + unfold candidateOf. rewrite Hty, String.eqb_refl. simpl. rewrite Hd.
      apply list_elem_of_here.
    + apply (elem_of_lookup_imap_2 (λ oi ao, candidateOf ti track oi ao) _ _ _ Ho).
  - apply (elem_of_lookup_imap_2
             (λ ti track, mjoin (imap (λ oi ao, candidateOf ti track oi ao) obsList))
             _ _ _ Ht).
Qed.

Lemma assignCandidate_covers obsList m c :
  let m' := assignCandidate obsList m c in
  matched m ⊆ matched m' ∧ usedObs m ⊆ usedObs m' ∧
  (trackIdx c ∈ matched m' ∨ obsIdx c ∈ usedObs m') ∧
  (size (matched m) = size (usedObs m) → size (matched m') = size (usedObs m')).
Proof.
  unfold assignCandidate.
  destruct (bool_decide (trackIdx c ∈ matched m)) eqn:Hm; simpl.
  { apply bool_decide_eq_true in Hm. auto. }
  destruct (bool_decide (obsIdx c ∈ usedObs m)) eqn:Hu; simpl.
  { apply bool_decide_eq_true in Hu. auto. }
  apply bool_decide_eq_false in Hm, Hu.
  repeat split.
  - apply union_subseteq_r.
  - apply union_subseteq_r.
  - left. apply elem_of_union_l. by apply elem_of_singleton.
  - intros Hsz. rewrite !size_union, !size_singleton, Hsz; [done| |].
    + intros x ->%elem_of_singleton. done.
    + intros x ->%elem_of_singleton. done.
Qed.

Lemma fold_assign_covers obsList cs m :
  let m' := fold_left (assignCandidate obsList) cs m in
  matched m ⊆ matched m' ∧ usedObs m ⊆ usedObs m' ∧
  (∀ c, c ∈ cs → trackIdx c ∈ matched m' ∨ obsIdx c ∈ usedObs m') ∧
  (size (matched m) = size (usedObs m) → size (matched m') = size (usedObs m')).
Proof.
  revert m. induction cs as [|c cs IH]; intros m; simpl.
  - repeat split; try done. by intros c ?%elem_of_nil.
  - destruct (assignCandidate_covers obsList m c) as (Hm & Hu & Hc & Hs).
    destruct (IH (assignCandidate obsList m c)) as (Hm' & Hu' & Hc' & Hs').
    repeat split.
    + by etrans.
    + by etrans.
    + intros c' [->|Hin]%elem_of_cons; [|by apply Hc'].
      destruct Hc as [Hc|Hc]; [left; by apply Hm'|right; by apply Hu'].
    + auto.
Qed.

(** Once a track is matched the loop does not touch it again. *)
Lemma fold_assign_stable obsList cs m ti :
  ti ∈ matched m →
  m_openTracks (fold_left (assignCandidate obsList) cs m) !! ti = m_openTracks m !! ti.
Proof.
  revert m. induction cs as [|c cs IH]; intros m Hti; simpl; [done|].
  destruct (assignCandidate_covers obsList m c) as (Hm & _).
  rewrite IH by (by apply Hm).
  unfold assignCandidate.
  destruct (bool_decide (trackIdx c ∈ matched m)) eqn:Hc; simpl; [done|].
  destruct (bool_decide (obsIdx c ∈ usedObs m)); simpl; [done|].
  apply bool_decide_eq_false in Hc.
  destruct (obsList !! obsIdx c) as [[a o]|]; [|done].
  apply list_lookup_alter_ne. intros Heq. apply Hc. by rewrite Heq.
Qed.

End GreedyFacts.

(** X4 (maximal matching).  The greedy loop of a frame pairs tracks and
    detections one to one, and leaves no pair that passes both gates with
    its track unmatched and its detection unused: a track is closed only
    when every compatible detection went to another track, and a detection
    starts a track only when every compatible track took another
    detection. *)
Theorem greedy_matching_maximal `{MathLib} (b : Builder) (frame : ActorDetectionResult) :
  size (matched (frameMatching b frame)) = size (usedObs (frameMatching b frame))
  ∧ ∀ ti oi track actor,
      openTracks b !! ti = Some track → actors frame !! oi = Some actor →
      actor_type actor = ot_type track →
      trackDistance track (observationOf frame actor) <= MAX_MATCH_DISTANCE_M →
      ti ∈ matched (frameMatching b frame) ∨ oi ∈ usedObs (frameMatching b frame).
Proof.
  unfold frameMatching, greedyAssign.
  destruct (fold_assign_covers (frameObservations frame)
              (sortCandidates (buildCandidates (openTracks b) (frameObservations frame)))
              {| matched := ∅; usedObs := ∅; m_openTracks := openTracks b |})
    as (_ & _ & Hc & Hs).
  split; [by apply Hs|].
  intros ti oi track actor Ht Ha Hty Hd.
  destruct (buildCandidates_complete (openTracks b) (frameObservations frame)
              ti oi track actor (observationOf frame actor)) as (c & Hin & <- & <-);
    try done.
  - unfold frameObservations. by rewrite list_lookup_fmap, Ha.
  - by apply ltb_ge.
  - apply Hc. unfold sortCandidates. by rewrite Array_sort_elem_of.
Qed.

(** X5 (cheapest pair first).  The candidate of lowest cost of a frame (the
    first one after the sort) is always assigned: its track receives the
    observation of its detection. *)
Theorem cheapest_candidate_assigned `{MathLib} (b : Builder)
    (frame : ActorDetectionResult) (c : Candidate) :
  head (frameCandidates b frame) = Some c →
  Forall (λ c', cost c <= cost c') (frameCandidates b frame) ∧
  ∃ track actor,
    openTracks b !! trackIdx c = Some track ∧
    actors frame !! obsIdx c = Some actor ∧
    m_openTracks (frameMatching b frame) !! trackIdx c =
      Some (appendObservation (observationOf frame actor) track).
Proof.
  intros Hhead.
  pose proof (frameCandidates_valid b frame) as Hvalid.
  assert (Hsorted : StronglySorted (λ a b, cost a <= cost b) (frameCandidates b frame))
    by apply (Array_sort_sorted cost).
  assert (Hm : frameMatching b frame =
               greedyAssign (frameObservations frame) (openTracks b) (frameCandidates b frame))
    by done.
  destruct (frameCandidates b frame) as [|c0 rest]; [done|].
  simpl in Hhead. inversion Hhead; subst c0.
  apply StronglySorted_cons in Hsorted as [Hle _].
  split; [constructor; [apply Qle_refl|done]|].
  apply Forall_cons in Hvalid as [(track & actor & obs & Ht & Ho & _ & _) _].
  pose proof Ho as Ho'. apply frameObservations_lookup in Ho' as [Ha ->].
  exists track, actor. split; [done|]. split; [done|].
  assert (Hfirst :
    assignCandidate (frameObservations frame)
      {| matched := ∅; usedObs := ∅; m_openTracks := openTracks b |} c =
    {| matched := {[trackIdx c]} ∪ ∅; usedObs := {[obsIdx c]} ∪ ∅;
       m_openTracks :=
         alter (appendObservation (observationOf frame actor)) (trackIdx c) (openTracks b) |}).
  { unfold assignCandidate. cbn [matched usedObs m_openTracks].
    rewrite !bool_decide_false by apply not_elem_of_empty. by rewrite Ho. }
  rewrite Hm. unfold greedyAssign. cbn [fold_left]. rewrite Hfirst.
  rewrite fold_assign_stable.
  - cbn [m_openTracks]. by rewrite list_lookup_alter_eq, Ht.
  - cbn [matched]. apply elem_of_union_l. by apply elem_of_singleton.
Qed.

Lemma cheapest_candidate_assigned_witness :
  ∃ track,
    m_openTracks
      (@frameMatching ApproxMath (@builderBefore ApproxMath overtakenFrames 1)
         (sampleFrame (3 # 2) [sampleActor "car" "red sedan";
                               sampleActor "pedestrian" "person crossing"])) !! 0%nat
    = Some track ∧ length (ot_observations track) = 2%nat.
Proof.
  destruct (@cheapest_candidate_assigned ApproxMath
              (@builderBefore ApproxMath overtakenFrames 1)
              (sampleFrame (3 # 2) [sampleActor "car" "red sedan";
                                    sampleActor "pedestrian" "person crossing"])
              {| trackIdx := 0; obsIdx := 0; cost := -2700 # 300 |})
    as (_ & track & actor & Ht & _ & Hm).
  - by vm_compute.
  - eexists. split; [exact Hm|].
    vm_compute in Ht. inversion Ht; subst track. reflexivity.
Defined.

(* ================================================================= *)
(** ** The sort, and the result of [buildTracks] *)

(** Sorting by a numeric key an array that is already in ascending order
    of the key returns it unchanged: elements of equal key keep their
    order. *)
Lemma Array_sort_sorted_id {A} (key : A → Q) (l : list A) :
  StronglySorted (λ a b, key a <= key b) l →
  JS.Array_sort (λ a b, key a - key b) l = l.
Proof.
  induction 1 as [|x l Hs IH Hx]; simpl; [done|].
  rewrite IH. destruct l as [|y l']; [done|]. simpl.
  apply Forall_cons in Hx as [Hxy _].
  assert (Hc : JS.ltb 0 (key x - key y) = false) by (apply ltb_ge; lra).
  by rewrite Hc.
Qed.

Lemma join_imap_nil {A B} (f : nat → A → list B) (l : list A) :
  (∀ i x, f i x = []) → mjoin (imap f l) = [].
Proof.
  revert f. induction l as [|x l IH]; intros f Hf; simpl; [done|].
  rewrite Hf. simpl. apply IH. intros i y. apply Hf.
Qed.

Lemma selectIdx_all {A} (P : nat → bool) (l : list A) :
  (∀ i, P i = true) → selectIdx P l = l.
Proof.
  intros HP. induction l as [|x l IH] using rev_ind; [done|].
  by rewrite selectIdx_snoc, IH, HP.
Qed.

Lemma selectIdx_none {A} (P : nat → bool) (l : list A) :
  (∀ i, P i = false) → selectIdx P l = [].
Proof.
  intros HP. induction l as [|x l IH] using rev_ind; [done|].
  by rewrite selectIdx_snoc, IH, HP.
Qed.

Lemma freshTracks_all oi rest nid :
  freshTracks ∅ oi rest nid = imap (λ i ao, newTrack (nid + i) ao.1 ao.2) rest.
Proof.
  revert oi nid. induction rest as [|[actor obs] rest IH]; intros oi nid; simpl; [done|].
  rewrite Nat.add_0_r. f_equal. rewrite IH. apply imap_ext. intros i ao _. simpl.
  f_equal. lia.
Qed.

(** X6 (a frame without detections).  A frame with no detection closes every
    open track -- the closed list gains the open tracks, last one first --
    and starts none. *)
Theorem empty_frame_closes_all `{MathLib} (b : Builder) (frame : ActorDetectionResult) :
  actors frame = [] →
  processFrame b frame =
    {| openTracks := [];
       closedTracks := closedTracks b ++ reverse (openTracks b);
       nextId := nextId b |}.
Proof.
  intros Hempty.
  assert (Hobs : frameObservations frame = []) by (unfold frameObservations; by rewrite Hempty).
  assert (Hm : frameMatching b frame =
               {| matched := ∅; usedObs := ∅; m_openTracks := openTracks b |}).
  { unfold frameMatching. rewrite Hobs. unfold buildCandidates.
    by rewrite join_imap_nil. }
  rewrite processFrame_spec. simpl. rewrite Hm, Hobs. simpl.
  rewrite selectIdx_none by done. rewrite selectIdx_all by done.
  by rewrite Nat.add_0_r.
Qed.

Lemma empty_frame_closes_all_witness :
  openTracks (@processFrame ApproxMath (@builderBefore ApproxMath overtakenFrames 2)
                (sampleFrame (5 # 2) [])) = [] ∧
  length (closedTracks (@processFrame ApproxMath (@builderBefore ApproxMath overtakenFrames 2)
                          (sampleFrame (5 # 2) []))) = 2%nat.
Proof.
  rewrite (@empty_frame_closes_all ApproxMath (@builderBefore ApproxMath overtakenFrames 2)
             (sampleFrame (5 # 2) []) eq_refl).
  split; [reflexivity|]. by vm_compute.
Defined.

Lemma imap_imap_comp {A B C} (f : nat → B → C) (g : nat → A → B) (l : list A) :
  imap f (imap g l) = imap (λ i a, f i (g i a)) l.
Proof.
  apply list_eq. intros i. rewrite !list_lookup_imap. by destruct (l !! i).
Qed.

Lemma imap_constant_key {A} (f : nat → A → ActorTrack) (q : Q) (l : list A) :
  (∀ i a, firstSeen (f i a) = q) →
  StronglySorted (λ a b, firstSeen a <= firstSeen b) (imap f l).
Proof.
  revert f. induction l as [|a l IH]; intros f Hf; simpl; constructor.
  - apply IH. intros i a'. apply (Hf (S i)).
  - apply Forall_forall. intros t (i & a' & -> & _)%elem_of_lookup_imap.
    unfold compose. rewrite !Hf. apply Qle_refl.
Qed.

(** X7 (a single frame).  For a single frame result [buildTracks] returns one
    track for each detection, in the order of the detections: the track of
    the detection at index [i] is [track-(i+1)], has the type and the label
    of the detection, the colour of index [i] and the one observation of
    the detection, so that [firstSeen] and [lastSeen] are both the timestamp
    of the frame. *)
Theorem single_frame_tracks `{MathLib} (frame : ActorDetectionResult) (eventId : string) :
  tracks (buildTracks [frame] eventId) =
    imap (λ i actor,
            {| trackId := "track-" +:+ pretty (S i);
               track_type := actor_type actor;
               track_label := actor_label actor;
               color := default EmptyString (TRACK_COLORS !! (i mod 10)%nat);
               observations := [observationOf frame actor];
               firstSeen := timestamp frame;
               lastSeen := timestamp frame |})
         (actors frame).
Proof.
  assert (Hclosed : allClosed [frame] =
            imap (λ i actor, newTrack (S i) actor (observationOf frame actor)) (actors frame)).
  { unfold allClosed, sortFrames. simpl JS.Array_sort. cbn [fold_left].
    rewrite processFrame_spec.
    assert (Hm : frameMatching initialBuilder frame =
                 {| matched := ∅; usedObs := ∅; m_openTracks := [] |}) by done.
    rewrite Hm. simpl. rewrite freshTracks_all.
    unfold frameObservations. rewrite imap_fmap. apply imap_ext. by intros i a _. }
  unfold buildTracks. simpl tracks. rewrite Hclosed, imap_imap_comp.
  rewrite Array_sort_sorted_id.
  - apply imap_ext. by intros i a _.
  - by apply (imap_constant_key _ (timestamp frame)).
Qed.

Lemma builder_ids_seq `{MathLib} fs :
  let b := fold_left processFrame fs initialBuilder in
  (1 ≤ nextId b)%nat ∧
  ot_trackId <$> builderTracks b ≡ₚ
    (λ k, "track-" +:+ pretty k) <$> seq 1 (nextId b - 1).
Proof.
  apply (builder_ind (λ _ b, (1 ≤ nextId b)%nat ∧
           ot_trackId <$> builderTracks b ≡ₚ
             (λ k, "track-" +:+ pretty k) <$> seq 1 (nextId b - 1))).
  - split; [simpl; lia|]. by simpl.
  - clear fs. intros _ f b [Hn Hb].
    pose proof (processFrame_nextId b f) as Hle. split; [lia|].
    rewrite processFrame_ids, Hb, <- fmap_app.
    replace (nextId (processFrame b f) - 1)%nat
      with ((nextId b - 1) + (nextId (processFrame b f) - nextId b))%nat by lia.
    rewrite seq_app. by replace (1 + (nextId b - 1))%nat with (nextId b) by lia.
Qed.

Lemma toActorTrack_ids (l : list OpenTrack) :
  trackId <$> imap toActorTrack l = ot_trackId <$> l.
Proof.
  apply list_eq. intros i. rewrite !list_lookup_fmap, list_lookup_imap.
  by destruct (l !! i).
Qed.

(** X8 (track identifiers).  The identifiers of the tracks that
    [buildTracks] returns are [track-1], ..., [track-n] for the number [n]
    of returned tracks, each borne by one track. *)
Theorem track_ids `{MathLib} (frames : list ActorDetectionResult) (eventId : string) :
  trackId <$> tracks (buildTracks frames eventId) ≡ₚ
    (λ k, "track-" +:+ pretty k) <$> seq 1 (length (tracks (buildTracks frames eventId)))
  ∧ NoDup (trackId <$> tracks (buildTracks frames eventId)).
Proof.
  assert (Hids : trackId <$> tracks (buildTracks frames eventId) ≡ₚ
                 ot_trackId <$> allClosed frames).
  { unfold buildTracks. simpl. by rewrite Array_sort_perm, toActorTrack_ids. }
  destruct (builder_ids_seq (sortFrames frames)) as [Hn Hb]. simpl in Hb.
  fold (allClosed frames) in Hb.
  set (n := (nextId (fold_left processFrame (sortFrames frames) initialBuilder) - 1)%nat) in *.
  assert (Hlen : length (tracks (buildTracks frames eventId)) = n).
  { rewrite <- (length_fmap trackId), Hids, Hb. by rewrite length_fmap, length_seq. }
  rewrite Hlen. split; [by rewrite Hids|].
  rewrite Hids, Hb. apply NoDup_fmap_2; [|apply NoDup_seq].
  intros j k Hjk. by apply (inj (String.append "track-")), (inj pretty) in Hjk.
Qed.

(** X9 (span of a track).  Every track that [buildTracks] returns has at
    least one observation; [firstSeen] is the timestamp of its first
    observation, [lastSeen] the one of its last, and the timestamps of all
    its observations lie between the two. *)
Theorem track_span `{MathLib} (frames : list ActorDetectionResult) (eventId : string) :
  Forall (λ t, ∃ o1 o2,
            head (observations t) = Some o1 ∧ last (observations t) = Some o2 ∧
            firstSeen t = obs_timestamp o1 ∧ lastSeen t = obs_timestamp o2 ∧
            Forall (λ o, firstSeen t <= obs_timestamp o <= lastSeen t) (observations t))
    (tracks (buildTracks frames eventId)).
Proof.
  apply Forall_forall. intros t Ht.
  pose proof (observations_nondecreasing frames eventId t Ht) as Hs.
  apply elem_of_tracks in Ht as (i & tr & Htr & ->). simpl in *.
  apply list_elem_of_lookup_2, allClosed_ok in Htr. destruct Htr as [Hlast _ _].
  destruct (ot_observations tr) as [|o1 l] eqn:Hobs; [done|].
  exists o1, (ot_lastObservation tr). simpl. repeat split; try done.
  { by rewrite Hlast. }
  rewrite Hlast. simpl. rewrite fmap_cons in Hs.
  apply Forall_forall. intros o Ho. split.
  - apply elem_of_cons in Ho as [->|Ho]; [apply Qle_refl|].
    apply StronglySorted_inv in Hs as [_ Hall]. rewrite Forall_forall in Hall.
    apply Hall. by apply list_elem_of_fmap_2.
  - rewrite <- fmap_cons in Hs.
    destruct (proj1 (last_Some _ _) Hlast) as [l' Hl']. rewrite Hl' in Hs, Ho.
    apply elem_of_app in Ho as [Ho|Ho%list_elem_of_singleton]; [|subst o; apply Qle_refl].
    rewrite fmap_app in Hs. apply StronglySorted_app in Hs as (Hall & _ & _).
    apply Hall; [by apply list_elem_of_fmap_2|]. simpl. apply list_elem_of_singleton. done.
Qed.

(** X10 (the frames of the result).  The result carries the frames of the
    input in ascending order of their timestamps -- frames of equal
    timestamp in the order of the input --, the list of these timestamps,
    and the event identifier as given. *)
Theorem result_frames `{MathLib} (frames : list ActorDetectionResult) (event : string) :
  let r := buildTracks frames event in
  frameResults r ≡ₚ frames ∧
  StronglySorted (λ f g, timestamp f <= timestamp g) (frameResults r) ∧
  keyframeTimestamps r = timestamp <$> frameResults r ∧
  StronglySorted Qle (keyframeTimestamps r) ∧
  eventId r = event ∧
  (StronglySorted (λ f g, timestamp f <= timestamp g) frames → frameResults r = frames).
Proof.
  simpl. unfold sortFrames. repeat split.
  - apply Array_sort_perm.
  - apply (Array_sort_sorted timestamp).
  - pose proof (Array_sort_sorted timestamp frames) as Hs.
    induction Hs as [|f l Hs IH Hf]; simpl; constructor; [done|].
    by apply Forall_fmap.
  - apply Array_sort_sorted_id.
Qed.

Lemma sorted_unique {A} (key : A → Q) (l1 l2 : list A) :
  StronglySorted (λ a b, key a < key b) l1 →
  StronglySorted (λ a b, key a <= key b) l2 →
  l1 ≡ₚ l2 → l1 = l2.
Proof.
  intros Hs1. revert l2. induction Hs1 as [|x l1 Hs1 IH Hx]; intros l2 Hs2 Hp.
  - by apply Permutation_nil_l in Hp.
  - destruct l2 as [|y l2]; [by apply Permutation_nil_r in Hp|].
    apply StronglySorted_inv in Hs2 as [Hs2 Hy].
    rewrite Forall_forall in Hx, Hy.
    assert (Hxy : x = y).
    { assert (Hyin : y ∈ x :: l1) by (rewrite Hp; apply elem_of_cons; by left).
      assert (Hxin : x ∈ y :: l2) by (rewrite <- Hp; apply elem_of_cons; by left).
      apply elem_of_cons in Hyin as [->|Hyin]; [done|].
      apply elem_of_cons in Hxin as [->|Hxin]; [done|].
      specialize (Hx y Hyin). specialize (Hy x Hxin). lra. }
    subst y. f_equal. apply IH; [done|]. by apply Permutation_cons_inv in Hp.
Qed.

(** X11 (order of the input).  When the timestamps of the frame results are
    pairwise distinct, the result of [buildTracks] does not depend on the
    order in which they are given. *)
Theorem order_independence `{MathLib} (frames frames' : list ActorDetectionResult)
    (eventId : string) :
  distinctTimestamps frames → frames' ≡ₚ frames →
  buildTracks frames' eventId = buildTracks frames eventId.
Proof.
  intros Hd Hp.
  assert (Hsort : sortFrames frames = sortFrames frames').
  { apply (sorted_unique timestamp).
    - by apply sortFrames_strict.
    - apply (Array_sort_sorted timestamp).
    - unfold sortFrames. by rewrite !Array_sort_perm. }
  unfold buildTracks, allClosed. by rewrite Hsort.
Qed.

Lemma order_independence_witness :
  @buildTracks ApproxMath (reverse overtakenFrames) "event" =
  @buildTracks ApproxMath overtakenFrames "event".
Proof.
  apply (@order_independence ApproxMath overtakenFrames (reverse overtakenFrames) "event").
  - apply distinctTimestamps_intro. repeat constructor; by vm_compute.
  - apply reverse_Permutation.
Defined.

(* ================================================================= *)
(** ** The number of tracks *)

Lemma selectIdx_length_set {A} (M : gset nat) (l : list A) :
  (∀ i, i ∈ M → (i < length l)%nat) →
  length (selectIdx (λ i, bool_decide (i ∈ M)) l) = size M.
Proof.
  revert M. induction l as [|x l IH] using rev_ind; intros M HM.
  - simpl. symmetry. apply size_empty_iff, elem_of_equiv_empty.
    intros i Hi. apply HM in Hi. simpl in Hi. lia.
  - rewrite selectIdx_snoc, length_app.
    rewrite (selectIdx_ext _ (λ i, bool_decide (i ∈ M ∖ {[length l]})) l).
    2:{ intros i Hi. apply bool_decide_ext. rewrite elem_of_difference, elem_of_singleton.
        split; [intros ?; split; [done|lia]|by intros [? _]]. }
    rewrite IH.
    2:{ intros i [Hi Hne]%elem_of_difference. apply HM in Hi.
        rewrite length_app in Hi. simpl in Hi. rewrite elem_of_singleton in Hne. lia. }
    destruct (decide (length l ∈ M)) as [Hin|Hnot].
    + rewrite bool_decide_true by done. simpl.
      rewrite size_difference by (by apply singleton_subseteq_l).
      rewrite size_singleton.
      assert (size M ≠ 0%nat).
      { intros Hz. apply size_empty_iff in Hz.
        exact (proj1 (elem_of_equiv_empty M) Hz (length l) Hin). }
      lia.
    + rewrite bool_decide_false by done. simpl. rewrite Nat.add_0_r. f_equal.
      apply set_eq. intros i. rewrite elem_of_difference, elem_of_singleton.
      split; [by intros [? _]|]. intros Hi. split; [done|]. by intros ->.
Qed.

Lemma freshTracks_length (U : gset nat) oi rest nid :
  length (freshTracks U oi rest nid) =
  length (selectIdx (λ i, negb (bool_decide ((oi + i)%nat ∈ U))) rest).
Proof.
  revert oi nid. induction rest as [|[actor obs] rest IH]; intros oi nid; [done|].
  rewrite selectIdx_cons, length_app. simpl freshTracks.
  rewrite Nat.add_0_r.
  rewrite (selectIdx_ext _ (λ i, negb (bool_decide ((S oi + i)%nat ∈ U))) rest).
  2:{ intros i _. by replace (oi + S i)%nat with (S oi + i)%nat by lia. }
  destruct (bool_decide (oi ∈ U)); simpl; by rewrite IH.
Qed.

Section TrackCount.
Context `{MathLib}.

(** After a frame, the open tracks are at least as many as its detections. *)
Lemma processFrame_open_count b frame :
  (length (actors frame) ≤ length (openTracks (processFrame b frame)))%nat.
Proof.
  rewrite processFrame_spec. simpl. rewrite length_app.
  pose proof (frameMatching_inv b frame) as [Hlen Hun Hma Hus _].
  set (m := frameMatching b frame) in *.
  assert (Hsize : size (matched m) = size (usedObs m)).
  { unfold m, frameMatching, greedyAssign.
    by apply (fold_assign_covers (frameObservations frame)). }
  rewrite selectIdx_length_set.
  2:{ intros i Hi. destruct (Hma i Hi) as (_ & track & _ & _ & Ht & _).
      rewrite Hlen. by apply lookup_lt_Some in Ht. }
  rewrite freshTracks_length.
  pose proof (selectIdx_partition (λ i, bool_decide (i ∈ usedObs m))
                (frameObservations frame)) as Hp.
  apply Permutation_length in Hp. rewrite length_app in Hp.
  rewrite selectIdx_length_set in Hp by done.
  assert (Hobs : length (frameObservations frame) = length (actors frame)).
  { unfold frameObservations. by rewrite length_fmap. }
  simpl. lia.
Qed.

Lemma builder_length fs :
  let b := fold_left processFrame fs initialBuilder in
  S (length (builderTracks b)) = nextId b.
Proof.
  destruct (builder_ids_seq fs) as [Hn Hp]. simpl.
  apply Permutation_length in Hp. rewrite !length_fmap, length_seq in Hp. lia.
Qed.

Lemma builder_count fs :
  let b := fold_left processFrame fs initialBuilder in
  (nextId b - 1 ≤ sum_list_with (λ f, length (actors f)) fs)%nat ∧
  Forall (λ f, (length (actors f) ≤ nextId b - 1)%nat) fs.
Proof.
  induction fs as [|f fs IH] using rev_ind; [simpl; split; [lia|constructor]|].
  pose proof (builder_length (fs ++ [f])) as Hlen.
  rewrite fold_left_app in *. simpl in *.
  set (b := fold_left processFrame fs initialBuilder) in *.
  destruct IH as [Hup Hlow].
  pose proof (processFrame_open_count b f) as Hopen.
  pose proof (processFrame_nextId b f) as Hmono.
  split.
  - rewrite sum_list_with_app. simpl.
    assert (Hnext : (nextId (processFrame b f) ≤ nextId b + length (actors f))%nat).
    { rewrite processFrame_spec. simpl. rewrite freshTracks_length.
      pose proof (selectIdx_partition
                    (λ i, negb (bool_decide ((0 + i)%nat ∈ usedObs (frameMatching b f))))
                    (frameObservations f)) as Hp.
      apply Permutation_length in Hp. rewrite length_app in Hp.
      unfold frameObservations in Hp at 3. rewrite length_fmap in Hp. lia. }
    lia.
  - apply Forall_app. split.
    + eapply Forall_impl; [exact Hlow|]. simpl. intros g Hg. lia.
    + constructor; [|constructor]. unfold builderTracks in Hlen.
      rewrite length_app in Hlen. lia.
Qed.

End TrackCount.

(** X12 (number of tracks).  [buildTracks] returns at least as many tracks as
    any one frame has detections -- two detections of a frame never share a
    track -- and at most as many as there are detections in all frames. *)
Theorem track_count `{MathLib} (frames : list ActorDetectionResult) (eventId : string) :
  Forall (λ f, (length (actors f) ≤ length (tracks (buildTracks frames eventId)))%nat) frames ∧
  (length (tracks (buildTracks frames eventId))
     ≤ sum_list_with (λ f, length (actors f)) frames)%nat.
Proof.
  assert (Hlen : S (length (tracks (buildTracks frames eventId))) =
                 nextId (fold_left processFrame (sortFrames frames) initialBuilder)).
  { rewrite <- (builder_length (sortFrames frames)).
    unfold buildTracks. simpl. by rewrite Array_sort_length, length_imap. }
  destruct (builder_count (sortFrames frames)) as [Hup Hlow]. cbv zeta in Hup, Hlow.
  assert (Hperm : sortFrames frames ≡ₚ frames) by apply Array_sort_perm.
  set (n := length (tracks (buildTracks frames eventId))) in *.
  set (next := nextId (fold_left processFrame (sortFrames frames) initialBuilder)) in *.
  split.
  - rewrite <- Hperm. eapply Forall_impl; [exact Hlow|]. cbv beta. intros f Hf. lia.
  - assert (Hsum : sum_list_with (λ f, length (actors f)) (sortFrames frames) =
                   sum_list_with (λ f, length (actors f)) frames).
    { clear -Hperm. induction Hperm; simpl; lia. }
    lia.
Qed.

(* ================================================================= *)
(** ** The keyframe schedule in closed form *)

Lemma computeKeyframes_unfold (duration : Q) :
  computeKeyframes duration =
    addEndFrame duration
      ((λ k : nat, roundTenth (KEYFRAME_START + inject_Z (Z.of_nat k)))
         <$> seq 0 (Z.to_nat (Qceiling (duration - 1)))).
Proof.
  unfold computeKeyframes, computeKeyframes_fuel.
  by rewrite keyframeLoop_enough by done.
Qed.

Lemma inject_nat_nonneg (k : nat) : 0 <= inject_Z (Z.of_nat k).
Proof. change 0 with (inject_Z 0). rewrite <- Zle_Qle. lia. Qed.

Lemma inject_nat_S (k : nat) : inject_Z (Z.of_nat (S k)) == inject_Z (Z.of_nat k) + 1.
Proof.
  rewrite Nat2Z.inj_succ, <- Z.add_1_r, inject_Z_plus. by change (inject_Z 1) with 1.
Qed.

(** The schedule as the list of the rounded half-integer timestamps. *)
Lemma computeKeyframes_regular (duration : Q) :
  computeKeyframes duration =
    (λ k : nat, roundTenth ((1 # 2) + inject_Z (Z.of_nat k)))
      <$> seq 0 (Nat.max 1 (Z.to_nat (Qceiling (duration - 1)))).
Proof.
  rewrite computeKeyframes_unfold.
  destruct (keyframe_rounds duration) as (Hlt & Hge & _).
  set (n := Z.to_nat (Qceiling (duration - 1))) in *.
  unfold KEYFRAME_START in *.
  destruct n as [|n'].
  - change (addEndFrame duration [] =
            [roundTenth ((1 # 2) + inject_Z (Z.of_nat 0))]).
    change (addEndFrame duration [])
      with [roundTenth (JS.Math_max (duration - 1) (1 # 2))].
    change (inject_Z (Z.of_nat 0)) with 0 in Hge.
    assert (Hmax : JS.Math_max (duration - 1) (1 # 2) = 1 # 2).
    { unfold JS.Math_max.
      assert (Hc : JS.ltb (duration - 1) (1 # 2) = true) by (apply ltb_lt; lra).
      by rewrite Hc. }
    by rewrite Hmax.
  - replace (Nat.max 1 (S n')) with (S n') by lia.
    unfold addEndFrame.
    assert (Hlast : last ((λ k : nat, roundTenth ((1 # 2) + inject_Z (Z.of_nat k)))
                            <$> seq 0 (S n'))
                    = Some (roundTenth ((1 # 2) + inject_Z (Z.of_nat n')))).
    { rewrite seq_S, fmap_app.
      change (?f <$> [(0 + n')%nat]) with [f n']. by rewrite last_snoc. }
    rewrite Hlast, length_fmap, length_seq. cbv zeta. cbn [Nat.eqb orb from_option].
    assert (Hc : JS.ltb (roundTenth ((1 # 2) + inject_Z (Z.of_nat n')))
                   (JS.Math_max (duration - 1) KEYFRAME_START - 1) = false).
    { apply ltb_ge. pose proof (roundTenth_half n') as Hr.
      pose proof (inject_nat_nonneg n') as Hn0. pose proof (inject_nat_S n') as HS.
      unfold JS.Math_max, KEYFRAME_START.
      destruct (JS.ltb (duration - 1) (1 # 2)); lra. }
    by rewrite Hc.
Qed.

Lemma computeKeyframes_lookup (duration : Q) (i : nat) (t : Q) :
  computeKeyframes duration !! i = Some t →
  (i < Nat.max 1 (Z.to_nat (Qceiling (duration - 1))))%nat ∧
  t == (1 # 2) + inject_Z (Z.of_nat i).
Proof.
  rewrite computeKeyframes_regular, list_lookup_fmap. intros Hi.
  destruct (seq 0 _ !! i) as [k|] eqn:Hk; [|done].
  apply lookup_seq in Hk as [-> Hlt]. simpl in Hi. inversion Hi; subst t.
  split; [done|]. apply roundTenth_half.
Qed.

(** X13 (closed form of the schedule).  [computeKeyframes] returns the
    timestamps 0.5, 1.5, ..., one for each second: [ceil(duration - 1)] of
    them when the video is longer than one second, and the single timestamp
    0.5 otherwise.  So the frame near the end is added only when the loop
    produced nothing, and it is then the frame at 0.5 s. *)
Theorem keyframes_closed_form (duration : Q) :
  Forall2 Qeq (computeKeyframes duration)
    ((λ k : nat, (1 # 2) + inject_Z (Z.of_nat k))
       <$> seq 0 (Nat.max 1 (Z.to_nat (Qceiling (duration - 1))))) ∧
  length (computeKeyframes duration) = Nat.max 1 (Z.to_nat (Qceiling (duration - 1))).
Proof.
  rewrite computeKeyframes_regular. split.
  - apply Forall2_fmap, Forall_Forall2_diag, Forall_forall.
    intros k _. apply roundTenth_half.
  - by rewrite length_fmap, length_seq.
Qed.

(** X14 (shape of the schedule).  The list of keyframes is never empty, begins
    at 0.5 s, and each keyframe is one second after the one before; for a
    video longer than one second every keyframe is earlier than
    [duration - 0.5]. *)
Theorem keyframes_shape (duration : Q) :
  (∃ t rest, computeKeyframes duration = t :: rest ∧ t == 1 # 2) ∧
  (∀ i t u, computeKeyframes duration !! i = Some t →
            computeKeyframes duration !! S i = Some u → u == t + 1) ∧
  strictlyIncreasing (computeKeyframes duration) ∧
  (1 < duration → Forall (λ t, t < duration - (1 # 2)) (computeKeyframes duration)).
Proof.
  set (n := Z.to_nat (Qceiling (duration - 1))).
  pose proof (computeKeyframes_lookup duration) as Hlook. fold n in Hlook.
  split; [|split; [|split]].
  - destruct (computeKeyframes duration) as [|t rest] eqn:Hck.
    + pose proof (f_equal length (computeKeyframes_regular duration)) as Hlen.
      rewrite Hck, length_fmap, length_seq in Hlen. simpl in Hlen. lia.
    + exists t, rest. split; [done|].
      destruct (Hlook 0%nat t eq_refl) as [_ Ht]. rewrite Ht.
      change (inject_Z (Z.of_nat 0)) with 0. lra.
  - intros i t u Ht Hu. apply Hlook in Ht as [_ Ht]. apply Hlook in Hu as [_ Hu].
    rewrite Hu, Ht, inject_nat_S. lra.
  - unfold strictlyIncreasing.
    assert (Hgen : ∀ l (j : nat),
              (∀ i t, l !! i = Some t → t == (1 # 2) + inject_Z (Z.of_nat (j + i))) →
              StronglySorted Qlt l).
    { induction l as [|t l IH]; intros j Hl; constructor.
      - apply (IH (S j)). intros i u Hi. rewrite (Hl (S i) u Hi).
        by replace (j + S i)%nat with (S j + i)%nat by lia.
      - apply Forall_lookup. intros i u Hi.
        rewrite (Hl 0%nat t eq_refl), (Hl (S i) u Hi).
        assert (Hlt : (Z.of_nat (j + 0) < Z.of_nat (j + S i))%Z) by lia.
        rewrite Zlt_Qlt in Hlt. lra. }
    apply (Hgen _ 0%nat). intros i t Hi. by apply Hlook in Hi as [_ Hi].
  - intros Hdur. apply Forall_lookup. intros i t Hi.
    apply Hlook in Hi as [Hlt Hi]. rewrite Hi.
    destruct (keyframe_rounds duration) as (Hk & Hn & _). fold n in Hk, Hn.
    unfold KEYFRAME_START in *.
    destruct n as [|n'].
    + change (inject_Z (Z.of_nat 0)) with 0 in Hn. lra.
    + apply Hk. lia.
Qed.

(* ================================================================= *)
(** ** Bearings *)

Lemma trunc_nonneg (q : Q) : 0 <= q → JS.trunc q = Qfloor q.
Proof.
  destruct q as [n d]. unfold Qle. simpl. intros Hn.
  unfold JS.trunc. simpl. apply Z.quot_div_nonneg; lia.
Qed.

Lemma trunc_nonpos (q : Q) : q <= 0 → JS.trunc q = Qceiling q.
Proof.
  destruct q as [n d]. unfold Qle. simpl. intros Hn.
  unfold JS.trunc, Qceiling. simpl.
  rewrite <- (Z.opp_involutive n) at 1.
  rewrite Z.quot_opp_l by lia. f_equal. apply Z.quot_div_nonneg; lia.
Qed.

(** [x % 360]: in [[0, 360)] for [x] not negative, in [(-360, 0]] for [x]
    not positive, and [x] less a multiple of 360 in both cases. *)
Lemma rem_360 (x : Q) :
  (0 <= x → 0 <= JS.rem x 360 < 360) ∧
  (x <= 0 → -360 < JS.rem x 360 <= 0) ∧
  JS.rem x 360 == x - 360 * inject_Z (JS.trunc (x / 360)).
Proof.
  unfold JS.rem. change (x / 360) with (x * (1 # 360)).
  split; [|split; [|reflexivity]]; intros Hx.
  - rewrite trunc_nonneg by lra.
    pose proof (Qfloor_le (x * (1 # 360))) as Hlo.
    pose proof (Qlt_floor (x * (1 # 360))) as Hhi.
    rewrite inject_Z_plus in Hhi. change (inject_Z 1) with 1 in Hhi.
    set (F := inject_Z (Qfloor (x * (1 # 360)))) in *. lra.
  - rewrite trunc_nonpos by lra.
    pose proof (Qle_ceiling (x * (1 # 360))) as Hhi.
    pose proof (Qceiling_lt (x * (1 # 360))) as Hlo.
    unfold Z.sub in Hlo. rewrite inject_Z_plus in Hlo.
    rewrite inject_Z_opp in Hlo. change (inject_Z 1) with 1 in Hlo.
    set (F := inject_Z (Qceiling (x * (1 # 360)))) in *. lra.
Qed.

(** X15 (wrap of the bearing).  The bearing of a projected detection is the
    camera bearing plus the offset of the bounding box, less a multiple of
    360.  It lies in [[0, 360)] when that sum is at least -360; for a sum
    below -360 the one added turn is not enough and the result is in
    [(-360, 0]]. *)
Theorem bearing_wraps `{MathLib} (bbox : BBox) (cameraBearing imageWidth fovDegrees : Q)
    (intrinsics : option CameraIntrinsics) :
  let offset :=
    pixelToBearingOffset ((x_min bbox + x_max bbox) / 2) imageWidth fovDegrees intrinsics in
  let bearing := absoluteBearing bbox cameraBearing imageWidth fovDegrees intrinsics in
  (∃ k : Z, bearing == cameraBearing + offset - 360 * inject_Z k) ∧
  (-360 <= cameraBearing + offset → 0 <= bearing < 360) ∧
  (cameraBearing + offset < -360 → -360 < bearing <= 0) ∧
  ∀ distance cameraLat cameraLon,
    proj_bearing (projectActorToWorld bbox distance cameraLat cameraLon cameraBearing
                    imageWidth fovDegrees intrinsics) = bearing.
Proof.
  intros offset bearing. unfold bearing, absoluteBearing. fold offset.
  destruct (rem_360 (cameraBearing + offset + 360)) as (Hpos & Hneg & Heq).
  split; [|split; [|split]].
  - exists (JS.trunc ((cameraBearing + offset + 360) / 360) - 1)%Z.
    rewrite Heq. unfold Z.sub. rewrite inject_Z_plus, inject_Z_opp.
    change (inject_Z 1) with 1.
    set (F := inject_Z (JS.trunc ((cameraBearing + offset + 360) / 360))). lra.
  - intros Hge. apply Hpos. lra.
  - intros Hlt. apply Hneg. lra.
  - done.
Qed.

(** X16 (bearing between two points).  When the angle that [Math.atan2]
    returns is, in degrees, at least -360 -- as it is for an angle in
    [[-pi, pi]] --, [calculateBearing] returns a bearing in [[0, 360)]. *)
Theorem calculateBearing_range `{MathLib} (lat1 lon1 lat2 lon2 : Q) :
  -360 <= rawBearing lat1 lon1 lat2 lon2 →
  0 <= calculateBearing lat1 lon1 lat2 lon2 < 360.
Proof.
  intros Hraw. unfold calculateBearing.
  destruct (rem_360 (rawBearing lat1 lon1 lat2 lon2 + 360)) as (Hpos & _ & _).
  apply Hpos. lra.
Qed.

Lemma calculateBearing_range_witness :
  0 <= @calculateBearing ApproxMath 10 20 12 20 < 360.
Proof.
  apply (@calculateBearing_range ApproxMath 10 20 12 20). by vm_compute.
Defined.


(* ================================================================= *)
(** ** The camera state *)

Lemma sorted_lookup {A} (R : relation A) (l : list A) i j a b :
  StronglySorted R l →
  (i < j)%nat → l !! i = Some a → l !! j = Some b → R a b.
Proof.
  intros Hs. revert i j. induction Hs as [|x l Hs IH Hx]; intros i j Hij Hi Hj; [done|].
  destruct i as [|i], j as [|j]; simpl in *; try lia.
  - inversion Hi; subst. rewrite Forall_forall in Hx. apply Hx.
    by eapply list_elem_of_lookup_2.
  - apply (IH i j); [lia|done|done].
Qed.

Lemma findLowerIndex_spec (rest : list GnssDataPoint) (g : Q) (i l : nat) :
  rest ≠ [] →
  ∃ d, findLowerIndex rest g i l = (i + d)%nat ∧ (d < length rest)%nat ∧
       (∀ d' p, (d' < d)%nat → rest !! d' = Some p → gnss_timestamp p < g) ∧
       (∀ p, rest !! d = Some p → (S d < length rest)%nat → g <= gnss_timestamp p).
Proof.
  revert i l. induction rest as [|next rest IH]; intros i l Hne; [done|].
  simpl. destruct (JS.ltb (gnss_timestamp next) g) eqn:Hlt; simpl.
  - apply ltb_lt in Hlt. destruct rest as [|r rest'].
    + exists 0%nat. simpl. repeat split; [lia|lia|intros; lia|intros; lia].
    + destruct (IH (S i) i) as (d & Hd & Hlen & Hbefore & Hat); [done|].
      exists (S d). rewrite Hd. repeat split; [lia|simpl in *; lia| |].
      * intros [|d'] p Hd' Hp; simpl in Hp.
        -- by inversion Hp; subst.
        -- apply (Hbefore d' p); [lia|done].
      * intros p Hp HS. apply (Hat p Hp). simpl in *. lia.
  - apply ltb_ge in Hlt. exists 0%nat. repeat split; [lia|simpl; lia|intros; lia|].
    intros p Hp _. simpl in Hp. by inversion Hp; subst.
Qed.

Lemma progress_range (x : Q) : 0 <= JS.Math_max 0 (JS.Math_min 1 x) <= 1.
Proof.
  unfold JS.Math_max, JS.Math_min.
  destruct (JS.ltb x 1) eqn:H1.
  - apply ltb_lt in H1. destruct (JS.ltb 0 x) eqn:H0.
    + apply ltb_lt in H0. lra.
    + lra.
  - assert (H0 : JS.ltb 0 1 = true) by done. rewrite H0. lra.
Qed.

Lemma gnssTime_range (gnssStart gnssEnd videoDuration timestamp : Q) :
  gnssStart <= gnssEnd →
  gnssStart <= gnssTimeOf gnssStart gnssEnd videoDuration timestamp <= gnssEnd.
Proof.
  intros Hle. unfold gnssTimeOf.
  pose proof (progress_range (timestamp / videoDuration)) as [H0 H1].
  set (p := JS.Math_max 0 (JS.Math_min 1 (timestamp / videoDuration))) in *.
  assert (Hp0 : 0 <= p * (gnssEnd - gnssStart)) by (apply Qmult_le_0_compat; lra).
  assert (Hp1 : 0 <= (1 - p) * (gnssEnd - gnssStart)) by (apply Qmult_le_0_compat; lra).
  lra.
Qed.

(** A run of [getCameraState] past the guard of line 218. *)
Lemma getCameraState_run `{MathLib} (event : EventView) (gnss : list GnssDataPoint)
    (videoDuration timestamp : Q) :
  ev_gnssData event = Some gnss → (2 ≤ length gnss)%nat → 0 < videoDuration →
  ∃ first final d p1 p2 pEnd,
    head gnss = Some first ∧ last gnss = Some final ∧
    gnss !! d = Some p1 ∧ gnss !! S d = Some p2 ∧
    gnss !! Nat.min (d + 3) (length gnss - 1) = Some pEnd ∧
    (d < Nat.min (d + 3) (length gnss - 1))%nat ∧
    let g := gnssTimeOf (gnss_timestamp first) (gnss_timestamp final)
               videoDuration timestamp in
    (∀ d' p, (0 < d' ≤ d)%nat → gnss !! d' = Some p → gnss_timestamp p < g) ∧
    ((S (S d) < length gnss)%nat → g <= gnss_timestamp p2) ∧
    getCameraState (Some event) videoDuration timestamp =
      Some {| cam_lat :=
                gnss_lat p1 + (gnss_lat p2 - gnss_lat p1) *
                  (if JS.ltb 0 (gnss_timestamp p2 - gnss_timestamp p1)
                   then (g - gnss_timestamp p1) / (gnss_timestamp p2 - gnss_timestamp p1)
                   else 0);
              cam_lon :=
                gnss_lon p1 + (gnss_lon p2 - gnss_lon p1) *
                  (if JS.ltb 0 (gnss_timestamp p2 - gnss_timestamp p1)
                   then (g - gnss_timestamp p1) / (gnss_timestamp p2 - gnss_timestamp p1)
                   else 0);
              cam_bearing :=
                calculateBearing (gnss_lat p1) (gnss_lon p1) (gnss_lat pEnd) (gnss_lon pEnd) |}.
Proof.
  intros Hg Hlen Hvd.
  destruct gnss as [|first rest]; [simpl in Hlen; lia|].
  assert (Hrest : rest ≠ []) by (intros ->; simpl in Hlen; lia).
  destruct (lookup_lt_is_Some_2 (first :: rest) (length (first :: rest) - 1)) as [final Hfinal];
    [simpl; lia|].
  set (g := gnssTimeOf (gnss_timestamp first) (gnss_timestamp final) videoDuration timestamp).
  destruct (findLowerIndex_spec rest g 0 0 Hrest) as (d & Hd & Hdlen & Hbefore & Hat).
  simpl in Hd.
  destruct (lookup_lt_is_Some_2 (first :: rest) d) as [p1 Hp1]; [simpl; lia|].
  destruct (lookup_lt_is_Some_2 (first :: rest) (S d)) as [p2 Hp2]; [simpl; lia|].
  destruct (lookup_lt_is_Some_2 (first :: rest)
              (Nat.min (d + 3) (length (first :: rest) - 1))) as [pEnd HpEnd]; [simpl; lia|].
  exists first, final, d, p1, p2, pEnd.
  assert (Hlast : last (first :: rest) = Some final).
  { rewrite last_lookup. rewrite <- Hfinal. f_equal. simpl. lia. }
  split; [done|]. split; [done|]. split; [done|]. split; [done|]. split; [done|].
  split; [simpl in *; lia|]. fold g. cbv zeta.
  split; [|split].
  - intros [|d'] p Hd' Hp; [lia|]. apply (Hbefore d' p); [lia|done].
  - intros HS. apply (Hat p2); [done|simpl in *; lia].
  - unfold getCameraState. simpl mbind. rewrite Hg.
    assert (Hguard : (length (first :: rest) <? 2)%nat || Qeq_bool videoDuration 0
                     || Qle_bool videoDuration 0 = false).
    { assert (H1 : (length (first :: rest) <? 2)%nat = false) by (apply Nat.ltb_ge; lia).
      assert (H2 : Qeq_bool videoDuration 0 = false).
      { apply not_true_iff_false. rewrite Qeq_bool_iff. lra. }
      assert (H3 : Qle_bool videoDuration 0 = false).
      { apply not_true_iff_false. rewrite Qle_bool_iff. lra. }
      by rewrite H1, H2, H3. }
    rewrite Hguard. cbn [lookup list_lookup]. cbn [mbind option_bind]. rewrite Hfinal.
    cbn [mbind option_bind]. fold g. cbn [tail]. rewrite Hd.
    replace (Nat.min (d + 1) (length (first :: rest) - 1)) with (S d) by (simpl in *; lia).
    rewrite Hp1. cbn [mbind option_bind]. rewrite Hp2. cbn [mbind option_bind].
    assert (Hlook : (d <? Nat.min (d + 3) (length (first :: rest) - 1))%nat = true).
    { apply Nat.ltb_lt. simpl in *. lia. }
    rewrite Hlook, HpEnd. done.
Qed.

(** X18 (the camera state is defined).  [getCameraState] returns a camera
    state for every event, duration and timestamp: past its guard every
    array element it reads exists.  Without an event it returns the origin
    with bearing 0, and for a duration that is not positive the location of
    the event with bearing 0. *)
Theorem camera_state_defined `{MathLib} (event : option EventView)
    (videoDuration timestamp : Q) :
  is_Some (getCameraState event videoDuration timestamp) ∧
  getCameraState None videoDuration timestamp =
    Some {| cam_lat := 0; cam_lon := 0; cam_bearing := 0 |} ∧
  ∀ e, videoDuration <= 0 →
       getCameraState (Some e) videoDuration timestamp =
         Some {| cam_lat := lat (ev_location e); cam_lon := lon (ev_location e);
                 cam_bearing := 0 |}.
Proof.
  split; [|split; [done|]].
  - destruct event as [e|]; [|by eexists].
    destruct (ev_gnssData e) as [gnss|] eqn:Hg; [|unfold getCameraState; simpl; rewrite Hg; by eexists].
    destruct ((length gnss <? 2)%nat || Qeq_bool videoDuration 0 || Qle_bool videoDuration 0)
      eqn:Hguard.
    + unfold getCameraState. simpl. rewrite Hg, Hguard. by eexists.
    + apply orb_false_iff in Hguard as [Hguard Hle].
      apply orb_false_iff in Hguard as [Hlen _].
      apply Nat.ltb_ge in Hlen.
      assert (Hvd : 0 < videoDuration).
      { apply Qnot_le_lt. rewrite <- Qle_bool_iff. by rewrite Hle. }
      destruct (getCameraState_run e gnss videoDuration timestamp Hg Hlen Hvd)
        as (? & ? & ? & ? & ? & ? & _ & _ & _ & _ & _ & _ & _ & _ & ->).
      by eexists.
  - intros e Hvd. unfold getCameraState. simpl.
    destruct (ev_gnssData e) as [gnss|]; [|done].
    assert (Hle : Qle_bool videoDuration 0 = true) by by apply Qle_bool_iff.
    rewrite Hle. by rewrite !orb_true_r.
Qed.

(** X19 (interpolation along the path).  For a GNSS path of at least two
    points in ascending order of time and a positive duration, the camera
    position is a point of the segment between two consecutive points of the
    path: the one at the GNSS time of the video timestamp, that time being
    [gnssStart + progress * (gnssEnd - gnssStart)].  The bearing is always
    the one from the lower point to the point up to three places ahead; the
    bearing from the point before is never used. *)
Theorem camera_state_interpolates `{MathLib} (event : EventView)
    (gnss : list GnssDataPoint) (first final : GnssDataPoint)
    (videoDuration timestamp : Q) :
  ev_gnssData event = Some gnss →
  head gnss = Some first → last gnss = Some final →
  (2 ≤ length gnss)%nat → 0 < videoDuration →
  StronglySorted (λ a b, gnss_timestamp a <= gnss_timestamp b) gnss →
  ∃ s i p1 p2 pEnd τ,
    getCameraState (Some event) videoDuration timestamp = Some s ∧
    gnss !! i = Some p1 ∧ gnss !! S i = Some p2 ∧
    gnss !! Nat.min (i + 3) (length gnss - 1) = Some pEnd ∧
    0 <= τ <= 1 ∧
    gnss_timestamp p1 + (gnss_timestamp p2 - gnss_timestamp p1) * τ ==
      gnssTimeOf (gnss_timestamp first) (gnss_timestamp final) videoDuration timestamp ∧
    cam_lat s = gnss_lat p1 + (gnss_lat p2 - gnss_lat p1) * τ ∧
    cam_lon s = gnss_lon p1 + (gnss_lon p2 - gnss_lon p1) * τ ∧
    cam_bearing s =
      calculateBearing (gnss_lat p1) (gnss_lon p1) (gnss_lat pEnd) (gnss_lon pEnd).
Proof.
  intros Hg Hfirst Hfinal Hlen Hvd Hsorted.
  destruct (getCameraState_run event gnss videoDuration timestamp Hg Hlen Hvd)
    as (first' & final' & d & p1 & p2 & pEnd & Hf1 & Hf2 & Hp1 & Hp2 & HpEnd & _ &
        Hbefore & Hat & Hrun).
  rewrite Hfirst in Hf1. rewrite Hfinal in Hf2.
  inversion Hf1; subst first'. inversion Hf2; subst final'. clear Hf1 Hf2.
  set (g := gnssTimeOf (gnss_timestamp first) (gnss_timestamp final)
              videoDuration timestamp) in *.
  assert (H0 : gnss !! 0%nat = Some first) by by rewrite <- head_lookup.
  assert (Hl : gnss !! (length gnss - 1)%nat = Some final).
  { rewrite last_lookup in Hfinal. rewrite <- Hfinal. f_equal. lia. }
  assert (Hle : ∀ i j a b, (i ≤ j)%nat → gnss !! i = Some a → gnss !! j = Some b →
                  gnss_timestamp a <= gnss_timestamp b).
  { intros i j a b Hij Ha Hb. destruct (decide (i = j)) as [->|Hne].
    - rewrite Ha in Hb. inversion Hb; subst. apply Qle_refl.
    - apply (sorted_lookup _ gnss i j a b Hsorted); [lia|done|done]. }
  assert (Hrange : gnss_timestamp first <= g <= gnss_timestamp final).
  { apply gnssTime_range. apply (Hle 0%nat (length gnss - 1)%nat); [lia|done|done]. }
  assert (Hlow : gnss_timestamp p1 <= g).
  { destruct d as [|d'].
    - rewrite H0 in Hp1. inversion Hp1; subst. lra.
    - apply Qlt_le_weak, (Hbefore (S d') p1); [lia|done]. }
  assert (Hhigh : g <= gnss_timestamp p2).
  { destruct (decide (S (S d) < length gnss)%nat) as [Hin|Hout]; [by apply Hat|].
    assert (HSd : S d = (length gnss - 1)%nat).
    { apply lookup_lt_Some in Hp2. lia. }
    rewrite HSd, Hl in Hp2. inversion Hp2; subst. lra. }
  set (seg := gnss_timestamp p2 - gnss_timestamp p1) in *.
  set (τ := if JS.ltb 0 seg then (g - gnss_timestamp p1) / seg else 0) in *.
  eexists _, d, p1, p2, pEnd, τ.
  split; [exact Hrun|]. simpl.
  split; [done|]. split; [done|]. split; [done|].
  assert (Hτ : 0 <= τ <= 1 ∧ gnss_timestamp p1 + seg * τ == g).
  { unfold τ. destruct (JS.ltb 0 seg) eqn:Hseg.
    - apply ltb_lt in Hseg. split; [split|].
      + apply Qle_shift_div_l; [done|]. lra.
      + apply Qle_shift_div_r; [done|]. unfold seg in *. lra.
      + field. lra.
    - apply ltb_ge in Hseg. unfold seg in *. split; lra. }
  destruct Hτ as [Hτ Heq]. done.
Qed.

Lemma camera_state_interpolates_witness :
  ∃ s i p1 p2 τ,
    @getCameraState ApproxMath (Some sampleEvent) 2 (3 # 2) = Some s ∧
    samplePath !! i = Some p1 ∧ samplePath !! S i = Some p2 ∧ 0 <= τ <= 1 ∧
    gnss_timestamp p1 + (gnss_timestamp p2 - gnss_timestamp p1) * τ ==
      gnssTimeOf 1000 3000 2 (3 # 2) ∧
    cam_lat s = gnss_lat p1 + (gnss_lat p2 - gnss_lat p1) * τ ∧
    cam_lon s = gnss_lon p1 + (gnss_lon p2 - gnss_lon p1) * τ.
Proof.
  destruct (@camera_state_interpolates ApproxMath sampleEvent samplePath
              {| gnss_lat := 10; gnss_lon := 20; gnss_timestamp := 1000 |}
              {| gnss_lat := 12; gnss_lon := 24; gnss_timestamp := 3000 |}
              2 (3 # 2) eq_refl eq_refl eq_refl)
    as (s & i & p1 & p2 & pEnd & τ & Hs & H1 & H2 & _ & Hτ & Hg & Hlat & Hlon & _).
  - simpl. lia.
  - reflexivity.
  - repeat constructor; by vm_compute.
  - by exists s, i, p1, p2, τ.
Defined.

(** X20 (ends of the path).  When the timestamps of the GNSS path are
    strictly increasing, the camera is at the first point of the path for a
    video timestamp of zero or less, and at the last point for a timestamp
    at or past the duration. *)
Theorem camera_state_endpoints `{MathLib} (event : EventView)
    (gnss : list GnssDataPoint) (first final : GnssDataPoint)
    (videoDuration timestamp : Q) :
  ev_gnssData event = Some gnss →
  head gnss = Some first → last gnss = Some final →
  (2 ≤ length gnss)%nat → 0 < videoDuration →
  StronglySorted (λ a b, gnss_timestamp a < gnss_timestamp b) gnss →
  ∃ s, getCameraState (Some event) videoDuration timestamp = Some s ∧
       (timestamp <= 0 → cam_lat s == gnss_lat first ∧ cam_lon s == gnss_lon first) ∧
       (videoDuration <= timestamp →
        cam_lat s == gnss_lat final ∧ cam_lon s == gnss_lon final).
Proof.
  intros Hg Hfirst Hfinal Hlen Hvd Hsorted.
  destruct (getCameraState_run event gnss videoDuration timestamp Hg Hlen Hvd)
    as (first' & final' & d & p1 & p2 & pEnd & Hf1 & Hf2 & Hp1 & Hp2 & HpEnd & _ &
        Hbefore & Hat & Hrun).
  rewrite Hfirst in Hf1. rewrite Hfinal in Hf2.
  inversion Hf1; subst first'. inversion Hf2; subst final'. clear Hf1 Hf2.
  set (g := gnssTimeOf (gnss_timestamp first) (gnss_timestamp final)
              videoDuration timestamp) in *.
  assert (H0 : gnss !! 0%nat = Some first) by by rewrite <- head_lookup.
  assert (Hl : gnss !! (length gnss - 1)%nat = Some final).
  { rewrite last_lookup in Hfinal. rewrite <- Hfinal. f_equal. lia. }
  assert (Hseg : JS.ltb 0 (gnss_timestamp p2 - gnss_timestamp p1) = true).
  { apply ltb_lt.
    pose proof (sorted_lookup _ gnss d (S d) p1 p2 Hsorted (Nat.lt_succ_diag_r d) Hp1 Hp2).
    simpl in *. lra. }
  rewrite Hseg in Hrun. apply ltb_lt in Hseg.
  eexists. split; [exact Hrun|]. simpl. split.
  - intros Ht.
    assert (Hgs : g == gnss_timestamp first).
    { unfold g, gnssTimeOf.
      assert (Hx : timestamp / videoDuration <= 0) by (apply Qle_shift_div_r; [done|lra]).
      assert (Hp : JS.Math_max 0 (JS.Math_min 1 (timestamp / videoDuration)) = 0).
      { unfold JS.Math_max, JS.Math_min.
        assert (H1 : JS.ltb (timestamp / videoDuration) 1 = true) by (apply ltb_lt; lra).
        assert (H2 : JS.ltb 0 (timestamp / videoDuration) = false) by (apply ltb_ge; lra).
        by rewrite H1, H2. }
      rewrite Hp. lra. }
    assert (Hd : d = 0%nat).
    { destruct d as [|d']; [done|]. exfalso.
      pose proof (Hbefore (S d') p1 ltac:(lia) Hp1) as Hlt.
      pose proof (sorted_lookup _ gnss 0 (S d') first p1 Hsorted ltac:(lia) H0 Hp1) as Hgt.
      simpl in Hgt. lra. }
    subst d. rewrite H0 in Hp1. inversion Hp1; subst p1.
    assert (Hz : g - gnss_timestamp first == 0) by lra.
    rewrite Hz. split; field; lra.
  - intros Ht.
    assert (Hge : g == gnss_timestamp final).
    { unfold g, gnssTimeOf.
      assert (Hx : 1 <= timestamp / videoDuration) by (apply Qle_shift_div_l; [done|lra]).
      assert (Hp : JS.Math_max 0 (JS.Math_min 1 (timestamp / videoDuration)) = 1).
      { unfold JS.Math_max, JS.Math_min.
        assert (H1 : JS.ltb (timestamp / videoDuration) 1 = false) by (apply ltb_ge; lra).
        rewrite H1. done. }
      rewrite Hp. lra. }
    assert (Hd : S d = (length gnss - 1)%nat).
    { destruct (decide (S (S d) < length gnss)%nat) as [Hin|Hout].
      - exfalso. specialize (Hat Hin).
        pose proof (sorted_lookup _ gnss (S d) (length gnss - 1) p2 final Hsorted
                      ltac:(lia) Hp2 Hl) as Hgt.
        simpl in Hgt. lra.
      - apply lookup_lt_Some in Hp2. lia. }
    rewrite Hd, Hl in Hp2. inversion Hp2; subst p2.
    rewrite Hge. split; field; lra.
Qed.

Lemma camera_state_endpoints_witness :
  ∃ s, @getCameraState ApproxMath (Some sampleEvent) 2 0 = Some s ∧
       cam_lat s == 10 ∧ cam_lon s == 20.
Proof.
  destruct (@camera_state_endpoints ApproxMath sampleEvent samplePath
              {| gnss_lat := 10; gnss_lon := 20; gnss_timestamp := 1000 |}
              {| gnss_lat := 12; gnss_lon := 24; gnss_timestamp := 3000 |}
              2 0 eq_refl eq_refl eq_refl)
    as (s & Hs & Hstart & _).
  - simpl. lia.
  - reflexivity.
  - repeat constructor; by vm_compute.
  - exists s. split; [exact Hs|]. apply Hstart. discriminate.
Defined.

(* ================================================================= *)
(** ** Speed from the GNSS path *)



(* ================================================================= *)
(** ** Runs of the tracking hook *)

Section HookRuns.
Context `{MathLib} `{Browser}.

Lemma trySetItem_fields key value h :
  let h' := trySetItem key value h in
  trackingResult h' = trackingResult h ∧ isTracking h' = isTracking h ∧
  progress h' = progress h ∧ error h' = error h ∧
  lastEventIdRef h' = lastEventIdRef h ∧ requests h' = requests h.
Proof. unfold trySetItem. by destruct (storageFull _ _ _). Qed.

(** What the loop over the keyframes does to the state of the hook: it
    sends requests for keyframes of the list, in their order, and leaves
    the error and the event reference alone. *)
Lemma keyframesLoop_state params total i rest frs h e frs' h' :
  keyframesLoop params total i rest frs h = (e, frs', h') →
  error h' = error h ∧ lastEventIdRef h' = lastEventIdRef h ∧
  (e = LoopAborted → progress h' = None ∧ isTracking h' = false) ∧
  ∃ sent, requests h' = requests h ++ sent ∧
          req_timestamp <$> sent `sublist_of` rest ∧
          Forall (λ r, req_eventId r = p_eventId params ∧
                       req_videoUrl r = p_videoUrl params ∧
                       req_cameraLat r = cam_lat (p_getCameraState params (req_timestamp r)) ∧
                       req_cameraLon r = cam_lon (p_getCameraState params (req_timestamp r)) ∧
                       req_cameraBearing r =
                         cam_bearing (p_getCameraState params (req_timestamp r))) sent.
Proof.
  revert i frs h. induction rest as [|t rest IH]; intros i frs h Hrun; simpl in Hrun.
  - inversion Hrun; subst. split; [done|]. split; [done|]. split; [done|].
    exists []. by rewrite app_nil_r.
  - destruct (abortRequested i).
    { inversion Hrun; subst. split; [done|]. split; [done|]. split; [done|].
      exists []. split; [by rewrite app_nil_r|]. split; [apply sublist_nil_l|constructor]. }
    destruct (getTruthyItem _ _ ≫= JSON_parse_frame) as [frameResult|].
    { apply IH in Hrun as (He & Hl & Ha & sent & Hreq & Hsub & Hall). simpl in *.
      split; [done|]. split; [done|]. split; [done|].
      exists sent. split; [done|]. split; [|done].
      by apply sublist_cons. }
    destruct (awaitDetection _ _) as [message|body].
    { inversion Hrun; subst. split; [done|]. split; [done|]. split; [done|].
      eexists [_]. split; [reflexivity|]. split.
      - simpl. apply sublist_skip, sublist_nil_l.
      - by repeat constructor. }
    apply IH in Hrun as (He & Hl & Ha & sent & Hreq & Hsub & Hall).
    match type of He with
    | context [trySetItem ?k ?v ?h0] =>
        destruct (trySetItem_fields k v h0) as (_ & _ & _ & He' & Hl' & Hreq')
    end.
    rewrite He' in He. rewrite Hl' in Hl. rewrite Hreq' in Hreq. simpl in *.
    split; [done|]. split; [done|]. split; [done|].
    eexists (_ :: sent). split; [by rewrite Hreq, <- app_assoc|]. split.
    + rewrite fmap_cons. simpl. by apply sublist_skip.
    + by constructor.
Qed.

Lemma dropStaleSession_fields eventId h :
  let h' := dropStaleSession eventId h in
  trackingResult h' = trackingResult h ∧ isTracking h' = isTracking h ∧
  progress h' = progress h ∧ error h' = error h ∧
  lastEventIdRef h' = lastEventIdRef h ∧ requests h' = requests h.
Proof. unfold dropStaleSession. by repeat case_match. Qed.

End HookRuns.

(** X22 (requests follow the keyframes).  A run of [track] sends its
    detection requests for keyframes of the schedule, in the order of the
    schedule and at most one for each keyframe; each request names the event
    and the video of the run and carries the camera state that
    [getCameraState] gives for its timestamp.  A run that loads the session
    from the cache sends none. *)
Theorem requests_follow_keyframes `{MathLib} `{Browser} (params : TrackParams) (h : Hook) :
  ∃ sent,
    requests (track params h).2 = requests h ++ sent ∧
    req_timestamp <$> sent `sublist_of` computeKeyframes (p_videoDuration params) ∧
    Forall (λ r, req_eventId r = p_eventId params ∧
                 req_videoUrl r = p_videoUrl params ∧
                 req_cameraLat r = cam_lat (p_getCameraState params (req_timestamp r)) ∧
                 req_cameraLon r = cam_lon (p_getCameraState params (req_timestamp r)) ∧
                 req_cameraBearing r =
                   cam_bearing (p_getCameraState params (req_timestamp r))) sent ∧
    (∀ cached, (track params h).1 = LoadedFromCache cached → sent = []).
Proof.
  set (keyframes := computeKeyframes (p_videoDuration params)).
  destruct (cachedSession (p_eventId params) keyframes (startedHook params h))
    as [cached|] eqn:Hc.
  - rewrite (track_cached _ _ _ Hc). simpl. exists []. rewrite app_nil_r.
    split; [done|]. split; [apply sublist_nil_l|]. split; [constructor|done].
  - rewrite (track_not_cached _ _ Hc). fold keyframes.
    set (h0 := dropStaleSession (p_eventId params) (startedHook params h)).
    assert (Hreq0 : requests h0 = requests h).
    { unfold h0. by rewrite (proj2 (proj2 (proj2 (proj2 (proj2
        (dropStaleSession_fields (p_eventId params) (startedHook params h))))))). }
    pose proof (runTracking_not_cached params keyframes h0) as Hnc.
    unfold runTracking in *.
    destruct (keyframesLoop params (length keyframes) 0 keyframes [] h0)
      as [[e frs] h1] eqn:Hrun.
    destruct (keyframesLoop_state _ _ _ _ _ _ _ _ _ Hrun)
      as (_ & _ & _ & sent & Hreq & Hsub & Hall).
    exists sent. rewrite <- Hreq0.
    split; [|split; [done|split; [done|]]].
    + destruct e; simpl; try done.
      destruct (abortRequested (length keyframes)); simpl; [done|].
      match goal with
      | |- context [trySetItem ?k ?v ?h'] =>
          by rewrite (proj2 (proj2 (proj2 (proj2 (proj2 (trySetItem_fields k v h'))))))
      end.
    + intros cached Hex. by destruct (Hnc cached).
Qed.

(** X23 (state after a run).  Every run of [track] ends with [isTracking]
    false and the event of the run in [lastEventIdRef].  The tracking result
    is set by a completed run and by one loaded from the cache, and is left
    as it was by an aborted and by a failed run; the error is set by a
    failed run only; an aborted run leaves no progress, a completed one the
    progress [done] with all frames counted. *)
Theorem track_final_state `{MathLib} `{Browser} (params : TrackParams) (h : Hook) :
  isTracking (track params h).2 = false ∧
  lastEventIdRef (track params h).2 = Some (p_eventId params) ∧
  match (track params h).1 with
  | LoadedFromCache cached =>
      trackingResult (track params h).2 = Some cached ∧
      error (track params h).2 = None ∧
      localStorage (track params h).2 = localStorage h
  | Aborted =>
      trackingResult (track params h).2 = trackingResult h ∧
      error (track params h).2 = None ∧ progress (track params h).2 = None
  | Completed result =>
      trackingResult (track params h).2 = Some result ∧
      error (track params h).2 = None ∧
      eventId result = p_eventId params ∧
      (length (frameResults result)
         ≤ length (computeKeyframes (p_videoDuration params)))%nat ∧
      ∃ p, progress (track params h).2 = Some p ∧ status p = st_done ∧
           currentFrame p = length (computeKeyframes (p_videoDuration params)) ∧
           totalFrames p = length (computeKeyframes (p_videoDuration params))
  | Failed message gathered =>
      trackingResult (track params h).2 = trackingResult h ∧
      error (track params h).2 = Some message
  end.
Proof.
  set (keyframes := computeKeyframes (p_videoDuration params)).
  destruct (cachedSession (p_eventId params) keyframes (startedHook params h))
    as [cached|] eqn:Hc.
  - rewrite (track_cached _ _ _ Hc). simpl. done.
  - rewrite (track_not_cached _ _ Hc). fold keyframes.
    set (h0 := dropStaleSession (p_eventId params) (startedHook params h)).
    destruct (dropStaleSession_fields (p_eventId params) (startedHook params h))
      as (Htr0 & _ & _ & He0 & Hl0 & _). fold h0 in Htr0, He0, Hl0. simpl in Htr0, He0, Hl0.
    unfold runTracking.
    destruct (keyframesLoop params (length keyframes) 0 keyframes [] h0)
      as [[e frs] h1] eqn:Hrun.
    destruct (keyframesLoop_state _ _ _ _ _ _ _ _ _ Hrun) as (He & Hl & Ha & _).
    destruct (keyframesLoop_preserves _ _ (p_eventId params) _ _ _ _ _ _ _ Hrun)
      as (_ & Htr & Hlen).
    rewrite He0 in He. rewrite Hl0 in Hl. rewrite Htr0 in Htr.
    destruct e; simpl.
    + destruct (Ha eq_refl) as [Hp _]. done.
    + done.
    + destruct (abortRequested (length keyframes)); simpl; [done|].
      match goal with
      | |- context [trySetItem ?k ?v ?h'] =>
          destruct (trySetItem_fields k v h') as (Htr' & _ & _ & He' & Hl' & _)
      end.
      rewrite Htr', He', Hl'. simpl.
      split; [done|]. split; [done|]. split; [done|]. split; [done|]. split; [done|].
      split.
      * unfold sortFrames. rewrite Array_sort_length. simpl in Hlen. lia.
      * eexists. split; [reflexivity|]. done.
Qed.

(** X24 (cancelling a run).  Take a run of [track] that the session cache
    does not answer and in which the loop gets through the first [i]
    keyframes.  If [abortRef] is set when the run next reads it -- before
    keyframe [i], or after the last keyframe for [i] the number of
    keyframes --, the run returns at once: no further request is sent, the
    storage is as the first [i] keyframes left it, no tracking result and
    no error are set, and the progress is cleared. *)
Theorem abort_stops_run `{MathLib} `{Browser} (params : TrackParams) (h : Hook)
    (i : nat) (gathered : list ActorDetectionResult) (h1 : Hook) :
  let keyframes := computeKeyframes (p_videoDuration params) in
  let h0 := dropStaleSession (p_eventId params) (startedHook params h) in
  cachedSession (p_eventId params) keyframes (startedHook params h) = None →
  (i ≤ length keyframes)%nat →
  keyframesLoop params (length keyframes) 0 (take i keyframes) [] h0
    = (LoopFinished, gathered, h1) →
  abortRequested i = true →
  (track params h).1 = Aborted ∧
  requests (track params h).2 = requests h1 ∧
  localStorage (track params h).2 = localStorage h1 ∧
  trackingResult (track params h).2 = trackingResult h ∧
  error (track params h).2 = None ∧
  progress (track params h).2 = None ∧
  isTracking (track params h).2 = false.
Proof.
  intros keyframes h0 Hcache Hi Hprefix Habort.
  destruct (keyframesLoop_preserves _ _ (p_eventId params) _ _ _ _ _ _ _ Hprefix)
    as (_ & Htr1 & _).
  destruct (keyframesLoop_state _ _ _ _ _ _ _ _ _ Hprefix) as (He1 & _ & _ & _).
  destruct (dropStaleSession_fields (p_eventId params) (startedHook params h))
    as (Htr0 & _ & _ & He0 & _ & _). fold h0 in Htr0, He0. simpl in Htr0, He0.
  rewrite (track_not_cached _ _ Hcache). fold keyframes h0. unfold runTracking.
  destruct (decide (i = length keyframes)) as [->|Hne].
  - rewrite firstn_all in Hprefix. rewrite Hprefix, Habort. simpl.
    by rewrite Htr1, Htr0, He1, He0.
  - destruct (lookup_lt_is_Some_2 keyframes i) as [t Ht]; [lia|].
    assert (Hrun : keyframesLoop params (length keyframes) 0 keyframes [] h0
                   = (LoopAborted, gathered, setProgress None (setIsTracking false h1))).
    { rewrite <- (take_drop_middle keyframes i t Ht) at 2.
      rewrite keyframesLoop_app, Hprefix. simpl.
      rewrite length_take_le by lia. by rewrite Habort. }
    rewrite Hrun. simpl. by rewrite Htr1, Htr0, He1, He0.
Qed.

Lemma abort_stops_run_witness :
  (@track ApproxMath (EchoBrowser (Some 1%nat)) (sampleParams 3) emptyHook).1 = Aborted ∧
  length (requests (@track ApproxMath (EchoBrowser (Some 1%nat)) (sampleParams 3)
                      emptyHook).2) = 1%nat.
Proof.
  pose (h0 := @dropStaleSession (EchoBrowser (Some 1%nat)) "event"
                (startedHook (sampleParams 3) emptyHook)).
  pose (run := @keyframesLoop (EchoBrowser (Some 1%nat)) (sampleParams 3) 2 0 [5 # 10] [] h0).
  destruct (@abort_stops_run ApproxMath (EchoBrowser (Some 1%nat)) (sampleParams 3) emptyHook
              1%nat run.1.2 run.2) as (Hexit & Hreq & _).
  - by vm_compute.
  - vm_compute. lia.
  - by vm_compute.
  - reflexivity.
  - split; [exact Hexit|]. rewrite Hreq. by vm_compute.
Defined.

(** X25 (a completed run is found again).  Suppose a run of [track]
    completes with a result, no response of the run has a falsy body, the
    write of the session to the storage succeeds, and the session string
    is not empty and parses back to the result.  Then the result has one
    keyframe timestamp for each keyframe of the schedule, the session is
    in the storage under the key of the event, and a second run with the
    same parameters loads this result from the cache without sending a
    request. *)
Theorem completed_run_round_trip `{MathLib} `{Browser} (params : TrackParams) (h : Hook)
    (result : ActorTrackingResult) (h1 : Hook) :
  track params h = (Completed result, h1) →
  (∀ request, fetchDetectActors request ≠ ResponseOk (inr None)) →
  (∀ storage value,
     storageFull storage (trackingCacheKey (p_eventId params)) value = false) →
  JSON_parse_session (JSON_stringify_session result) = Some result →
  JSON_stringify_session result ≠ EmptyString →
  length (keyframeTimestamps result) = length (computeKeyframes (p_videoDuration params)) ∧
  localStorage h1 !! trackingCacheKey (p_eventId params)
    = Some (JSON_stringify_session result) ∧
  (track params h1).1 = LoadedFromCache result ∧
  requests (track params h1).2 = requests h1 ∧
  trackingResult (track params h1).2 = Some result.
Proof.
  intros Hrun Hbody Hfull Hparse Hnonempty.
  set (keyframes := computeKeyframes (p_videoDuration params)) in *.
  assert (Hfirst : length (keyframeTimestamps result) = length keyframes ∧
                   localStorage h1 !! trackingCacheKey (p_eventId params)
                     = Some (JSON_stringify_session result)).
  { destruct (cachedSession (p_eventId params) keyframes (startedHook params h))
      as [cached|] eqn:Hc.
    { rewrite (track_cached _ _ _ Hc) in Hrun. by inversion Hrun. }
    rewrite (track_not_cached _ _ Hc) in Hrun. fold keyframes in Hrun.
    unfold runTracking in Hrun.
    destruct (keyframesLoop params (length keyframes) 0 keyframes [] _)
      as [[e frs] h'] eqn:Hloop.
    destruct e; [by inversion Hrun|by inversion Hrun|].
    destruct (abortRequested (length keyframes)); [by inversion Hrun|].
    pose proof (keyframesLoop_count _ _ _ _ _ _ _ _ Hbody Hloop) as Hcount.
    simpl in Hcount.
    inversion Hrun as [[Hres Hh1]]. clear Hrun. split.
    - simpl. rewrite length_map. unfold sortFrames. by rewrite Array_sort_length.
    - unfold trySetItem. rewrite Hfull. simpl. apply lookup_insert_eq. }
  destruct Hfirst as [Hlen Hstored]. split; [done|]. split; [done|].
  assert (Hc : cachedSession (p_eventId params) keyframes (startedHook params h1)
               = Some result).
  { unfold cachedSession, getTruthyItem. simpl. rewrite Hstored.
    destruct (String.eqb_spec (JSON_stringify_session result) EmptyString) as [Heq|_];
      [done|].
    rewrite Hparse. apply Nat.eqb_eq in Hlen. by rewrite Hlen. }
  rewrite (track_cached _ _ _ Hc). done.
Qed.

Lemma completed_run_round_trip_witness :
  (@track ApproxMath (EchoBrowser None) (sampleParams 1)
     (@track ApproxMath (EchoBrowser None) (sampleParams 1) emptyHook).2).1
    = LoadedFromCache echoResult ∧
  length (requests (@track ApproxMath (EchoBrowser None) (sampleParams 1)
            (@track ApproxMath (EchoBrowser None) (sampleParams 1) emptyHook).2).2) = 1%nat.
Proof.
  destruct (@completed_run_round_trip ApproxMath (EchoBrowser None) (sampleParams 1)
              emptyHook echoResult
              (@track ApproxMath (EchoBrowser None) (sampleParams 1) emptyHook).2)
    as (_ & _ & Hexit & Hreq & _).
  - by vm_compute.
  - intros request. discriminate.
  - done.
  - reflexivity.
  - discriminate.
  - split; [exact Hexit|]. rewrite Hreq. by vm_compute.
Defined.

Lemma track_lastEventId `{MathLib} `{Browser} (params : TrackParams) (h : Hook) :
  lastEventIdRef (track params h).2 = Some (p_eventId params).
Proof.
  set (keyframes := computeKeyframes (p_videoDuration params)).
  destruct (cachedSession (p_eventId params) keyframes (startedHook params h))
    as [cached|] eqn:Hc.
  - by rewrite (track_cached _ _ _ Hc).
  - rewrite (track_not_cached _ _ Hc). fold keyframes.
    destruct (dropStaleSession_fields (p_eventId params) (startedHook params h))
      as (_ & _ & _ & _ & Hl0 & _). simpl in Hl0.
    unfold runTracking.
    destruct (keyframesLoop params (length keyframes) 0 keyframes [] _)
      as [[e frs] h1] eqn:Hrun.
    destruct (keyframesLoop_state _ _ _ _ _ _ _ _ _ Hrun) as (_ & Hl & _).
    rewrite Hl0 in Hl.
    destruct e; simpl; try done.
    destruct (abortRequested (length keyframes)); simpl; [done|].
    match goal with
    | |- context [trySetItem ?k ?v ?h'] =>
        by rewrite (proj1 (proj2 (proj2 (proj2 (proj2 (trySetItem_fields k v h'))))))
    end.
Qed.

(** X26 (clearing forgets the session).  After [clear], the tracking result,
    the progress and the error are unset, and the session of the last
    tracked event is gone from the storage while every other entry stays;
    so a new run of [track] for an event with a non-empty identifier,
    started after a run for it and [clear], does not load a session from
    the cache. *)
Theorem clear_forgets_session `{MathLib} `{Browser} (params : TrackParams) (h : Hook) :
  p_eventId params ≠ EmptyString →
  let cleared := clear (track params h).2 in
  trackingResult cleared = None ∧ progress cleared = None ∧ error cleared = None ∧
  localStorage cleared =
    delete (trackingCacheKey (p_eventId params)) (localStorage (track params h).2) ∧
  ∀ cached, (track params cleared).1 ≠ LoadedFromCache cached.
Proof.
  intros Hne cleared.
  pose proof (track_lastEventId params h) as Hlast.
  assert (Hls : localStorage cleared =
                delete (trackingCacheKey (p_eventId params))
                  (localStorage (track params h).2)).
  { unfold cleared, clear. rewrite Hlast.
    destruct (String.eqb_spec (p_eventId params) EmptyString) as [Heq|_]; done. }
  split; [done|]. split; [done|]. split; [done|]. split; [done|].
  intros cached.
  assert (Hc : cachedSession (p_eventId params) (computeKeyframes (p_videoDuration params))
                 (startedHook params cleared) = None).
  { unfold cachedSession, getTruthyItem.
    change (localStorage (startedHook params cleared)) with (localStorage cleared).
    by rewrite Hls, lookup_delete_eq. }
  rewrite (track_not_cached _ _ Hc). apply runTracking_not_cached.
Qed.

Lemma clear_forgets_session_witness :
  localStorage (clear (@track ApproxMath (EchoBrowser None) (sampleParams 1) emptyHook).2)
    !! trackingCacheKey "event" = None ∧
  (@track ApproxMath (EchoBrowser None) (sampleParams 1)
     (clear (@track ApproxMath (EchoBrowser None) (sampleParams 1) emptyHook).2)).1
    ≠ LoadedFromCache echoResult.
Proof.
  destruct (@clear_forgets_session ApproxMath (EchoBrowser None) (sampleParams 1) emptyHook)
    as (_ & _ & _ & Hls & Hrun).
  - discriminate.
  - split; [|apply Hrun]. rewrite Hls. apply lookup_delete_eq.
Defined.
